(** * firmware/plotter.py: the serial reader, its sliding window and the plot update

    A shallow embedding of [firmware/plotter.py].  The script reads lines
    from a serial port in a background thread ([read_serial]), extracts two
    numbers per line with a regular expression, and appends them to three
    bounded deques which the animation callback ([update]) reads.

    Conventions of the model:
    - a Python [str] is a list of Unicode code points ([N]);
    - a Python [float] is an IEEE 754 binary64 value ([spec_float] at
      precision 53, maximal exponent 1024);
    - a [deque(maxlen=n)] is the list of its items, oldest first, together
      with its bound;
    - an exception is a value of [exn], and code that may raise returns a
      [result];
    - what the outside world does (the serial port, the main thread clearing
      [running]) is a script of events consumed by the reader loop. *)

From Stdlib Require Import String Ascii List Arith ZArith NArith Lia Bool.
From Stdlib Require Import Floats.SpecFloat DecimalString.
Import ListNotations.

Set Implicit Arguments.

(* ================================================================== *)
(** * Text *)

Definition codepoint := N.
Definition str := list codepoint.

(** A character and a string literal of the source, as code points. *)
Definition chr (a : ascii) : codepoint := N_of_ascii a.
Definition py (s : string) : str := map chr (list_ascii_of_string s).

(** The part of the Unicode character database the script relies on through
    [str.strip], [\d] and [float]: for a code point outside ASCII, its
    decimal digit value (if it is a decimal digit) and whether it is white
    space.  The ASCII range is fixed below. *)
Class UnicodeData := {
  uni_decimal : codepoint -> option N;
  uni_space : codepoint -> bool;
  (* no character is both white space and a decimal digit *)
  uni_space_not_decimal : forall c, uni_space c = true -> uni_decimal c = None
}.

(** The database restricted to ASCII: no digit or space beyond it. *)
Definition ascii_only : UnicodeData :=
  {| uni_decimal := fun _ => None;
     uni_space := fun _ => false;
     uni_space_not_decimal := fun _ _ => eq_refl |}.

Section Text.
Context {U : UnicodeData}.

(** [Py_UNICODE_TODECIMAL]: the value of a decimal digit. *)
Definition to_decimal (c : codepoint) : option N :=
  if (c <? 128)%N then
    if ((48 <=? c) && (c <=? 57))%N then Some (c - 48)%N else None
  else
    match uni_decimal c with
    | Some d => if (d <? 10)%N then Some d else None
    | None => None
    end.

Definition isdecimal (c : codepoint) : bool :=
  match to_decimal c with Some _ => true | None => false end.

(** [Py_UNICODE_ISSPACE]: in ASCII, TAB..CR, FS..US and the space. *)
Definition isspace (c : codepoint) : bool :=
  if (c <? 128)%N then
    (((9 <=? c) && (c <=? 13)) || ((28 <=? c) && (c <=? 31)) || (c =? 32))%N
  else uni_space c.

Fixpoint lstrip (f : codepoint -> bool) (s : str) : str :=
  match s with
  | c :: s' => if f c then lstrip f s' else s
  | [] => []
  end.

Definition rstrip (f : codepoint -> bool) (s : str) : str :=
  rev (lstrip f (rev s)).

(** [str.strip()] *)
Definition strip (s : str) : str := rstrip isspace (lstrip isspace s).

(** [s[i:j]] for [0 <= i <= j]. *)
Definition substr (s : str) (i j : nat) : str := firstn (j - i) (skipn i s).

(* ================================================================== *)
(** * Regular expressions: the fragment of [re] the pattern uses

    The matcher is a backtracking matcher in continuation-passing style, as
    [re]'s engine is: alternatives are tried left to right, a repetition is
    greedy and gives characters back one at a time, and the first complete
    match found is the result. *)

Inductive charset :=
| CLit (c : codepoint)            (* a literal character *)
| CIn (cs : list codepoint)       (* [...] *)
| CDigit.                         (* \d *)

Inductive regex :=
| Eps                                               (* the empty pattern *)
| Chr (cs : charset)
| Cat (r1 r2 : regex)
| Alt (r1 r2 : regex)                               (* r1|r2 *)
| Repeat (lo : nat) (hi : option nat) (cs : charset) (* x?  x*  x+ *)
| Group (n : nat) (r : regex).                      (* (r) *)

Definition in_charset (cs : charset) (c : codepoint) : bool :=
  match cs with
  | CLit d => (c =? d)%N
  | CIn l => existsb (N.eqb c) l
  | CDigit => isdecimal c
  end.

(** Group number -> span [(start, end)] in the searched string; the latest
    binding of a group is the first in the list. *)
Definition captures := list (nat * (nat * nat)).

Section Matcher.
Variable R : Type.

Definition hi_pred (hi : option nat) : option nat :=
  match hi with Some h => Some (pred h) | None => None end.

(** Greedy repetition of one character class: take one more character if
    allowed and possible and match the rest; if that fails, stop here. *)
Fixpoint rep (cs : charset) (lo : nat) (hi : option nat) (s : str) (pos : nat)
    (k : str -> nat -> option R) : option R :=
  let stop := match lo with O => k s pos | S _ => None end in
  match hi with
  | Some O => stop
  | _ =>
    match s with
    | c :: s' =>
      if in_charset cs c then
        match rep cs (pred lo) (hi_pred hi) s' (S pos) k with
        | Some r => Some r
        | None => stop
        end
      else stop
    | [] => stop
    end
  end.

Fixpoint rmatch (r : regex) (s : str) (pos : nat) (caps : captures)
    (k : str -> nat -> captures -> option R) : option R :=
  match r with
  | Eps => k s pos caps
  | Chr cs =>
    match s with
    | c :: s' => if in_charset cs c then k s' (S pos) caps else None
    | [] => None
    end
  | Cat r1 r2 => rmatch r1 s pos caps (fun s1 p1 c1 => rmatch r2 s1 p1 c1 k)
  | Alt r1 r2 =>
    match rmatch r1 s pos caps k with
    | Some x => Some x
    | None => rmatch r2 s pos caps k
    end
  | Repeat lo hi cs => rep cs lo hi s pos (fun s1 p1 => k s1 p1 caps)
  | Group n r1 => rmatch r1 s pos caps (fun s1 p1 c1 => k s1 p1 ((n, (pos, p1)) :: c1))
  end.

End Matcher.

(** A match object: where the match starts and ends, and its groups. *)
Record match_object := {
  m_string : str;
  m_start : nat;
  m_end : nat;
  m_groups : captures
}.

Fixpoint lookup_group (n : nat) (c : captures) : option (nat * nat) :=
  match c with
  | (g, sp) :: c' => if Nat.eqb g n then Some sp else lookup_group n c'
  | [] => None
  end.

(** [match.group(n)] for a group that took part in the match. *)
Definition group (m : match_object) (n : nat) : str :=
  match lookup_group n (m_groups m) with
  | Some (i, j) => substr (m_string m) i j
  | None => []
  end.

(** [re.search]: the first position, left to right, at which the pattern
    matches.  [s] is what is left of [line] from position [pos] on. *)
Fixpoint search_from (r : regex) (line s : str) (pos : nat) : option match_object :=
  match rmatch r s pos [] (fun _ e c => Some (e, c)) with
  | Some (e, c) =>
    Some {| m_string := line; m_start := pos; m_end := e; m_groups := c |}
  | None =>
    match s with
    | _ :: s' => search_from r line s' (S pos)
    | [] => None
    end
  end.

Definition re_search (r : regex) (line : str) : option match_object :=
  search_from r line line 0.

(** A literal string as a pattern. *)
Definition lit (s : string) : regex :=
  fold_right (fun c r => Cat (Chr (CLit c)) r) Eps (py s).

(** [[-+]?\d*\.\d+|[-+]?\d+] *)
Definition sign_opt : regex := Repeat 0 (Some 1) (CIn (py "-+")).
Definition fraction : regex :=
  Cat (Repeat 0 None CDigit) (Cat (Chr (CLit (chr "."))) (Repeat 1 None CDigit)).
Definition integer : regex := Repeat 1 None CDigit.
Definition number : regex :=
  Alt (Cat sign_opt fraction) (Cat sign_opt integer).

(** [r"Pred:([-+]?\d*\.\d+|[-+]?\d+),True:([-+]?\d*\.\d+|[-+]?\d+)"] *)
Definition pattern : regex :=
  Cat (lit "Pred:") (Cat (Group 1 number) (Cat (lit ",True:") (Group 2 number))).

(* ================================================================== *)
(** * Floats: [float(str)], [-], [abs] and the [.4f] format *)

Definition float := spec_float.
Definition prec : Z := 53.
Definition emax : Z := 1024.

Definition float_sub (x y : float) : float := SFsub prec emax x y.
Definition float_abs (x : float) : float := SFabs x.

(** The conversion of the digits [m] with the decimal exponent [e] and the
    sign [neg], as [float] does it: the integer [m * 10^e] normalised, or
    [m] divided by [10^-e], in binary64.  That the result is the number
    rounded is proved below ([decimal_to_float_rounds]). *)
Definition decimal_to_float (neg : bool) (m : N) (e : Z) : float :=
  match m with
  | N0 => S754_zero neg
  | Npos p =>
    match e with
    | Zneg k =>
      SFdiv prec emax (S754_finite neg p 0) (S754_finite false (Pos.pow 10 k) 0)
    | _ => binary_normalize prec emax (cond_Zopp neg (Zpos p * 10 ^ e)) 0 neg
    end
  end.

Definition is_ascii_digit (c : codepoint) : bool := ((48 <=? c) && (c <=? 57))%N.

Definition digits_value (ds : str) : N :=
  fold_left (fun acc c => (acc * 10 + (c - 48))%N) ds 0%N.

(** [_PyUnicode_TransformDecimalAndSpaceToASCII]: decimal digits become
    ASCII digits and spaces the ASCII space; the first other character
    outside ASCII becomes [?] and ends the result. *)
Fixpoint to_ascii (s : str) : str :=
  match s with
  | [] => []
  | c :: s' =>
    if (c <? 127)%N then c :: to_ascii s'
    else if isspace c then chr " " :: to_ascii s'
    else match to_decimal c with
         | Some d => (48 + d)%N :: to_ascii s'
         | None => [chr "?"]
         end
  end.

(** [_Py_string_to_number_with_underscores]: an underscore is allowed only
    between two digits. *)
Fixpoint underscores_ok (prev : codepoint) (s : str) : bool :=
  match s with
  | [] => negb (prev =? chr "_")%N
  | c :: s' =>
    (if (c =? chr "_")%N then is_ascii_digit prev
     else negb (prev =? chr "_")%N || is_ascii_digit c)
    && underscores_ok c s'
  end.

Definition remove_underscores (s : str) : str :=
  filter (fun c => negb (c =? chr "_")%N) s.

(** [Py_ISSPACE] *)
Definition c_isspace (c : codepoint) : bool :=
  (((9 <=? c) && (c <=? 13)) || (c =? 32))%N.

Fixpoint span (f : codepoint -> bool) (s : str) : str * str :=
  match s with
  | c :: s' =>
    if f c then let (a, b) := span f s' in (c :: a, b) else ([], s)
  | [] => ([], [])
  end.

Definition take_sign (s : str) : bool * str :=
  match s with
  | c :: s' =>
    if (c =? chr "-")%N then (true, s')
    else if (c =? chr "+")%N then (false, s')
    else (false, s)
  | [] => (false, [])
  end.

Definition lower (c : codepoint) : codepoint :=
  if ((65 <=? c) && (c <=? 90))%N then (c + 32)%N else c.

Definition str_eqb (a b : str) : bool :=
  if list_eq_dec N.eq_dec a b then true else false.

(** [_Py_parse_inf_or_nan], after the sign. *)
Definition inf_or_nan (neg : bool) (body : str) : option float :=
  let l := map lower body in
  if str_eqb l (py "inf") || str_eqb l (py "infinity") then Some (S754_infinity neg)
  else if str_eqb l (py "nan") then Some S754_nan
  else None.

(** The exponent part: [e] or [E], an optional sign, at least one digit.
    Returns the exponent and what follows it; a malformed exponent is not
    consumed. *)
Definition exponent (s : str) : Z * str :=
  match s with
  | c :: r =>
    if (lower c =? chr "e")%N then
      let (neg, r1) := take_sign r in
      let (ds, r2) := span is_ascii_digit r1 in
      match ds with
      | [] => (0%Z, s)
      | _ => (cond_Zopp neg (Z.of_N (digits_value ds)), r2)
      end
    else (0%Z, s)
  | [] => (0%Z, [])
  end.

(** [PyOS_string_to_double] on the whole string: [strtod]'s grammar, and
    [inf], [infinity] and [nan] when no digit was found.  [None] is
    [ValueError]. *)
Definition parse_float (s : str) : option float :=
  let (neg, body) := take_sign s in
  let (ip, r1) := span is_ascii_digit body in
  let (fp, r2) :=
    match r1 with
    | c :: r => if (c =? chr ".")%N then span is_ascii_digit r else ([], r1)
    | [] => ([], [])
    end in
  match ip ++ fp with
  | [] => inf_or_nan neg body
  | ds =>
    let (ex, r3) := exponent r2 in
    match r3 with
    | [] => Some (decimal_to_float neg (digits_value ds) (ex - Z.of_nat (length fp)))
    | _ => None
    end
  end.

(** [float(s)] for a [str] argument; [None] is [ValueError]. *)
Definition py_float (s : str) : option float :=
  let a := to_ascii s in
  if underscores_ok 0%N a then
    parse_float (rstrip c_isspace (lstrip c_isspace (remove_underscores a)))
  else None.

(** [n / d] rounded to the nearest integer, ties to even ([0 < d]). *)
Definition round_half_even (n d : Z) : Z :=
  let q := (n / d)%Z in
  match (2 * (n mod d) ?= d)%Z with
  | Lt => q
  | Gt => (q + 1)%Z
  | Eq => if Z.even q then q else (q + 1)%Z
  end.

Definition decimal_digits (n : Z) : str :=
  py (NilZero.string_of_uint (N.to_uint (Z.to_N n))).

(** [n] read as a fixed-point number with [p] decimals. *)
Definition fixed (p : nat) (n : Z) : str :=
  let ip := decimal_digits (n / 10 ^ Z.of_nat p) in
  let fp := decimal_digits (n mod 10 ^ Z.of_nat p) in
  ip ++ chr "." :: repeat (chr "0") (p - length fp) ++ fp.

Definition minus_sign (neg : bool) : str := if neg then py "-" else [].

(** [format(x, ".pf")] for [0 < p]: the decimal expansion of [x] correctly
    rounded to [p] decimals. *)
Definition format_f (p : nat) (x : float) : str :=
  match x with
  | S754_nan => py "nan"
  | S754_infinity s => minus_sign s ++ py "inf"
  | S754_zero s => minus_sign s ++ fixed p 0
  | S754_finite s m e =>
    minus_sign s ++
    fixed p match e with
            | Zneg k => round_half_even (Zpos m * 10 ^ Z.of_nat p) (Zpos (Pos.pow 2 k))
            | _ => (Zpos m * 2 ^ e * 10 ^ Z.of_nat p)%Z
            end
  end.

(** [x] is within [10^-k] of the fraction [a / b] ([0 < b]). *)
Definition near (x : float) (a b : Z) (k : Z) : Prop :=
  match x with
  | S754_finite s m (Zneg e) =>
    (Z.abs (cond_Zopp s (Zpos m) * b - a * 2 ^ Zpos e) * 10 ^ k < b * 2 ^ Zpos e)%Z
  | S754_finite s m e =>
    (Z.abs (cond_Zopp s (Zpos m) * 2 ^ e * b - a) * 10 ^ k < b)%Z
  | S754_zero _ => (Z.abs a * 10 ^ k < b)%Z
  | _ => False
  end.

(* ================================================================== *)
(** * The line format, in words

    What the documentation of the script calls the expected format:
    [Pred:] and a number, [,True:] and a number, where a number is an
    optional sign and either digits or digits, a dot and at least one
    digit. *)

Definition is_sign (w : str) : Prop := w = [] \/ w = py "-" \/ w = py "+".

Definition digits (w : str) : Prop := forallb isdecimal w = true.

Definition is_minus (w : str) : bool := str_eqb w (py "-").

(** The number a string of decimal digits denotes. *)
Definition decimal_value (ds : str) : N :=
  fold_left (fun acc c => (acc * 10 + match to_decimal c with
                                      | Some d => d
                                      | None => 0
                                      end)%N) ds 0%N.

(** [value_of w neg m k]: [w] is a numeral, an optional sign and either
    digits or digits, a dot and at least one digit, and the number it
    denotes is [m / 10^k], negated when [neg]. *)
Inductive value_of : str -> bool -> N -> nat -> Prop :=
| value_int sg ds :
    is_sign sg -> digits ds -> ds <> [] ->
    value_of (sg ++ ds) (is_minus sg) (decimal_value ds) 0
| value_frac sg ds fs :
    is_sign sg -> digits ds -> digits fs -> fs <> [] ->
    value_of (sg ++ ds ++ chr "." :: fs)
             (is_minus sg) (decimal_value (ds ++ fs)) (length fs).

Definition numeral (w : str) : Prop := exists neg m k, value_of w neg m k.

(* ------------------------------------------------------------------ *)
(** ** Numbers and binary64

    What it means for a float to be a given number rounded, said without
    the conversion the program uses.  Every binary64 number is a multiple of
    [2^-1074], so numbers are counted in that unit: below, [n] and [b] stand
    for the number [n / b] times [2^-1074]. *)

(** [m * 2^e] is how binary64 writes a positive number: 53 significant
    bits, or fewer at the least exponent. *)
Definition binary64 (m e : Z) : Prop :=
  ((2 ^ 52 <= m < 2 ^ 53 /\ -1074 <= e <= 971) \/
   (0 < m < 2 ^ 52 /\ e = -1074))%Z.


(** [2^E] units is the last place of the number [n / b]: the number has 53
    significant bits above it, or it is below [2^53] units and [E] is 0. *)
Definition last_place (n b E : Z) : Prop :=
  ((E = 0 /\ n < 2 ^ 53 * b) \/
   (0 < E /\ 2 ^ (E + 52) * b <= n < 2 ^ (E + 53) * b))%Z.

(** [r] is the integer nearest to [n / d], the even one of the two when
    [n / d] is halfway between them. *)
Definition nearest_even (n d r : Z) : Prop :=
  (Z.abs (2 * (r * d - n)) <= d /\
   (Z.abs (2 * (r * d - n)) = d -> Z.even r = true))%Z.

(** [z] units is [n / b] units rounded at its last place. *)
Definition rounded (n b z : Z) : Prop :=
  exists E r, last_place n b E /\ nearest_even n (2 ^ E * b) r /\ z = (r * 2 ^ E)%Z.

(** [rounds_to neg n b x]: the float [x] is the number [n / b] units, with
    the sign [neg], rounded to binary64: a zero, a binary64 number, or an
    infinity when the rounded number is [2^1024] or more. *)
Inductive rounds_to (neg : bool) (n b : Z) : float -> Prop :=
| rounds_to_zero :
    rounded n b 0 -> rounds_to neg n b (S754_zero neg)
| rounds_to_finite m e :
    rounded n b (Zpos m * 2 ^ (e + 1074)) -> binary64 (Zpos m) e ->
    rounds_to neg n b (S754_finite neg m e)
| rounds_to_infinity z :
    rounded n b z -> (2 ^ 2098 <= z)%Z -> rounds_to neg n b (S754_infinity neg).

(** [denotes w v]: [w] is a numeral and [v] is the number it denotes,
    rounded to binary64. *)
Definition denotes (w : str) (v : float) : Prop :=
  exists neg m k,
    value_of w neg m k /\
    rounds_to neg (Z.of_N m * 2 ^ 1074) (10 ^ Z.of_nat k) v.

(** A mantissa with the two extra bits of a right shift, for the number
    [n / d]: the mantissa is the integer part, the first bit says whether
    the rest is a half or more, the second whether anything else is left.
    The proofs follow [shr] with it. *)
Definition bracket (n d : Z) (mrs : shr_record) : Prop :=
  (0 <= shr_m mrs /\
   shr_m mrs * d <= n < (shr_m mrs + 1) * d /\
   (shr_r mrs = true <-> (2 * shr_m mrs + 1) * d <= 2 * n) /\
   (shr_s mrs = true <-> n <> shr_m mrs * d /\ 2 * n <> (2 * shr_m mrs + 1) * d))%Z.

(** [line] has the format at position [length pre], with numerals [n1] and
    [n2]. *)
Definition occurs (line pre n1 n2 post : str) : Prop :=
  line = pre ++ py "Pred:" ++ n1 ++ py ",True:" ++ n2 ++ post /\
  numeral n1 /\ numeral n2.

(** A scanner for the longest numeral at the start of a string, and the
    rest of the string; the matcher is compared with it. *)
Definition scan_sign (s : str) : str * str :=
  match s with
  | c :: s' => if existsb (N.eqb c) (py "-+") then ([c], s') else ([], s)
  | [] => ([], [])
  end.

Definition longest_numeral (s : str) : option (str * str) :=
  let (sg, r) := scan_sign s in
  let (ds, r1) := span isdecimal r in
  let whole := match ds with [] => None | _ => Some (sg ++ ds, r1) end in
  match r1 with
  | c :: r2 =>
    if (c =? chr ".")%N then
      let (fs, r3) := span isdecimal r2 in
      match fs with
      | [] => whole
      | _ => Some (sg ++ ds ++ c :: fs, r3)
      end
    else whole
  | [] => whole
  end.

Fixpoint strip_prefix (w s : str) : option str :=
  match w, s with
  | [], _ => Some s
  | c :: w', d :: s' => if (d =? c)%N then strip_prefix w' s' else None
  | _ :: _, [] => None
  end.

(** The match of the pattern at the start of [s], which is at position
    [pos] of the line: where it ends and its two groups. *)
Definition match_here (s : str) (pos : nat) : option (nat * captures) :=
  match strip_prefix (py "Pred:") s with
  | None => None
  | Some r =>
    match longest_numeral r with
    | None => None
    | Some (n1, r1) =>
      match strip_prefix (py ",True:") r1 with
      | None => None
      | Some r2 =>
        match longest_numeral r2 with
        | None => None
        | Some (n2, _) =>
          let b1 := pos + 5 in
          let e1 := b1 + length n1 in
          let b2 := e1 + 6 in
          let e2 := b2 + length n2 in
          Some (e2, [(2, (b2, e2)); (1, (b1, e1))])
        end
      end
    end
  end.

(** Two kinds of continuation of the matcher: one that accepts whatever
    follows, and one that accepts nothing that starts with a digit or a
    dot. *)
Definition accepts_all {R : Type} (k : str -> nat -> captures -> option R) : Prop :=
  forall s p c, k s p c <> None.
Definition needs_other {R : Type} (k : str -> nat -> captures -> option R) : Prop :=
  forall c t p c', isdecimal c = true \/ c = chr "." -> k (c :: t) p c' = None.

(** The first character of a string is not a sign; is neither a digit nor a
    dot. *)
Definition no_sign_first (s : str) : Prop :=
  match s with c :: _ => existsb (N.eqb c) (py "-+") = false | [] => True end.
Definition other_first (s : str) : Prop :=
  match s with c :: _ => isdecimal c = false /\ c <> chr "." | [] => True end.

(** The ASCII digit [float] reads for a decimal digit. *)
Definition ascii_digit (c : codepoint) : codepoint :=
  match to_decimal c with Some d => (48 + d)%N | None => c end.

(** A character [float] neither skips nor treats specially. *)
Definition plain (c : codepoint) : bool :=
  negb (c =? chr "_")%N && negb (c_isspace c).

End Text.

(* ================================================================== *)
(** * Exceptions *)

Inductive exn :=
| SerialException (msg : str)
| ValueError
| IndexError
| OtherException (msg : str).

Inductive result (A : Type) :=
| Ret (a : A)
| Raise (e : exn).
Arguments Ret {A} a.
Arguments Raise {A} e.

Definition bind {A B : Type} (r : result A) (k : A -> result B) : result B :=
  match r with
  | Ret a => k a
  | Raise e => Raise e
  end.

Notation "x <- r ;; k" := (bind r (fun x => k))
  (at level 61, r at next level, right associativity).

Definition exn_message (e : exn) : str :=
  match e with
  | SerialException msg => msg
  | OtherException msg => msg
  | ValueError => py "could not convert string to float"
  | IndexError => py "deque index out of range"
  end.

(* ================================================================== *)
(** * [collections.deque] with a bound *)

Record deque (A : Type) := {
  items : list A;       (* oldest first *)
  maxlen : nat
}.

(** [deque(maxlen=n)] *)
Definition deque_new (A : Type) (n : nat) : deque A :=
  {| items := []; maxlen := n |}.

(** [d.append(x)]: the item is added on the right and, if the deque is then
    longer than its bound, the leftmost item is dropped. *)
Definition append {A : Type} (x : A) (d : deque A) : deque A :=
  let l := items d ++ [x] in
  {| items := if maxlen d <? length l then tl l else l;
     maxlen := maxlen d |}.

(** [len(d)] *)
Definition len {A : Type} (d : deque A) : nat := length (items d).

(** [d[-1]] *)
Definition newest {A : Type} (d : deque A) : result A :=
  match rev (items d) with
  | x :: _ => Ret x
  | [] => Raise IndexError
  end.

(** Several appends in a row, and the last [n] elements of a list. *)
Definition appends {A : Type} (xs : list A) (d : deque A) : deque A :=
  fold_left (fun d x => append x d) xs d.

Definition window {A : Type} (n : nat) (l : list A) : list A :=
  skipn (length l - n) l.

(* ================================================================== *)
(** * The module's globals and the serial port *)

Definition SERIAL_PORT : str := py "/dev/ttyACM0".
Definition MAX_POINTS : nat := 200.

Record globals := {
  data_pred : deque float;
  data_true : deque float;
  data_x : deque nat;
  running : bool;
  stdout : list str      (* what [print] wrote, latest last *)
}.

(** The globals when the module has been loaded, for a window of [n]
    points; the script itself has [n = MAX_POINTS]. *)
Definition initial (n : nat) : globals :=
  {| data_pred := deque_new float n;
     data_true := deque_new float n;
     data_x := deque_new nat n;
     running := true;
     stdout := [] |}.

Definition set_running (b : bool) (g : globals) : globals :=
  {| data_pred := data_pred g; data_true := data_true g; data_x := data_x g;
     running := b; stdout := stdout g |}.

Definition print (s : str) (g : globals) : globals :=
  {| data_pred := data_pred g; data_true := data_true g; data_x := data_x g;
     running := running g; stdout := stdout g ++ [s] |}.

(** Lines 62, 63 and 64, one statement each. *)
Definition append_pred (v : float) (g : globals) : globals :=
  {| data_pred := append v (data_pred g); data_true := data_true g;
     data_x := data_x g; running := running g; stdout := stdout g |}.

Definition append_true (v : float) (g : globals) : globals :=
  {| data_pred := data_pred g; data_true := append v (data_true g);
     data_x := data_x g; running := running g; stdout := stdout g |}.

Definition append_x (v : nat) (g : globals) : globals :=
  {| data_pred := data_pred g; data_true := data_true g;
     data_x := append v (data_x g); running := running g; stdout := stdout g |}.

(** The [serial.Serial] object bound to [ser]. *)
Record serial := { is_open : bool }.

Definition close (p : serial) : serial := {| is_open := false |}.

(** What happens outside [read_serial] while it runs. *)
Inductive event :=
| ClearRunning                 (* the main thread executes line 134 *)
| Readline (r : result str).   (* [ser.readline().decode('utf-8', errors='ignore')]
                                  gives a text or [readline] raises *)

Section Program.
Context {U : UnicodeData}.

(** Lines 51 (the [strip]) to 59: the numbers of a line, if it has them. *)
Definition parse_line (text : str) : result (option (float * float)) :=
  let line := strip text in
  match re_search pattern line with
  | Some m =>
    match py_float (group m 1) with
    | None => Raise ValueError
    | Some pred_val =>
      match py_float (group m 2) with
      | None => Raise ValueError
      | Some true_val => Ret (Some (pred_val, true_val))
      end
    end
  | None => Ret None
  end.

(** Lines 51 to 65: one turn of the loop on the text read. *)
Definition loop_body (text : str) (g : globals) (counter : nat)
    : result (globals * nat) :=
  m <- parse_line text ;;
  match m with
  | Some (pred_val, true_val) =>
    Ret (append_x counter (append_true true_val (append_pred pred_val g)),
         S counter)
  | None => Ret (g, counter)
  end.

(** How the [while] of line 50 ends, if it does. *)
Inductive loop_end :=
| Exited             (* [running] was found false *)
| Raised (e : exn)   (* an exception left the loop *)
| Pending.           (* still looping when the script of events ends *)

(** Lines 50 to 65.  The flag is read at the top of every turn; an event
    [ClearRunning] takes effect before the next test. *)
Fixpoint while_running (script : list event) (g : globals) (counter : nat)
    : loop_end * globals * nat :=
  if running g then
    match script with
    | [] => (Pending, g, counter)
    | ClearRunning :: rest => while_running rest (set_running false g) counter
    | Readline (Raise e) :: _ => (Raised e, g, counter)
    | Readline (Ret text) :: rest =>
      match loop_body text g counter with
      | Ret (g', counter') => while_running rest g' counter'
      | Raise e => (Raised e, g, counter)
      end
    end
  else (Exited, g, counter).

(** How a call of [read_serial] stands when the script of events ends. *)
Inductive status :=
| Returned            (* the function returned *)
| Uncaught (e : exn)  (* it ended by an exception the [except] does not catch *)
| Looping.            (* it is still in its loop *)

Record outcome := {
  o_status : status;
  o_globals : globals;
  o_ser : option serial    (* the local [ser], if bound *)
}.

(** Lines 67 and 68: which exceptions the [except] clause handles. *)
Definition handled (e : exn) : bool :=
  match e with SerialException _ => true | _ => false end.

Definition except_clause (e : exn) (g : globals) : status * globals :=
  if handled e then (Returned, print (py "Serial Error: " ++ exn_message e) g)
  else (Uncaught e, g).

(** Lines 69 to 72. *)
Definition finally_clause (ser : option serial) (g : globals)
    : option serial * globals :=
  (match ser with
   | Some p => if is_open p then Some (close p) else Some p
   | None => None
   end,
   set_running false g).

(** [read_serial()], lines 44 to 72.  [opened] is what [serial.Serial(...)]
    does: it returns an open port or raises. *)
Definition read_serial (opened : result unit) (script : list event) (g : globals)
    : outcome :=
  match opened with
  | Raise e =>
    let (st, g1) := except_clause e g in
    let (ser, g2) := finally_clause None g1 in
    {| o_status := st; o_globals := g2; o_ser := ser |}
  | Ret tt =>
    let ser := {| is_open := true |} in
    let g0 := print (py "Connected to " ++ SERIAL_PORT ++ py "...") g in
    match while_running script g0 0 with
    | (Pending, g1, _) =>
      {| o_status := Looping; o_globals := g1; o_ser := Some ser |}
    | (Exited, g1, _) =>
      let (ser', g2) := finally_clause (Some ser) g1 in
      {| o_status := Returned; o_globals := g2; o_ser := ser' |}
    | (Raised e, g1, _) =>
      let (st, g2) := except_clause e g1 in
      let (ser', g3) := finally_clause (Some ser) g2 in
      {| o_status := st; o_globals := g3; o_ser := ser' |}
    end
  end.

(* ------------------------------------------------------------------ *)
(** ** Words for what the loop has read *)

Definition is_text (ev : event) : bool :=
  match ev with Readline (Ret _) => true | _ => false end.

(** The texts the loop reads before the first event of another kind. *)
Fixpoint texts_read (script : list event) : list str :=
  match script with
  | Readline (Ret text) :: rest => text :: texts_read rest
  | _ => []
  end.

(** The line has the format somewhere. *)
Definition has_numbers (text : str) : bool :=
  match re_search pattern (strip text) with Some _ => true | None => false end.

(** The pairs of numbers of the texts that have them, in order. *)
Definition numbers_of (texts : list str) : list (float * float) :=
  flat_map (fun text => match parse_line text with
                        | Ret (Some pt) => [pt]
                        | _ => []
                        end) texts.

(** A sample: the predicted value, the true value and the number given to
    the pair. *)
Definition sample : Type := float * float * nat.
Definition predicted (s : sample) : float := fst (fst s).
Definition actual (s : sample) : float := snd (fst s).
Definition sequence (s : sample) : nat := snd s.

(** Pairs of numbers with the numbers 0, 1, 2, ... given to them. *)
Definition number_samples (ns : list (float * float)) : list sample :=
  combine ns (seq 0 (length ns)).

(** The three deques when they hold the last [n] of the samples [ns],
    whole. *)
Definition whole (n : nat) (ns : list (float * float))
    : list float * list float * list nat :=
  let retained := window n (number_samples ns) in
  (map predicted retained, map actual retained, map sequence retained).

(* ------------------------------------------------------------------ *)
(** ** The plot and [update] *)

(** The module's deque objects that [update] hands to the plot. *)
Inductive objref := DataPred | DataTrue.

(** An argument of [Line2D.set_data]. *)
Inductive plotdata :=
| EmptyList              (* the [[]] of lines 79 and 80 *)
| RangeTo (n : nat)      (* [range(n)] *)
| TheDeque (r : objref). (* the deque object itself, not a copy of it *)

Record line2d := { xdata : plotdata; ydata : plotdata }.

Record figure := {
  line_pred : line2d;
  line_true : line2d;
  xlim : nat * nat;
  error_text : str
}.

(** Lines 75 to 91, as far as [update] changes them later. *)
Definition initial_figure : figure :=
  {| line_pred := {| xdata := EmptyList; ydata := EmptyList |};
     line_true := {| xdata := EmptyList; ydata := EmptyList |};
     xlim := (0, 1);
     error_text := [] |}.

(** [update(frame)], lines 108 to 120.  It reads the globals and changes
    the plot only. *)
Definition update (g : globals) (fig : figure) : result figure :=
  if 0 <? len (data_x g) then
    let lp := {| xdata := RangeTo (len (data_x g)); ydata := TheDeque DataPred |} in
    let lt := {| xdata := RangeTo (len (data_x g)); ydata := TheDeque DataTrue |} in
    let xl := (0, len (data_x g)) in
    p <- newest (data_pred g) ;;
    t <- newest (data_true g) ;;
    let current_error := float_abs (float_sub p t) in
    Ret {| line_pred := lp; line_true := lt; xlim := xl;
           error_text := py "Current Error: " ++ format_f 4 current_error |}
  else Ret fig.

(** What the three deques hold in state [g]. *)
Definition snapshot (g : globals) : list float * list float * list nat :=
  (items (data_pred g), items (data_true g), items (data_x g)).

(* ------------------------------------------------------------------ *)
(** ** The two threads, one statement at a time

    [read_serial] runs in its own thread while the main thread runs the
    plot's event loop, which calls [update] at every tick; nothing but the
    interpreter's own lock orders the two, so a thread switch can fall
    between any two statements.  Each step of the reader below is one
    statement (or several that touch local variables only).  In the step
    relation a call of [update] is one step: it changes the figure only, so
    what the reader and the globals can reach does not depend on that.
    What a call reads when the reader runs inside it is modelled after the
    relation, read by read ([update_reading], [update_call]). *)

(** Where [read_serial] stands. *)
Inductive ppc :=
| AtOpen                                   (* line 46 *)
| AtTest                                   (* line 50 *)
| AtRead                                   (* lines 51 to 59 *)
| AtAppendPred (pred_val true_val : float) (* line 62 *)
| AtAppendTrue (true_val : float)          (* line 63 *)
| AtAppendX                                (* line 64 *)
| AtIncrement                              (* line 65 *)
| AtExcept (e : exn)                       (* lines 67 and 68 *)
| AtFinally (st : status)                  (* lines 69 to 72 *)
| Finished (st : status).

Record thread := {
  pc : ppc;
  ser : option serial;   (* the local [ser], if bound *)
  counter : nat          (* the local [counter]; 0 until line 49 binds it *)
}.

(** Where the main thread stands, from line 131 on. *)
Inductive mpc :=
| Showing    (* line 131: the event loop runs and calls [update] *)
| AtStop     (* line 134 *)
| AtJoin     (* line 135 *)
| Exit.

Record sys := {
  sys_globals : globals;
  sys_figure : figure;
  reader : thread;
  main : mpc;
  sys_opened : result unit;       (* what [serial.Serial(...)] will do *)
  input : list (result str)       (* what the next calls of [readline] give *)
}.

(** The program once the thread has been started (line 127). *)
Definition start (n : nat) (opened : result unit) (lines : list (result str)) : sys :=
  {| sys_globals := initial n;
     sys_figure := initial_figure;
     reader := {| pc := AtOpen; ser := None; counter := 0 |};
     main := Showing;
     sys_opened := opened;
     input := lines |}.

Definition at_pc (t : thread) (p : ppc) : thread :=
  {| pc := p; ser := ser t; counter := counter t |}.

(** One statement of [read_serial]; [None] when the thread cannot move: it
    has finished, or it waits in [readline]. *)
Definition reader_step (opened : result unit) (g : globals) (t : thread)
    (inp : list (result str)) : option (globals * thread * list (result str)) :=
  match pc t with
  | AtOpen =>
    match opened with
    | Ret _ =>
      Some (print (py "Connected to " ++ SERIAL_PORT ++ py "...") g,
            {| pc := AtTest; ser := Some {| is_open := true |}; counter := 0 |},
            inp)
    | Raise e => Some (g, at_pc t (AtExcept e), inp)
    end
  | AtTest =>
    Some (g, at_pc t (if running g then AtRead else AtFinally Returned), inp)
  | AtRead =>
    match inp with
    | [] => None
    | Raise e :: rest => Some (g, at_pc t (AtExcept e), rest)
    | Ret text :: rest =>
      match parse_line text with
      | Raise e => Some (g, at_pc t (AtExcept e), rest)
      | Ret None => Some (g, at_pc t AtTest, rest)
      | Ret (Some (pred_val, true_val)) =>
        Some (g, at_pc t (AtAppendPred pred_val true_val), rest)
      end
    end
  | AtAppendPred pred_val true_val =>
    Some (append_pred pred_val g, at_pc t (AtAppendTrue true_val), inp)
  | AtAppendTrue true_val =>
    Some (append_true true_val g, at_pc t AtAppendX, inp)
  | AtAppendX =>
    Some (append_x (counter t) g, at_pc t AtIncrement, inp)
  | AtIncrement =>
    Some (g, {| pc := AtTest; ser := ser t; counter := S (counter t) |}, inp)
  | AtExcept e =>
    let (st, g') := except_clause e g in
    Some (g', at_pc t (AtFinally st), inp)
  | AtFinally st =>
    let (ser', g') := finally_clause (ser t) g in
    Some (g', {| pc := Finished st; ser := ser'; counter := counter t |}, inp)
  | Finished _ => None
  end.

Definition finished (t : thread) : bool :=
  match pc t with Finished _ => true | _ => false end.

Definition with_reader (s : sys) (g : globals) (t : thread)
    (inp : list (result str)) : sys :=
  {| sys_globals := g; sys_figure := sys_figure s; reader := t;
     main := main s; sys_opened := sys_opened s; input := inp |}.

Definition with_main (s : sys) (g : globals) (fig : figure) (m : mpc) : sys :=
  {| sys_globals := g; sys_figure := fig; reader := reader s;
     main := m; sys_opened := sys_opened s; input := input s |}.

(** One step of the program: a statement of the reader thread, or of the
    main thread.  [thread.join()] returns only when the thread has
    finished. *)
Inductive step : sys -> sys -> Prop :=
| step_reader s g t inp :
    reader_step (sys_opened s) (sys_globals s) (reader s) (input s) = Some (g, t, inp) ->
    step s (with_reader s g t inp)
| step_tick s fig :
    main s = Showing ->
    update (sys_globals s) (sys_figure s) = Ret fig ->
    step s (with_main s (sys_globals s) fig Showing)
| step_window_closed s :
    main s = Showing ->
    step s (with_main s (sys_globals s) (sys_figure s) AtStop)
| step_stop s :
    main s = AtStop ->
    step s (with_main s (set_running false (sys_globals s)) (sys_figure s) AtJoin)
| step_join s :
    main s = AtJoin ->
    finished (reader s) = true ->
    step s (with_main s (sys_globals s) (sys_figure s) Exit).

(** The states the program can reach from [s]. *)
Inductive reachable (s : sys) : sys -> Prop :=
| reach_refl : reachable s s
| reach_step s1 s2 : reachable s s1 -> step s1 s2 -> reachable s s2.

(** A schedule: which thread moves next, and how.  [run] follows a
    schedule as far as the program can. *)
Inductive move :=
| Reader        (* the next statement of [read_serial] *)
| Tick          (* the event loop calls [update] *)
| CloseWindow   (* the user closes the window: line 131 returns *)
| Stop          (* line 134 *)
| Join.         (* line 135 returns *)

Definition do_move (mv : move) (s : sys) : option sys :=
  match mv, main s with
  | Reader, _ =>
    match reader_step (sys_opened s) (sys_globals s) (reader s) (input s) with
    | Some (g, t, inp) => Some (with_reader s g t inp)
    | None => None
    end
  | Tick, Showing =>
    match update (sys_globals s) (sys_figure s) with
    | Ret fig => Some (with_main s (sys_globals s) fig Showing)
    | Raise _ => None
    end
  | CloseWindow, Showing =>
    Some (with_main s (sys_globals s) (sys_figure s) AtStop)
  | Stop, AtStop =>
    Some (with_main s (set_running false (sys_globals s)) (sys_figure s) AtJoin)
  | Join, AtJoin =>
    if finished (reader s)
    then Some (with_main s (sys_globals s) (sys_figure s) Exit)
    else None
  | _, _ => None
  end.

Fixpoint run (schedule : list move) (s : sys) : option sys :=
  match schedule with
  | [] => Some s
  | mv :: rest =>
    match do_move mv s with
    | Some s' => run rest s'
    | None => None
    end
  end.

(** A script of events of [read_serial] seen as a run of the two threads:
    the lines the port will give, and a schedule in which the reader runs
    alone until the main thread, at a [ClearRunning], stops it. *)
Fixpoint lines_of (script : list event) : list (result str) :=
  match script with
  | [] => []
  | ClearRunning :: rest => lines_of rest
  | Readline r :: rest => r :: lines_of rest
  end.

Fixpoint schedule_of (script : list event) : list move :=
  match script with
  | [] => [Reader]
  | ClearRunning :: _ => [CloseWindow; Stop; Reader; Reader]
  | Readline (Raise _) :: _ => repeat Reader 4
  | Readline (Ret text) :: rest =>
    repeat Reader (if has_numbers text then 6 else 2) ++ schedule_of rest
  end.

(** The two threads with the reader at the test of its loop, the port open
    and the window still shown. *)
Definition at_test (g : globals) (fig : figure) (c : nat) (opened : result unit)
    (inp : list (result str)) : sys :=
  {| sys_globals := g; sys_figure := fig;
     reader := {| pc := AtTest; ser := Some {| is_open := true |}; counter := c |};
     main := Showing; sys_opened := opened; input := inp |}.

(** The state [s] of the two threads shows what the loop of [read_serial],
    and the clauses after it, have done. *)
Definition agrees (s : sys) (ended : loop_end * globals * nat) : Prop :=
  let port := Some {| is_open := true |} in
  match ended with
  | (Pending, g, c) =>
    pc (reader s) = AtRead /\ sys_globals s = g /\
    ser (reader s) = port /\ counter (reader s) = c
  | (Exited, g, _) =>
    pc (reader s) = Finished Returned /\
    sys_globals s = snd (finally_clause port g) /\
    ser (reader s) = fst (finally_clause port g)
  | (Raised e, g, _) =>
    pc (reader s) = Finished (fst (except_clause e g)) /\
    sys_globals s = snd (finally_clause port (snd (except_clause e g))) /\
    ser (reader s) = fst (finally_clause port (snd (except_clause e g)))
  end.

(** What is true of every state the program reaches from [start n opened
    lines]: the reader has read a part [map Ret texts ++ tail] of [lines],
    where [tail] is empty or the exception that ended the loop, and the
    deques hold what the texts read gave, up to the statement the reader is
    at. *)
Definition ending (p : ppc) : bool :=
  match p with AtExcept _ | AtFinally _ | Finished _ => true | _ => false end.

Definition deques_hold (n : nat) (g : globals) (ps ts : list float) (xs : list nat)
    : Prop :=
  data_pred g = appends ps (deque_new float n) /\
  data_true g = appends ts (deque_new float n) /\
  data_x g = appends xs (deque_new nat n).

Definition consistent (n : nat) (lines : list (result str)) (s : sys) : Prop :=
  exists texts tail,
    lines = map Ret texts ++ tail ++ input s /\
    (tail = [] \/ (ending (pc (reader s)) = true /\ exists e, tail = [Raise e])) /\
    (main s = Exit -> finished (reader s) = true) /\
    let g := sys_globals s in
    let ns := numbers_of texts in
    match pc (reader s) with
    | AtOpen =>
      texts = [] /\ counter (reader s) = 0 /\ deques_hold n g [] [] []
    | AtAppendPred p t =>
      exists done, ns = done ++ [(p, t)] /\ counter (reader s) = length done /\
        deques_hold n g (map fst done) (map snd done) (seq 0 (length done))
    | AtAppendTrue t =>
      exists done p, ns = done ++ [(p, t)] /\ counter (reader s) = length done /\
        deques_hold n g (map fst ns) (map snd done) (seq 0 (length done))
    | AtAppendX =>
      exists done pt, ns = done ++ [pt] /\ counter (reader s) = length done /\
        deques_hold n g (map fst ns) (map snd ns) (seq 0 (length done))
    | AtIncrement =>
      exists done pt, ns = done ++ [pt] /\ counter (reader s) = length done /\
        deques_hold n g (map fst ns) (map snd ns) (seq 0 (length ns))
    | _ =>
      counter (reader s) = length ns /\
      deques_hold n g (map fst ns) (map snd ns) (seq 0 (length ns))
    end.

(* ------------------------------------------------------------------ *)
(** ** A call of [update], read by read

    [update] reads the globals in six places: the length of [data_x] at
    lines 108, 110, 111 and 114 (lines 110 and 111 also pass [data_pred]
    and [data_true] to the plot), and [data_pred[-1]], then
    [data_true[-1]], at line 117.  No lock keeps the reader from running
    between two of them, so every read has its own state of the globals.
    [update] above is the call whose six reads find the same state. *)

Record reads := {
  at_108 : globals;
  at_110 : globals;
  at_111 : globals;
  at_114 : globals;
  at_117_pred : globals;
  at_117_true : globals
}.

Definition undisturbed (g : globals) : reads :=
  {| at_108 := g; at_110 := g; at_111 := g; at_114 := g;
     at_117_pred := g; at_117_true := g |}.

Definition update_reading (v : reads) (fig : figure) : result figure :=
  if 0 <? len (data_x (at_108 v)) then
    let lp := {| xdata := RangeTo (len (data_x (at_110 v)));
                 ydata := TheDeque DataPred |} in
    let lt := {| xdata := RangeTo (len (data_x (at_111 v)));
                 ydata := TheDeque DataTrue |} in
    let xl := (0, len (data_x (at_114 v))) in
    p <- newest (data_pred (at_117_pred v)) ;;
    t <- newest (data_true (at_117_true v)) ;;
    let current_error := float_abs (float_sub p t) in
    Ret {| line_pred := lp; line_true := lt; xlim := xl;
           error_text := py "Current Error: " ++ format_f 4 current_error |}
  else Ret fig.




(** A call of [update] made in state [s], during which the reader executes
    [k1] statements between the read of line 108 and that of line 110,
    [k2] between lines 110 and 111, [k3] between lines 111 and 114, [k4]
    between line 114 and [data_pred[-1]], and [k5] between the two reads of
    line 117: what the call reads, and the state after its last read. *)
Definition update_call (k1 k2 k3 k4 k5 : nat) (s : sys) : option (reads * sys) :=
  match run (repeat Reader k1) s with
  | None => None
  | Some s1 =>
    match run (repeat Reader k2) s1 with
    | None => None
    | Some s2 =>
      match run (repeat Reader k3) s2 with
      | None => None
      | Some s3 =>
        match run (repeat Reader k4) s3 with
        | None => None
        | Some s4 =>
          match run (repeat Reader k5) s4 with
          | None => None
          | Some s5 =>
            Some ({| at_108 := sys_globals s; at_110 := sys_globals s1;
                     at_111 := sys_globals s2; at_114 := sys_globals s3;
                     at_117_pred := sys_globals s4;
                     at_117_true := sys_globals s5 |}, s5)
          end
        end
      end
    end
  end.

(** No deque of [g'] is shorter than it is in [g]. *)
Definition grown (g g' : globals) : Prop :=
  len (data_pred g) <= len (data_pred g') /\
  len (data_true g) <= len (data_true g') /\
  len (data_x g) <= len (data_x g').


End Program.

(* ================================================================== *)
(** * How the loop ends, and where the port is open *)




(** The reader is inside its loop, lines 50 to 65. *)
Definition in_loop (p : ppc) : bool :=
  match p with
  | AtTest | AtRead | AtAppendPred _ _ | AtAppendTrue _ | AtAppendX | AtIncrement => true
  | _ => false
  end.

(** [ser] is bound to a port that is open. *)
Definition port_open (ser : option serial) : bool :=
  match ser with Some p => is_open p | None => false end.

(** The port in every state of the two threads. *)
Definition port_as_expected (s : sys) : Prop :=
  (pc (reader s) = AtOpen -> ser (reader s) = None) /\
  (in_loop (pc (reader s)) = true -> ser (reader s) = Some {| is_open := true |}) /\
  (finished (reader s) = true ->
   port_open (ser (reader s)) = false /\ running (sys_globals s) = false).

Unset Implicit Arguments.

(* ================================================================== *)
(** * The bounded deque keeps the newest items *)

Section Deque.
Variable A : Type.
Implicit Types (d : deque A) (l xs : list A) (x : A).

Lemma skipn_S_tl : forall k l, skipn (S k) l = tl (skipn k l).
Proof.
  induction k as [|k IH]; intros [|a l]; simpl; auto.
  apply (IH l).
Qed.

Lemma window_length : forall n l, length (window n l) = Nat.min n (length l).
Proof.
  intros n l. unfold window. rewrite length_skipn. lia.
Qed.

Lemma window_short : forall n l, length l <= n -> window n l = l.
Proof.
  intros n l H. unfold window.
  replace (length l - n) with 0 by lia. reflexivity.
Qed.

(** The window after one more element is the old window with the element
    added and, if that is too long, without its first element: what
    [append] does. *)
Lemma window_snoc : forall n l x,
  window n (l ++ [x]) =
  if n <? length (window n l ++ [x]) then tl (window n l ++ [x])
  else window n l ++ [x].
Proof.
  intros n l x.
  rewrite length_app, window_length. simpl length.
  unfold window. rewrite length_app. simpl length.
  destruct (Nat.ltb_spec n (Nat.min n (length l) + 1)) as [Hlt|Hge].
  - replace (length l + 1 - n) with (S (length l - n)) by lia.
    rewrite skipn_S_tl, skipn_app.
    replace (length l - n - length l) with 0 by lia. reflexivity.
  - replace (length l + 1 - n) with 0 by lia.
    replace (length l - n) with 0 by lia. reflexivity.
Qed.

Lemma appends_snoc : forall xs x d, appends (xs ++ [x]) d = append x (appends xs d).
Proof.
  intros. unfold appends. rewrite fold_left_app. reflexivity.
Qed.

Lemma maxlen_append : forall x d, maxlen (append x d) = maxlen d.
Proof. reflexivity. Qed.

Lemma maxlen_appends : forall xs d, maxlen (appends xs d) = maxlen d.
Proof.
  induction xs as [|x xs IH]; intros d; [reflexivity|].
  change (appends (x :: xs) d) with (appends xs (append x d)).
  rewrite IH. reflexivity.
Qed.

Lemma items_appends_new : forall n xs,
  items (appends xs (deque_new A n)) = window n xs.
Proof.
  intros n xs. induction xs as [|x xs IH] using rev_ind.
  - reflexivity.
  - rewrite appends_snoc, window_snoc. unfold append at 1.
    cbn [items]. rewrite maxlen_appends, IH. reflexivity.
Qed.

Lemma len_appends_new : forall n xs, len (appends xs (deque_new A n)) <= n.
Proof.
  intros n xs. unfold len. rewrite items_appends_new, window_length. lia.
Qed.

Lemma append_full : forall d x oldest rest,
  items d = oldest :: rest -> len d = maxlen d ->
  items (append x d) = rest ++ [x].
Proof.
  intros d x oldest rest Hi Hl. unfold append, len in *. cbn [items].
  rewrite Hi in *. rewrite length_app. simpl length in *.
  match goal with |- context [?a <? ?b] => destruct (Nat.ltb_spec a b) end;
    [reflexivity | lia].
Qed.

Lemma append_room : forall d x,
  len d < maxlen d -> items (append x d) = items d ++ [x].
Proof.
  intros d x H. unfold append, len in *. cbn [items].
  rewrite length_app. simpl length.
  destruct (Nat.ltb_spec (maxlen d) (length (items d) + 1)); [lia | reflexivity].
Qed.

End Deque.

Lemma window_seq : forall n m, window n (seq 0 m) = seq (m - n) (Nat.min n m).
Proof.
  intros n m. unfold window. rewrite length_seq, skipn_seq.
  f_equal. lia.
Qed.

(** C1. A deque created with bound [n] never holds more than [n] items,
    whatever is appended to it; it holds the last [n] items appended, in
    the order of their appends; an append to a full deque drops the oldest
    item, the one at the left end; after [n + k] appends of the sequence
    numbers 0, 1, 2, ... it holds [k], ..., [n + k - 1] in ascending order;
    and with bound 3 the appends of 0, 1, 2, 3 leave exactly 1, 2, 3. *)
Theorem deque_keeps_the_newest : forall (A : Type) (n : nat),
  (forall xs : list A, len (appends xs (deque_new A n)) <= n) /\
  (forall xs : list A, items (appends xs (deque_new A n)) = window n xs) /\
  (forall (d : deque A) (x oldest : A) (rest : list A),
      items d = oldest :: rest -> len d = maxlen d ->
      items (append x d) = rest ++ [x]) /\
  (forall k, items (appends (seq 0 (n + k)) (deque_new nat n)) = seq k n) /\
  items (appends [0; 1; 2; 3] (deque_new nat 3)) = [1; 2; 3].
Proof.
  intros A n. split; [|split; [|split; [|split]]].
  - apply len_appends_new.
  - apply items_appends_new.
  - apply append_full.
  - intros k. rewrite items_appends_new, window_seq. f_equal; lia.
  - reflexivity.
Qed.

Lemma deque_keeps_the_newest_witness :
  items (append 3 {| items := [0; 1; 2]; maxlen := 3 |}) = [1; 2] ++ [3].
Proof.
  apply (proj1 (proj2 (proj2 (deque_keeps_the_newest nat 3)))
           {| items := [0; 1; 2]; maxlen := 3 |} 3 0 [1; 2]); reflexivity.
Defined.

(* ================================================================== *)
(** * The matcher on the pattern *)

Section Matching.
Context {U : UnicodeData}.


Lemma span_app : forall f s w s', span f s = (w, s') -> s = w ++ s'.
Proof.
  intros f s. induction s as [|c s IH]; intros w s' H; simpl in H.
  - inversion H. reflexivity.
  - destruct (f c).
    + destruct (span f s) as [a b]. inversion H; subst. simpl. f_equal. auto.
    + inversion H. reflexivity.
Qed.

Lemma span_all : forall f s w s', span f s = (w, s') -> forallb f w = true.
Proof.
  intros f s. induction s as [|c s IH]; intros w s' H; simpl in H.
  - inversion H. reflexivity.
  - destruct (f c) eqn:E.
    + destruct (span f s) as [a b]. inversion H; subst. simpl. rewrite E. eauto.
    + inversion H. reflexivity.
Qed.

(** The span of a string that starts with [a], all of whose characters
    satisfy [f]. *)
Lemma span_prefix : forall f a b,
  forallb f a = true ->
  span f (a ++ b) = (a ++ fst (span f b), snd (span f b)).
Proof.
  intros f a b. induction a as [|c a IH]; simpl; intros H.
  - destruct (span f b); reflexivity.
  - apply andb_prop in H. destruct H as [Hc Ha]. rewrite Hc, (IH Ha). reflexivity.
Qed.

Lemma span_stop : forall f c t, f c = false -> span f (c :: t) = ([], c :: t).
Proof. intros f c t H. simpl. rewrite H. reflexivity. Qed.

(** Greedy repetition without upper bound: if the continuation accepts what
    follows the longest run, or can accept nothing that starts with a
    character of the class, the run is taken whole. *)
Lemma rep_greedy : forall (R : Type) cs (k : str -> nat -> option R) s lo pos w s',
  span (in_charset cs) s = (w, s') ->
  (k s' (pos + length w) <> None \/
   forall c t p, in_charset cs c = true -> k (c :: t) p = None) ->
  rep cs lo None s pos k = if lo <=? length w then k s' (pos + length w) else None.
Proof.
  intros R cs k s. induction s as [|c s IH]; intros lo pos w s' Hsp Hk.
  - inversion Hsp; subst. simpl. rewrite Nat.add_0_r. destruct lo; reflexivity.
  - simpl in Hsp. cbn [rep hi_pred]. destruct (in_charset cs c) eqn:Ec.
    + destruct (span (in_charset cs) s) as [w1 s1] eqn:Es. inversion Hsp; subst.
      simpl length in *. rewrite Nat.add_succ_r in *.
      rewrite (IH (pred lo) (S pos) w1 s' eq_refl Hk).
      change (S pos + length w1) with (S (pos + length w1)).
      destruct lo as [|lo]; simpl pred.
      * simpl. destruct (k s' (S (pos + length w1))) eqn:Ek; [reflexivity|].
        destruct Hk as [Hk|Hk]; [congruence|]. apply Hk; assumption.
      * change (S lo <=? S (length w1)) with (lo <=? length w1).
        destruct (lo <=? length w1); [|reflexivity].
        destruct (k s' (S (pos + length w1))); reflexivity.
    + inversion Hsp; subst. simpl. rewrite Nat.add_0_r. destruct lo; reflexivity.
Qed.

Lemma rmatch_lit : forall (R : Type) (w : str) s pos caps (k : str -> nat -> captures -> option R),
  rmatch (fold_right (fun c r => Cat (Chr (CLit c)) r) Eps w) s pos caps k =
  match strip_prefix w s with
  | Some r => k r (pos + length w) caps
  | None => None
  end.
Proof.
  intros R w. induction w as [|c w IH]; intros s pos caps k.
  - simpl. rewrite Nat.add_0_r. reflexivity.
  - destruct s as [|d s]; [reflexivity|].
    cbn [fold_right rmatch in_charset strip_prefix].
    destruct (d =? c)%N; [|reflexivity].
    rewrite IH. simpl length. rewrite Nat.add_succ_r. reflexivity.
Qed.



Lemma digit_not_dot : forall c, isdecimal c = true -> (c =? chr ".")%N = false.
Proof.
  intros c H. destruct (N.eqb_spec c (chr ".")) as [->|]; [discriminate H | reflexivity].
Qed.

Lemma sign_cases : forall c,
  existsb (N.eqb c) (py "-+") = true -> c = chr "-" \/ c = chr "+".
Proof.
  intros c H.
  change (existsb (N.eqb c) (py "-+"))
    with ((c =? chr "-")%N || ((c =? chr "+")%N || false)) in H.
  destruct (N.eqb_spec c (chr "-")); [left; assumption|].
  destruct (N.eqb_spec c (chr "+")); [right; assumption|discriminate H].
Qed.

Lemma sign_not_digit : forall c, existsb (N.eqb c) (py "-+") = true -> isdecimal c = false.
Proof.
  intros c H. apply sign_cases in H. destruct H as [->| ->]; reflexivity.
Qed.

Lemma sign_not_dot : forall c, existsb (N.eqb c) (py "-+") = true -> (c =? chr ".")%N = false.
Proof.
  intros c H. apply sign_cases in H. destruct H as [->| ->]; reflexivity.
Qed.

Lemma rep_at_most_0 : forall (R : Type) cs s pos (k : str -> nat -> option R),
  rep cs 0 (Some 0) s pos k = k s pos.
Proof. intros R cs s pos k. destruct s; reflexivity. Qed.

Lemma rmatch_sign_opt : forall (R : Type) s pos caps (k : str -> nat -> captures -> option R),
  rmatch sign_opt s pos caps k =
  match s with
  | c :: s' =>
    if existsb (N.eqb c) (py "-+") then
      match k s' (S pos) caps with
      | Some r => Some r
      | None => k s pos caps
      end
    else k s pos caps
  | [] => k [] pos caps
  end.
Proof.
  intros R s pos caps k. destruct s as [|c s]; [reflexivity|].
  unfold sign_opt. cbn [rmatch rep hi_pred pred in_charset].
  rewrite rep_at_most_0.
  destruct (existsb (N.eqb c) (py "-+")); reflexivity.
Qed.

Lemma rmatch_integer : forall (R : Type) r p caps (k : str -> nat -> captures -> option R) ds r1,
  accepts_all k \/ needs_other k ->
  span isdecimal r = (ds, r1) ->
  rmatch integer r p caps k =
  match ds with [] => None | _ => k r1 (p + length ds) caps end.
Proof.
  intros R r p caps k ds r1 Hk Hsp. unfold integer. cbn [rmatch].
  rewrite (rep_greedy _ CDigit (fun s1 p1 => k s1 p1 caps) r 1 p ds r1 Hsp).
  - destruct ds; reflexivity.
  - destruct Hk as [Hk|Hk]; [left; apply Hk | right].
    intros c t q Hc. apply Hk. left. exact Hc.
Qed.

Lemma rmatch_fraction : forall (R : Type) r p caps (k : str -> nat -> captures -> option R) ds r1,
  accepts_all k \/ needs_other k ->
  span isdecimal r = (ds, r1) ->
  rmatch fraction r p caps k =
  match r1 with
  | c :: r2 =>
    if (c =? chr ".")%N then
      match fst (span isdecimal r2) with
      | [] => None
      | fs => k (snd (span isdecimal r2)) (p + length ds + 1 + length fs) caps
      end
    else None
  | [] => None
  end.
Proof.
  intros R r p caps k ds r1 Hk Hsp. unfold fraction. cbn [rmatch].
  rewrite (rep_greedy _ CDigit _ r 0 p ds r1 Hsp).
  - cbn [Nat.leb]. destruct r1 as [|c r2]; [reflexivity|].
    cbn [in_charset]. destruct (c =? chr ".")%N; [|reflexivity].
    destruct (span isdecimal r2) as [fs r3] eqn:Es. cbn [fst snd].
    rewrite (rep_greedy _ CDigit (fun s1 p1 => k s1 p1 caps) r2 1 (S (p + length ds)) fs r3 Es).
    + destruct fs; [reflexivity|]. cbn [Nat.leb].
      replace (S (p + length ds) + length (c0 :: fs)) with (p + length ds + 1 + length (c0 :: fs)) by lia.
      reflexivity.
    + destruct Hk as [Hk|Hk]; [left; apply Hk | right].
      intros c' t q Hc. apply Hk. left. exact Hc.
  - right. intros c t q Hc. cbn [in_charset]. rewrite (digit_not_dot _ Hc). reflexivity.
Qed.

(** After an optional sign: the sign is taken if there is one, since neither
    digits nor a dot can start with a sign. *)
Lemma rmatch_signed : forall (R : Type) body s pos caps (k : str -> nat -> captures -> option R),
  (forall c t p, existsb (N.eqb c) (py "-+") = true -> rmatch body (c :: t) p caps k = None) ->
  rmatch (Cat sign_opt body) s pos caps k =
  rmatch body (snd (scan_sign s)) (pos + length (fst (scan_sign s))) caps k.
Proof.
  intros R body s pos caps k Hb. cbn [rmatch]. rewrite rmatch_sign_opt. cbv beta.
  destruct s as [|c s]; unfold scan_sign.
  - simpl. rewrite Nat.add_0_r. reflexivity.
  - destruct (existsb (N.eqb c) (py "-+")) eqn:Ec; cbn [fst snd length].
    + rewrite Nat.add_1_r.
      destruct (rmatch body s (S pos) caps k); [reflexivity|].
      apply Hb. exact Ec.
    + rewrite Nat.add_0_r. reflexivity.
Qed.

Lemma fraction_no_sign : forall (R : Type) caps (k : str -> nat -> captures -> option R) c t p,
  existsb (N.eqb c) (py "-+") = true -> rmatch fraction (c :: t) p caps k = None.
Proof.
  intros R caps k c t p Hc. unfold fraction. cbn [rmatch].
  rewrite (rep_greedy _ CDigit _ (c :: t) 0 p [] (c :: t)).
  - cbn [Nat.leb length in_charset]. rewrite (sign_not_dot _ Hc). reflexivity.
  - apply span_stop. apply sign_not_digit. exact Hc.
  - right. intros d t' q Hd. cbn [in_charset]. rewrite (digit_not_dot _ Hd). reflexivity.
Qed.

Lemma integer_no_sign : forall (R : Type) caps (k : str -> nat -> captures -> option R) c t p,
  existsb (N.eqb c) (py "-+") = true -> rmatch integer (c :: t) p caps k = None.
Proof.
  intros R caps k c t p Hc. unfold integer. cbn [rmatch].
  assert (Hs : span (in_charset CDigit) (c :: t) = ([], c :: t)).
  { apply span_stop. apply sign_not_digit. exact Hc. }
  cbn [rep hi_pred]. cbn [in_charset]. rewrite (sign_not_digit _ Hc). reflexivity.
Qed.

Lemma rmatch_alt : forall (R : Type) r1 r2 s pos caps (k : str -> nat -> captures -> option R),
  rmatch (Alt r1 r2) s pos caps k =
  match rmatch r1 s pos caps k with
  | Some x => Some x
  | None => rmatch r2 s pos caps k
  end.
Proof. reflexivity. Qed.

Lemma number_unfold : number = Alt (Cat sign_opt fraction) (Cat sign_opt integer).
Proof. reflexivity. Qed.

(** The matcher on [number] finds the longest numeral, when what follows
    the number in the pattern accepts anything or cannot start with a digit
    or a dot. *)
Lemma rmatch_number : forall (R : Type) s pos caps (k : str -> nat -> captures -> option R),
  accepts_all k \/ needs_other k ->
  rmatch number s pos caps k =
  match longest_numeral s with
  | Some (w, rest) => k rest (pos + length w) caps
  | None => None
  end.
Proof.
  intros R s pos caps k Hk. rewrite number_unfold, rmatch_alt.
  rewrite !rmatch_signed by (intros; first [apply fraction_no_sign | apply integer_no_sign]; assumption).
  unfold longest_numeral.
  destruct (scan_sign s) as [sg r] eqn:Esg. cbn [fst snd].
  destruct (span isdecimal r) as [ds r1] eqn:Eds.
  rewrite (rmatch_fraction _ r (pos + length sg) caps k ds r1 Hk Eds).
  rewrite (rmatch_integer _ r (pos + length sg) caps k ds r1 Hk Eds).
  assert (Hwhole : match ds with [] => None | _ :: _ => k r1 (pos + length sg + length ds) caps end =
                   match match ds with [] => None | _ :: _ => Some (sg ++ ds, r1) end with
                   | Some (w, rest) => k rest (pos + length w) caps | None => None end).
  { destruct ds; [reflexivity|]. rewrite length_app, Nat.add_assoc. reflexivity. }
  destruct r1 as [|c r2]; [exact Hwhole|].
  destruct (c =? chr ".")%N eqn:Ec; [|exact Hwhole].
  destruct (span isdecimal r2) as [fs r3] eqn:Efs. cbn [fst snd].
  destruct fs as [|f fs]; [exact Hwhole|].
  rewrite !length_app. cbn [length].
  replace (pos + length sg + length ds + 1 + S (length fs))
    with (pos + (length sg + (length ds + S (S (length fs))))) by lia.
  destruct (k r3 _ caps) eqn:Ek; [reflexivity|].
  destruct Hk as [Hk|Hk]; [exfalso; exact (Hk _ _ _ Ek)|].
  destruct ds; [reflexivity|]. apply Hk. right. apply N.eqb_eq. exact Ec.
Qed.



Lemma rmatch_cat : forall (R : Type) r1 r2 s pos caps (k : str -> nat -> captures -> option R),
  rmatch (Cat r1 r2) s pos caps k =
  rmatch r1 s pos caps (fun s1 p1 c1 => rmatch r2 s1 p1 c1 k).
Proof. reflexivity. Qed.

Lemma rmatch_group : forall (R : Type) n r s pos caps (k : str -> nat -> captures -> option R),
  rmatch (Group n r) s pos caps k =
  rmatch r s pos caps (fun s1 p1 c1 => k s1 p1 ((n, (pos, p1)) :: c1)).
Proof. reflexivity. Qed.

Lemma comma_needs_other : forall (R : Type) (k : str -> nat -> captures -> option R) f,
  needs_other (fun s1 p1 c1 =>
    match strip_prefix (py ",True:") s1 with
    | Some r => k r (p1 + 6) (f p1 c1)
    | None => None
    end).
Proof.
  intros R k f c t p c' Hc. cbn [py list_ascii_of_string map strip_prefix].
  destruct (N.eqb_spec c (chr ",")) as [->|]; [|reflexivity].
  destruct Hc as [Hc|Hc]; discriminate Hc.
Qed.

(** The matcher on the pattern computes [match_here]. *)
Lemma rmatch_pattern : forall s pos,
  rmatch pattern s pos [] (fun _ e c => Some (e, c)) = match_here s pos.
Proof.
  intros s pos. unfold pattern, match_here, lit.
  rewrite rmatch_cat, rmatch_lit.
  destruct (strip_prefix (py "Pred:") s) as [r|]; [|reflexivity].
  change (length (py "Pred:")) with 5.
  rewrite rmatch_cat, rmatch_group.
  rewrite rmatch_number.
  2:{ right. intros c t p c' Hc. rewrite rmatch_cat, rmatch_lit.
      apply (@comma_needs_other _ (fun r p1 c1 => rmatch (Group 2 number) r p1 c1 (fun _ e c0 => Some (e, c0)))
               (fun p1 c1 => (1, (pos + 5, p1)) :: c1) c t p c' Hc). }
  destruct (longest_numeral r) as [[n1 r1]|]; [|reflexivity].
  rewrite rmatch_cat, rmatch_lit.
  destruct (strip_prefix (py ",True:") r1) as [r2|]; [|reflexivity].
  change (length (py ",True:")) with 6.
  rewrite rmatch_group, rmatch_number.
  2:{ left. intros s' p c. discriminate. }
  destruct (longest_numeral r2) as [[n2 r3]|]; reflexivity.
Qed.

Lemma search_from_found : forall r line s pos m,
  search_from r line s pos = Some m ->
  exists skipped s1,
    s = skipped ++ s1 /\
    m_string m = line /\
    m_start m = pos + length skipped /\
    rmatch r s1 (pos + length skipped) [] (fun _ e c => Some (e, c)) = Some (m_end m, m_groups m) /\
    forall a b, s = a ++ b -> length a < length skipped ->
                rmatch r b (pos + length a) [] (fun _ e c => Some (e, c)) = None.
Proof.
  intros r line s. induction s as [|c s IH]; intros pos m H; cbn [search_from] in H.
  - destruct (rmatch r [] pos [] _) as [[e cs]|] eqn:E; [|discriminate].
    inversion H; subst; clear H. exists [], []. cbn [length m_string m_start m_end m_groups].
    rewrite Nat.add_0_r. repeat split; auto. intros a b _ Hl. inversion Hl.
  - destruct (rmatch r (c :: s) pos [] _) as [[e cs]|] eqn:E.
    + inversion H; subst; clear H. exists [], (c :: s).
      cbn [length m_string m_start m_end m_groups app].
      rewrite Nat.add_0_r. repeat split; auto. intros a b _ Hl. inversion Hl.
    + destruct (IH (S pos) m H) as (sk & s1 & Hs & Hline & Hst & Hm & Hmin).
      exists (c :: sk), s1. cbn [length app]. rewrite Nat.add_succ_r.
      repeat split; auto.
      * rewrite Hs. reflexivity.
      * intros a b Hab Hl. destruct a as [|a0 a].
        -- cbn in Hab. subst b. cbn [length]. rewrite Nat.add_0_r. exact E.
        -- cbn [app] in Hab. inversion Hab; subst a0. cbn [length].
           rewrite Nat.add_succ_r. apply (Hmin a b); [assumption|]. cbn [length] in Hl. lia.
Qed.


Lemma substr_middle : forall (a w b : str),
  substr (a ++ w ++ b) (length a) (length a + length w) = w.
Proof.
  intros a w b. unfold substr.
  rewrite skipn_app, skipn_all, Nat.sub_diag. cbn [skipn app].
  replace (length a + length w - length a) with (length w) by lia.
  rewrite firstn_app, firstn_all, Nat.sub_diag. cbn [firstn]. apply app_nil_r.
Qed.

Lemma strip_prefix_app : forall w s r, strip_prefix w s = Some r -> s = w ++ r.
Proof.
  induction w as [|c w IH]; intros s r H.
  - inversion H. reflexivity.
  - destruct s as [|d s]; [discriminate|]. cbn [strip_prefix] in H.
    destruct (N.eqb_spec d c); [|discriminate]. subst. cbn. f_equal. auto.
Qed.

Lemma strip_prefix_here : forall w r, strip_prefix w (w ++ r) = Some r.
Proof.
  induction w as [|c w IH]; intros r; [reflexivity|].
  cbn [app strip_prefix]. rewrite N.eqb_refl. apply IH.
Qed.


End Matching.

(* ================================================================== *)
(** * Rounding to binary64

    The conversion of a decimal numeral, [decimal_to_float], divides or
    normalises with the operations of [SpecFloat].  The lemmas of this
    section follow the mantissa through the shifts of [binary_round_aux]
    and show that what comes out is the number rounded in the sense of
    [rounds_to]; that sense leaves no choice, and no binary64 number is
    nearer. *)

Section Rounding.
Local Open Scope Z_scope.

Lemma digits2_bounds : forall p : positive,
  2 ^ (Zpos (digits2_pos p) - 1) <= Zpos p < 2 ^ Zpos (digits2_pos p).
Proof.
  induction p as [p IH|p IH|]; cbn [digits2_pos].
  - rewrite Pos2Z.inj_succ. change (Zpos p~1) with (2 * Zpos p + 1).
    replace (Z.succ (Zpos (digits2_pos p)) - 1) with (Z.succ (Zpos (digits2_pos p) - 1)) by lia.
    rewrite !Z.pow_succ_r by lia.
    set (a := 2 ^ (Zpos (digits2_pos p) - 1)) in *. set (b := 2 ^ Zpos (digits2_pos p)) in *. clearbody a b.
    lia.
  - rewrite Pos2Z.inj_succ. change (Zpos p~0) with (2 * Zpos p).
    replace (Z.succ (Zpos (digits2_pos p)) - 1) with (Z.succ (Zpos (digits2_pos p) - 1)) by lia.
    rewrite !Z.pow_succ_r by lia.
    set (a := 2 ^ (Zpos (digits2_pos p) - 1)) in *. set (b := 2 ^ Zpos (digits2_pos p)) in *. clearbody a b.
    lia.
  - cbn. lia.
Qed.

Lemma shr_1_bracket : forall n d mrs,
  0 < d -> bracket n d mrs -> bracket n (2 * d) (shr_1 mrs).
Proof.
  intros n d [m r s] Hd (Hm & Hb & Hr & Hs). cbn [shr_m shr_r shr_s] in *.
  assert (Hrs : orb r s = true <-> n <> m * d).
  { rewrite orb_true_iff, Hr, Hs. nia. }
  destruct m as [|[p|p|]|p]; [| | | |lia]; cbn [shr_1]; unfold bracket;
    cbn [shr_m shr_r shr_s].
  - split; [lia|]. split; [nia|]. split; [split; [discriminate|nia]|].
    rewrite Hrs. nia.
  - change (Zpos p~1) with (2 * Zpos p + 1) in *.
    set (q := Zpos p) in *. assert (0 < q) by (subst q; lia). clearbody q.
    split; [lia|]. split; [nia|]. split; [split; [nia|reflexivity]|].
    rewrite Hrs. nia.
  - change (Zpos p~0) with (2 * Zpos p) in *.
    set (q := Zpos p) in *. assert (0 < q) by (subst q; lia). clearbody q.
    split; [lia|]. split; [nia|]. split; [split; [discriminate|nia]|].
    rewrite Hrs. nia.
  - split; [lia|]. split; [nia|]. split; [split; [nia|reflexivity]|].
    rewrite Hrs. nia.
Qed.

Lemma iter_shr_1_bracket : forall (p : positive) n d mrs,
  0 < d -> bracket n d mrs -> bracket n (2 ^ Zpos p * d) (iter_pos shr_1 p mrs).
Proof.
  induction p as [p IH|p IH|]; intros n d mrs Hd H; cbn [iter_pos].
  - change (Zpos p~1) with (2 * Zpos p + 1).
    replace (2 ^ (2 * Zpos p + 1) * d) with (2 ^ Zpos p * (2 ^ Zpos p * (2 * d))).
    + assert (0 < 2 ^ Zpos p) by (apply Z.pow_pos_nonneg; lia).
      apply IH; [nia|]. apply IH; [lia|]. apply shr_1_bracket; assumption.
    + rewrite Z.pow_add_r, Z.pow_mul_r, Z.pow_1_r by lia.
      change (2 ^ 2) with 4.
      replace (4 ^ Zpos p) with (2 ^ Zpos p * 2 ^ Zpos p)
        by (rewrite <- Z.pow_mul_l; reflexivity).
      ring.
  - change (Zpos p~0) with (2 * Zpos p).
    replace (2 ^ (2 * Zpos p) * d) with (2 ^ Zpos p * (2 ^ Zpos p * d)).
    + assert (0 < 2 ^ Zpos p) by (apply Z.pow_pos_nonneg; lia).
      apply IH; [nia|]. apply IH; [lia|]. assumption.
    + rewrite Z.pow_mul_r by lia. change (2 ^ 2) with 4.
      replace (4 ^ Zpos p) with (2 ^ Zpos p * 2 ^ Zpos p)
        by (rewrite <- Z.pow_mul_l; reflexivity).
      ring.
  - change (2 ^ 1) with 2. apply shr_1_bracket; assumption.
Qed.

Lemma shr_bracket : forall n d mrs e k,
  0 < d -> 0 <= k -> bracket n d mrs ->
  snd (shr mrs e k) = e + k /\ bracket n (2 ^ k * d) (fst (shr mrs e k)).
Proof.
  intros n d mrs e k Hd Hk H. destruct k as [|p|p]; [| |lia]; cbn [shr fst snd].
  - split; [lia|]. change (2 ^ 0) with 1. rewrite Z.mul_1_l. exact H.
  - split; [reflexivity|]. apply iter_shr_1_bracket; assumption.
Qed.

Lemma fexp_eq : forall x, fexp prec emax x = Z.max (x - 53) (-1074).
Proof. reflexivity. Qed.

Lemma Zdigits2_bounds : forall m, 0 <= m ->
  m + 1 <= 2 ^ Zdigits2 m /\ (0 < m -> 2 ^ (Zdigits2 m - 1) <= m) /\ 0 <= Zdigits2 m.
Proof.
  intros [|p|p] H; [| |lia].
  - cbn. lia.
  - cbn [Zdigits2]. pose proof (digits2_bounds p). lia.
Qed.

Lemma pow2_pos : forall x, 0 <= x -> 0 < 2 ^ x.
Proof. intros. apply Z.pow_pos_nonneg; lia. Qed.

Lemma pow2_add : forall x y, 0 <= x -> 0 <= y -> 2 ^ (x + y) = 2 ^ x * 2 ^ y.
Proof. intros. apply Z.pow_add_r; assumption. Qed.

Lemma pow2_le : forall x y, 0 <= x <= y -> 2 ^ x <= 2 ^ y.
Proof. intros. apply Z.pow_le_mono_r; lia. Qed.

Lemma pow2_lt_inv : forall x y, 0 <= y -> 2 ^ x < 2 ^ y -> x < y.
Proof. intros x y Hy H. apply (Z.pow_lt_mono_r_iff 2); [lia|assumption|assumption]. Qed.

(** The first shift of [binary_round_aux]: the exponent becomes the one of
    the last place, and the mantissa has at most 53 bits. *)
Lemma shr_fexp_bracket : forall n b m e l,
  0 < b -> -1074 <= e ->
  bracket n (2 ^ (e + 1074) * b) (shr_record_of_loc m l) ->
  e <= fexp prec emax (Zdigits2 m + e) ->
  let mrs := fst (shr_fexp prec emax m e l) in
  let e' := snd (shr_fexp prec emax m e l) in
  -1074 <= e' /\
  bracket n (2 ^ (e' + 1074) * b) mrs /\
  shr_m mrs < 2 ^ 53 /\
  (-1074 < e' -> 2 ^ 52 <= shr_m mrs).
Proof.
  intros n b m e l Hb He H Hprec mrs e'. subst mrs e'. unfold shr_fexp.
  remember (fexp prec emax (Zdigits2 m + e) - e) as k eqn:Ek.
  assert (Hk : 0 <= k).
  { subst k. revert Hprec. generalize (fexp prec emax (Zdigits2 m + e)). intros; lia. }
  assert (Hm : 0 <= m).
  { destruct H as [H0 _]. destruct l as [|[]]; exact H0. }
  assert (HD : 0 < 2 ^ (e + 1074) * b).
  { pose proof (pow2_pos (e + 1074)). nia. }
  destruct (shr_bracket n _ (shr_record_of_loc m l) e k HD Hk H) as [He' Hbr].
  set (mrs := fst (shr (shr_record_of_loc m l) e k)) in *.
  rewrite He'.
  assert (HDk : 2 ^ k * (2 ^ (e + 1074) * b) = 2 ^ (e + k + 1074) * b).
  { replace (e + k + 1074) with (k + (e + 1074)) by lia.
    rewrite (pow2_add k (e + 1074)) by lia. ring. }
  rewrite HDk in Hbr.
  split; [lia|]. split; [exact Hbr|].
  destruct (Zdigits2_bounds m Hm) as (Hup & Hlow & Hd0).
  set (d := Zdigits2 m) in *.
  assert (Hm0 : shr_m (shr_record_of_loc m l) = m) by (destruct l as [|[]]; reflexivity).
  destruct H as (_ & Horig & _). rewrite Hm0 in Horig.
  destruct Hbr as (Hm' & Hbr & _).
  set (m' := shr_m mrs) in *.
  pose proof (pow2_pos (e + 1074) ltac:(lia)) as HE.
  pose proof (pow2_pos k Hk) as HK.
  assert (HEk : 2 ^ (e + k + 1074) = 2 ^ k * 2 ^ (e + 1074)).
  { replace (e + k + 1074) with (k + (e + 1074)) by lia. apply pow2_add; lia. }
  rewrite HEk in Hbr.
  assert (Hkd : d - 53 <= k).
  { rewrite fexp_eq in Ek. subst d. lia. }
  split.
  - (* m' < 2^53 *)
    assert (H1 : 2 ^ d <= 2 ^ 53 * 2 ^ k).
    { rewrite <- (pow2_add 53 k) by lia. apply pow2_le. lia. }
    set (P := 2 ^ (e + 1074)) in *. set (K := 2 ^ k) in *. set (T := 2 ^ 53) in *.
    set (Dd := 2 ^ d) in *.
    assert (0 < T) by (subst T; apply pow2_pos; lia).
    clearbody P K T Dd m'.
    assert (m' * (K * P * b) < T * (K * P * b)) by nia.
    assert (0 < K * P * b) by nia.
    nia.
  - intros Hbig.
    assert (Hk53 : k = d - 53).
    { rewrite fexp_eq in Ek. subst d. lia. }
    assert (Hmpos : 0 < m).
    { destruct (Z.eq_dec m 0) as [->|]; [|lia]. subst d. cbn in Hk53. lia. }
    specialize (Hlow Hmpos).
    assert (H1 : 2 ^ (d - 1) = 2 ^ 52 * 2 ^ k).
    { rewrite <- (pow2_add 52 k) by lia. f_equal. lia. }
    set (P := 2 ^ (e + 1074)) in *. set (K := 2 ^ k) in *. set (T := 2 ^ 52) in *.
    set (Dd := 2 ^ (d - 1)) in *.
    assert (0 < T) by (subst T; apply pow2_pos; lia).
    clearbody P K T Dd m'.
    assert (0 < K * P * b) by nia.
    assert (T * (K * P * b) < (m' + 1) * (K * P * b)) by nia.
    nia.
Qed.

Lemma round_nearest_even_bracket : forall n d mrs,
  0 < d -> bracket n d mrs ->
  let r := round_nearest_even (shr_m mrs) (loc_of_shr_record mrs) in
  nearest_even n d r /\ shr_m mrs <= r <= shr_m mrs + 1.
Proof.
  intros n d [m r s] Hd (Hm & Hb & Hr & Hs). cbn [shr_m shr_r shr_s] in *.
  unfold nearest_even.
  destruct r, s; cbn [loc_of_shr_record round_nearest_even].
  - assert ((2 * m + 1) * d <= 2 * n) by (apply Hr; reflexivity).
    assert (2 * n <> (2 * m + 1) * d) by (apply Hs; reflexivity).
    split; [|lia]. split; [|intros]; nia.
  - assert ((2 * m + 1) * d <= 2 * n) by (apply Hr; reflexivity).
    assert (2 * n = (2 * m + 1) * d).
    { destruct (Z.eq_dec (2 * n) ((2 * m + 1) * d)) as [|Hne]; [assumption|].
      assert (false = true); [|discriminate]. apply Hs. split; [nia|assumption]. }
    destruct (Z.even m) eqn:Ev.
    + split; [|lia]. split; [nia|]. intros _. exact Ev.
    + split; [|lia]. split; [nia|]. intros _.
      rewrite Z.even_add, Ev. reflexivity.
  - assert (~ (2 * m + 1) * d <= 2 * n) by (intros X; apply Hr in X; discriminate).
    split; [|lia]. split; [|intros]; nia.
  - assert (~ (2 * m + 1) * d <= 2 * n) by (intros X; apply Hr in X; discriminate).
    assert (n = m * d).
    { destruct (Z.eq_dec n (m * d)) as [|Hne]; [assumption|].
      assert (false = true); [|discriminate]. apply Hs. split; [assumption|nia]. }
    split; [|lia]. split; [|intros]; nia.
Qed.

(** The second shift of [binary_round_aux], after rounding: nothing to do
    unless rounding gave [2^53]. *)
Lemma shr_fexp_rounded : forall r e,
  -1074 <= e -> 0 <= r < 2 ^ 53 ->
  shr_fexp prec emax r e loc_Exact = ({| shr_m := r; shr_r := false; shr_s := false |}, e).
Proof.
  intros r e He Hr. unfold shr_fexp. cbn [shr_record_of_loc].
  destruct (Zdigits2_bounds r (proj1 Hr)) as (_ & Hlow & Hd0).
  assert (Hd : Zdigits2 r <= 53).
  { destruct (Z.eq_dec r 0) as [->|]; [cbn; lia|].
    assert (2 ^ (Zdigits2 r - 1) < 2 ^ 53) by lia.
    apply pow2_lt_inv in H; lia. }
  rewrite fexp_eq.
  destruct (Z.max (Zdigits2 r + e - 53) (-1074) - e) as [|p|p] eqn:E; [reflexivity| |reflexivity].
  lia.
Qed.

Lemma shr_fexp_carry : forall e,
  -1074 <= e ->
  shr_fexp prec emax (2 ^ 53) e loc_Exact =
  ({| shr_m := 2 ^ 52; shr_r := false; shr_s := false |}, e + 1).
Proof.
  intros e He. unfold shr_fexp. cbn [shr_record_of_loc]. rewrite fexp_eq.
  change (Zdigits2 (2 ^ 53)) with 54.
  replace (Z.max (54 + e - 53) (-1074) - e) with 1 by lia.
  reflexivity.
Qed.

Theorem binary_round_aux_rounds : forall s n b m e l,
  0 < b -> -1074 <= e ->
  bracket n (2 ^ (e + 1074) * b) (shr_record_of_loc m l) ->
  e <= fexp prec emax (Zdigits2 m + e) ->
  rounds_to s n b (binary_round_aux prec emax s m e l).
Proof.
  intros s n b m e l Hb He H Hprec.
  destruct (shr_fexp_bracket n b m e l Hb He H Hprec) as (He' & Hbr & Hlt & Hge).
  unfold binary_round_aux.
  destruct (shr_fexp prec emax m e l) as [mrs e'] eqn:E1. cbn [fst snd] in *.
  assert (HD : 0 < 2 ^ (e' + 1074) * b).
  { pose proof (pow2_pos (e' + 1074)). nia. }
  destruct (round_nearest_even_bracket n _ mrs HD Hbr) as [Hnear Hr].
  set (r := round_nearest_even (shr_m mrs) (loc_of_shr_record mrs)) in *.
  assert (Hm0 : 0 <= shr_m mrs) by (destruct Hbr as [X _]; exact X).
  assert (Hlast : last_place n b (e' + 1074)).
  { destruct Hbr as (_ & Hin & _).
    pose proof (pow2_pos (e' + 1074) ltac:(lia)) as HP.
    destruct (Z.eq_dec e' (-1074)) as [->|Hne].
    - left. split; [reflexivity|]. change (2 ^ (-1074 + 1074)) with 1 in Hin.
      set (T := 2 ^ 53) in *. clearbody T. nia.
    - right. split; [lia|]. specialize (Hge ltac:(lia)).
      rewrite (pow2_add (e' + 1074) 52), (pow2_add (e' + 1074) 53) by lia.
      set (P := 2 ^ (e' + 1074)) in *. set (T := 2 ^ 53) in *. set (T' := 2 ^ 52) in *.
      clearbody P T T'. nia. }
  assert (Hrounded : rounded n b (r * 2 ^ (e' + 1074))).
  { exists (e' + 1074), r. auto. }
  destruct (Z.eq_dec r (2 ^ 53)) as [Hr53|Hr53].
  - rewrite Hr53 in *. rewrite (shr_fexp_carry e' He'). cbn [shr_m].
    change (2 ^ 52) with (Zpos (Pos.pow 2 52)).
    destruct (Z.leb_spec (e' + 1) (emax - prec)) as [Hle|Hgt].
    + apply rounds_to_finite.
      * replace (Zpos (Pos.pow 2 52) * 2 ^ (e' + 1 + 1074))
          with (2 ^ 53 * 2 ^ (e' + 1074)); [exact Hrounded|].
        replace (e' + 1 + 1074) with (1 + (e' + 1074)) by lia.
        rewrite (pow2_add 1 (e' + 1074)) by lia.
        change (Zpos (Pos.pow 2 52)) with (2 ^ 52). change (2 ^ 53) with (2 * 2 ^ 52).
        change (2 ^ 1) with 2. ring.
      * left. change (Zpos (Pos.pow 2 52)) with (2 ^ 52).
        unfold emax, prec in Hle. split; [|lia].
        split; [lia|]. apply Z.pow_lt_mono_r; lia.
    + apply (@rounds_to_infinity s n b _ Hrounded).
      unfold emax, prec in Hgt.
      replace 2098 with (53 + 2045) by lia. rewrite (pow2_add 53 2045) by lia.
      apply Z.mul_le_mono_nonneg_l; [apply Z.pow_nonneg; lia|].
      apply pow2_le. lia.
  - assert (Hr' : 0 <= r < 2 ^ 53) by lia.
    rewrite (shr_fexp_rounded r e' He' Hr'). cbn [shr_m].
    destruct r as [|p|p]; [| |lia].
    + apply rounds_to_zero. exact Hrounded.
    + destruct (Z.leb_spec e' (emax - prec)) as [Hle|Hgt].
      * apply rounds_to_finite; [exact Hrounded|].
        unfold emax, prec in Hle.
        destruct (Z.eq_dec e' (-1074)) as [->|Hne].
        -- destruct (Z.lt_ge_cases (Zpos p) (2 ^ 52)).
           ++ right. split; [lia|reflexivity].
           ++ left. lia.
        -- left. specialize (Hge ltac:(lia)). lia.
      * apply (@rounds_to_infinity s n b _ Hrounded).
        unfold emax, prec in Hgt. specialize (Hge ltac:(lia)).
        replace 2098 with (52 + 2046) by lia. rewrite (pow2_add 52 2046) by lia.
        apply Z.mul_le_mono_nonneg; [apply Z.pow_nonneg; lia | lia |
                                     apply Z.pow_nonneg; lia | apply pow2_le; lia].
Qed.

Lemma exact_bracket : forall m d, 0 <= m -> 0 < d ->
  bracket (m * d) d (shr_record_of_loc m loc_Exact).
Proof.
  intros m d Hm Hd. unfold bracket. cbn [shr_record_of_loc shr_m shr_r shr_s].
  split; [exact Hm|]. split; [nia|]. split; split; try discriminate; nia.
Qed.

Lemma iter_xO_value : forall (d p : positive),
  Zpos (Pos.iter xO p d) = Zpos p * 2 ^ Zpos d /\
  Zpos (digits2_pos (Pos.iter xO p d)) = Zpos (digits2_pos p) + Zpos d.
Proof.
  intros d p. induction d as [|d IH] using Pos.peano_ind.
  - cbn [Pos.iter digits2_pos]. change (2 ^ 1) with 2. lia.
  - rewrite Pos.iter_succ. cbn [digits2_pos]. destruct IH as [IH1 IH2].
    change (Zpos (Pos.iter xO p d)~0) with (2 * Zpos (Pos.iter xO p d)).
    rewrite IH1, Pos2Z.inj_succ, Pos2Z.inj_succ, IH2, Z.pow_succ_r by lia.
    split; [ring | lia].
Qed.

(** An integer, rounded: [binary_round] at exponent 0. *)
Lemma binary_round_rounds : forall (s : bool) (p : positive),
  rounds_to s (Zpos p * 2 ^ 1074) 1 (binary_round prec emax s p 0).
Proof.
  intros s p. unfold binary_round, shl_align. rewrite Z.add_0_r, Z.sub_0_r.
  pose proof (fexp_eq (Zpos (digits2_pos p))) as Hf.
  destruct (fexp prec emax (Zpos (digits2_pos p))) as [|f|f] eqn:Ef.
  - apply binary_round_aux_rounds; [lia | lia | | ].
    + change (2 ^ (0 + 1074) * 1) with (2 ^ 1074). apply exact_bracket; [lia|reflexivity].
    + cbn [Zdigits2]. rewrite Z.add_0_r, Ef. lia.
  - apply binary_round_aux_rounds; [lia | lia | | ].
    + change (2 ^ (0 + 1074) * 1) with (2 ^ 1074). apply exact_bracket; [lia|reflexivity].
    + cbn [Zdigits2]. rewrite Z.add_0_r, Ef. lia.
  - destruct (iter_xO_value f p) as [Hv Hd].
    apply binary_round_aux_rounds; [lia | lia | | ].
    + rewrite Z.mul_1_r.
      replace (Zpos p * 2 ^ 1074) with (Zpos (Pos.iter xO p f) * 2 ^ (Zneg f + 1074)).
      * apply exact_bracket; [lia | apply pow2_pos; lia].
      * rewrite Hv, <- Z.mul_assoc, <- (pow2_add (Zpos f) (Zneg f + 1074)) by lia.
        f_equal. f_equal. lia.
    + cbn [Zdigits2]. rewrite Hd.
      replace (Zpos (digits2_pos p) + Zpos f + Zneg f) with (Zpos (digits2_pos p)) by lia.
      rewrite Ef. lia.
Qed.

Lemma new_location_record : forall m2 q r,
  0 <= r < m2 ->
  shr_record_of_loc q (new_location m2 r) =
  {| shr_m := q; shr_r := (m2 <=? 2 * r); shr_s := negb (r =? 0) && negb (2 * r =? m2) |}.
Proof.
  intros m2 q r Hr. unfold new_location.
  destruct (Z.even m2) eqn:Ev.
  - unfold new_location_even. destruct (Z.eqb_spec r 0) as [->|Hr0].
    + cbn. destruct (Z.leb_spec m2 0); [lia|reflexivity].
    + destruct (Z.compare_spec (2 * r) m2) as [H|H|H]; cbn [shr_record_of_loc];
        destruct (Z.leb_spec m2 (2 * r)); try lia;
        destruct (Z.eqb_spec (2 * r) m2); try lia; reflexivity.
  - assert (Hodd : 2 * r <> m2).
    { intros <-. rewrite Z.even_mul in Ev. discriminate. }
    unfold new_location_odd. destruct (Z.eqb_spec r 0) as [->|Hr0].
    + cbn. destruct (Z.leb_spec m2 0); [lia|reflexivity].
    + destruct (Z.compare_spec (2 * r + 1) m2) as [H|H|H]; cbn [shr_record_of_loc];
        destruct (Z.leb_spec m2 (2 * r)); try lia;
        destruct (Z.eqb_spec (2 * r) m2); try lia; reflexivity.
Qed.

(** A fraction of two positive integers, rounded: [SFdiv] at exponent 0. *)
Lemma SFdiv_rounds : forall (s : bool) (p q : positive),
  rounds_to s (Zpos p * 2 ^ 1074) (Zpos q)
            (SFdiv prec emax (S754_finite s p 0) (S754_finite false q 0)).
Proof.
  intros s p q. cbn [SFdiv]. unfold SFdiv_core_binary. rewrite xorb_false_r.
  rewrite !Z.add_0_r, !Z.sub_0_r. cbn [Zdigits2].
  set (d1 := Zpos (digits2_pos p)). set (d2 := Zpos (digits2_pos q)).
  pose proof (digits2_bounds p) as Hp. pose proof (digits2_bounds q) as Hq.
  fold d1 in Hp. fold d2 in Hq.
  remember (Z.min (fexp prec emax (d1 - d2)) 0) as e' eqn:Ee.
  assert (He : -1074 <= e' <= 0) by (rewrite fexp_eq in Ee; lia).
  assert (Hm' : match 0 - e' with
                | Z0 => Zpos p
                | Zpos _ => Z.shiftl (Zpos p) (0 - e')
                | Zneg _ => 0
                end = Zpos p * 2 ^ (- e')).
  { replace (0 - e') with (- e') by lia.
    destruct (- e') as [|k|k] eqn:Ek; [change (2 ^ 0) with 1; lia| |lia].
    rewrite Z.shiftl_mul_pow2 by lia. reflexivity. }
  rewrite Hm'. clear Hm'.
  pose proof (Z_div_mod (Zpos p * 2 ^ (- e')) (Zpos q) ltac:(lia)) as Hdiv.
  destruct (Z.div_eucl (Zpos p * 2 ^ (- e')) (Zpos q)) as [qq r].
  destruct Hdiv as [Hdiv Hr].
  pose proof (pow2_pos (- e') ltac:(lia)) as HS.
  pose proof (pow2_pos (e' + 1074) ltac:(lia)) as HP.
  assert (Hsplit : 2 ^ 1074 = 2 ^ (- e') * 2 ^ (e' + 1074)).
  { rewrite <- (pow2_add (- e') (e' + 1074)) by lia. f_equal. lia. }
  assert (Hqq : 0 <= qq) by nia.
  apply binary_round_aux_rounds; [lia | lia | | ].
  - rewrite (new_location_record (Zpos q) qq r Hr). unfold bracket.
    cbn [shr_m shr_r shr_s]. rewrite Hsplit.
    set (S' := 2 ^ (- e')) in *. set (P := 2 ^ (e' + 1074)) in *.
    set (a := Zpos p) in *. set (b := Zpos q) in *.
    assert (0 < b) by (subst b; lia).
    clearbody S' P a b.
    assert (Hn : a * (S' * P) = (b * qq + r) * P) by (rewrite <- Hdiv; ring).
    rewrite Hn.
    split; [exact Hqq|]. split; [nia|]. split.
    + rewrite Z.leb_le. split; intros; nia.
    + rewrite andb_true_iff, !negb_true_iff, !Z.eqb_neq. split.
      * intros [H1 H2]. split; nia.
      * intros [H1 H2]. split; [intros ->; apply H1; ring | intros H3; apply H2; nia].
  - destruct (Z.eq_dec e' (-1074)) as [->|Hne]; [rewrite fexp_eq; lia|].
    assert (Hs : 53 + d2 - d1 <= - e') by (rewrite fexp_eq in Ee; lia).
    assert (Hbig : 2 ^ 52 <= qq).
    { assert (H1 : 2 ^ 52 * 2 ^ d2 <= 2 ^ (d1 - 1) * 2 ^ (- e')).
      { assert (0 < d1) by (subst d1; lia). assert (0 < d2) by (subst d2; lia).
        rewrite <- (pow2_add 52 d2), <- (pow2_add (d1 - 1) (- e')) by lia.
        apply pow2_le. lia. }
      set (S' := 2 ^ (- e')) in *. set (T := 2 ^ 52) in *.
      set (D1 := 2 ^ (d1 - 1)) in *. set (D2 := 2 ^ d2) in *.
      set (a := Zpos p) in *. set (b := Zpos q) in *.
      assert (0 < b) by (subst b; lia). assert (0 < T) by (subst T; reflexivity).
      clearbody S' T D1 D2 a b.
      destruct (Z.lt_ge_cases qq T) as [Hlt|]; [exfalso|assumption].
      assert (a * S' < T * b) by nia.
      assert (T * b < T * D2) by nia.
      assert (D1 * S' <= a * S') by nia.
      lia. }
    destruct (Zdigits2_bounds qq Hqq) as (Hup & _ & _).
    assert (52 < Zdigits2 qq).
    { apply pow2_lt_inv; [|lia].
      destruct qq as [|x|x]; cbn [Zdigits2]; lia. }
    rewrite fexp_eq. lia.
Qed.

(** ** The rounding of a number is unique *)

Lemma last_place_unique : forall n b E1 E2,
  0 < b -> last_place n b E1 -> last_place n b E2 -> E1 = E2.
Proof.
  assert (Hlt : forall n b E1 E2, 0 < b -> 0 <= E1 < E2 ->
            n < 2 ^ (E1 + 53) * b -> 2 ^ (E2 + 52) * b <= n -> False).
  { intros n b E1 E2 Hb HE H1 H2.
    assert (2 ^ (E1 + 53) <= 2 ^ (E2 + 52)) by (apply pow2_le; lia).
    set (A := 2 ^ (E1 + 53)) in *. set (B := 2 ^ (E2 + 52)) in *. clearbody A B. nia. }
  intros n b E1 E2 Hb [[-> H1]|[H1 H1']] [[-> H2]|[H2 H2']]; [reflexivity| | |].
  - exfalso. apply (Hlt n b 0 E2 Hb); [lia | exact H1 | apply H2'].
  - exfalso. apply (Hlt n b 0 E1 Hb); [lia | exact H2 | apply H1'].
  - destruct (Z.lt_trichotomy E1 E2) as [H|[H|H]]; [exfalso|exact H|exfalso].
    + apply (Hlt n b E1 E2 Hb); [lia | apply H1' | apply H2'].
    + apply (Hlt n b E2 E1 Hb); [lia | apply H2' | apply H1'].
Qed.

Lemma nearest_even_unique : forall n d r1 r2,
  0 < d -> nearest_even n d r1 -> nearest_even n d r2 -> r1 = r2.
Proof.
  assert (Hlt : forall n d r1 r2, 0 < d -> r1 < r2 ->
            nearest_even n d r1 -> nearest_even n d r2 -> False).
  { intros n d r1 r2 Hd Hr [H1 T1] [H2 T2].
    assert (Hs : r2 = r1 + 1) by nia. subst r2.
    assert (E1 : Z.abs (2 * (r1 * d - n)) = d) by nia.
    assert (E2 : Z.abs (2 * ((r1 + 1) * d - n)) = d) by nia.
    specialize (T1 E1). specialize (T2 E2).
    rewrite Z.even_add, T1 in T2. discriminate. }
  intros n d r1 r2 Hd H1 H2.
  destruct (Z.lt_trichotomy r1 r2) as [H|[H|H]]; [exfalso|exact H|exfalso]; eauto.
Qed.

Lemma rounded_unique : forall n b z1 z2,
  0 < b -> rounded n b z1 -> rounded n b z2 -> z1 = z2.
Proof.
  intros n b z1 z2 Hb (E1 & r1 & L1 & N1 & ->) (E2 & r2 & L2 & N2 & ->).
  assert (E1 = E2) by (eapply last_place_unique; eassumption). subst E2.
  assert (0 <= E1) by (destruct L1 as [[]|[]]; lia).
  assert (0 < 2 ^ E1 * b) by (pose proof (pow2_pos E1); nia).
  assert (r1 = r2) by (eapply nearest_even_unique; eassumption).
  subst. reflexivity.
Qed.

Lemma binary64_unique : forall m1 e1 m2 e2,
  binary64 m1 e1 -> binary64 m2 e2 ->
  m1 * 2 ^ (e1 + 1074) = m2 * 2 ^ (e2 + 1074) ->
  m1 = m2 /\ e1 = e2.
Proof.
  assert (Hsame : forall m1 m2 e, -1074 <= e ->
            m1 * 2 ^ (e + 1074) = m2 * 2 ^ (e + 1074) -> m1 = m2).
  { intros m1 m2 e He H. pose proof (pow2_pos (e + 1074) ltac:(lia)). nia. }
  assert (Hlt : forall m1 e1 m2 e2,
            0 < m1 < 2 ^ 53 -> -1074 <= e1 < e2 -> 2 ^ 52 <= m2 ->
            m1 * 2 ^ (e1 + 1074) = m2 * 2 ^ (e2 + 1074) -> False).
  { intros m1 e1 m2 e2 H1 He H2 H.
    assert (Hp : 2 ^ (e2 + 1074) = 2 ^ (e2 - e1) * 2 ^ (e1 + 1074)).
    { rewrite <- (pow2_add (e2 - e1) (e1 + 1074)) by lia. f_equal. lia. }
    assert (2 ^ 1 <= 2 ^ (e2 - e1)) by (apply pow2_le; lia).
    change (2 ^ 1) with 2 in *. change (2 ^ 53) with (2 * 2 ^ 52) in *.
    pose proof (pow2_pos (e1 + 1074) ltac:(lia)).
    set (A := 2 ^ (e1 + 1074)) in *. set (B := 2 ^ (e2 - e1)) in *.
    set (T := 2 ^ 52) in *.
    assert (0 < T) by (subst T; reflexivity).
    rewrite Hp in H. clearbody A B T.
    assert (m1 = m2 * B) by nia. nia. }
  intros m1 e1 m2 e2 B1 B2 H.
  assert (He : e1 = e2).
  { destruct (Z.lt_trichotomy e1 e2) as [L|[L|L]]; [exfalso|exact L|exfalso].
    - destruct B1 as [[? ?]|[? ?]], B2 as [[? ?]|[? ?]]; try lia;
        apply (Hlt m1 e1 m2 e2); try lia; assumption.
    - destruct B1 as [[? ?]|[? ?]], B2 as [[? ?]|[? ?]]; try lia;
        apply (Hlt m2 e2 m1 e1); try lia; symmetry; assumption. }
  subst e2. split; [|reflexivity].
  apply (Hsame m1 m2 e1); [destruct B1 as [[? ?]|[? ?]]; lia | exact H].
Qed.

Lemma binary64_below : forall m e, binary64 m e -> 0 < m * 2 ^ (e + 1074) < 2 ^ 2098.
Proof.
  intros m e [[Hm He]|[Hm ->]].
  - pose proof (pow2_pos (e + 1074) ltac:(lia)).
    assert (2 ^ (e + 1074) <= 2 ^ 2045) by (apply pow2_le; lia).
    replace 2098 with (53 + 2045) by lia. rewrite (pow2_add 53 2045) by lia.
    set (A := 2 ^ (e + 1074)) in *. set (B := 2 ^ 2045) in *. set (T := 2 ^ 53) in *.
    assert (0 < 2 ^ 52) by reflexivity.
    clearbody A B T. nia.
  - change (2 ^ (-1074 + 1074)) with 1.
    assert (2 ^ 52 < 2 ^ 2098) by (apply Z.pow_lt_mono_r; lia). lia.
Qed.

Theorem rounds_to_unique : forall neg n b x y,
  0 < b -> rounds_to neg n b x -> rounds_to neg n b y -> x = y.
Proof.
  intros neg n b x y Hb Hx Hy.
  assert (Hbig : 0 < 2 ^ 2098) by (apply pow2_pos; lia).
  destruct Hx as [Hx|m e Hx Bx|z Hx Zx], Hy as [Hy|m' e' Hy By|z' Hy Zy];
    pose proof (rounded_unique _ _ _ _ Hb Hx Hy) as H;
    try pose proof (binary64_below _ _ Bx);
    try pose proof (binary64_below _ _ By);
    try reflexivity; try lia.
  destruct (binary64_unique _ _ _ _ Bx By H) as [Hm He].
  injection Hm as ->. subst. reflexivity.
Qed.


(** The conversion the program uses gives the number rounded. *)
Theorem decimal_to_float_rounds : forall (neg : bool) (m : N) (k : nat),
  rounds_to neg (Z.of_N m * 2 ^ 1074) (10 ^ Z.of_nat k)
            (decimal_to_float neg m (- Z.of_nat k)).
Proof.
  intros neg [|p] k.
  - cbn [decimal_to_float Z.of_N Z.mul]. apply rounds_to_zero.
    assert (Hb : 0 < 10 ^ Z.of_nat k) by (apply Z.pow_pos_nonneg; lia).
    exists 0, 0. split; [left; split; [reflexivity|]|split; [|reflexivity]].
    + assert (0 < 2 ^ 53) by reflexivity.
      set (b := 10 ^ Z.of_nat k) in *. set (T := 2 ^ 53) in *. clearbody b T. nia.
    + unfold nearest_even. set (b := 10 ^ Z.of_nat k) in *. clearbody b.
      change (2 ^ 0) with 1. rewrite Z.mul_1_l.
      replace (2 * (0 * b - 0)) with 0 by ring. cbn [Z.abs].
      split; [lia | intros; lia].
  - destruct k as [|k].
    + change (- Z.of_nat 0) with 0. change (10 ^ Z.of_nat 0) with 1.
      cbn [decimal_to_float Z.of_N]. change (10 ^ 0) with 1. rewrite Z.mul_1_r.
      destruct neg; exact (binary_round_rounds _ p).
    + rewrite Nat2Z.inj_succ. cbn [Z.of_N].
      replace (- Z.succ (Z.of_nat k)) with (Zneg (Pos.of_succ_nat k)) by lia.
      replace (Z.succ (Z.of_nat k)) with (Zpos (Pos.of_succ_nat k)) by lia.
      cbn [decimal_to_float]. rewrite <- (Pos2Z.inj_pow 10 (Pos.of_succ_nat k)).
      apply SFdiv_rounds.
Qed.

End Rounding.

(* ================================================================== *)
(** * Numerals: what the scanner finds and what [float] makes of them *)

Section Numerals.
Context {U : UnicodeData}.


Lemma scan_sign_app : forall s sg r, scan_sign s = (sg, r) -> s = sg ++ r /\ is_sign sg.
Proof.
  intros [|c s] sg r H; unfold scan_sign in H.
  - inversion H. split; [reflexivity | left; reflexivity].
  - destruct (existsb (N.eqb c) (py "-+")) eqn:E; inversion H; subst.
    + split; [reflexivity|]. destruct (sign_cases _ E) as [->| ->]; [right; left | right; right]; reflexivity.
    + split; [reflexivity | left; reflexivity].
Qed.

Lemma scan_sign_here : forall sg r, is_sign sg -> no_sign_first r -> scan_sign (sg ++ r) = (sg, r).
Proof.
  intros sg r [->|[->| ->]] Hr; [|reflexivity|reflexivity].
  destruct r as [|c r]; [reflexivity|]. cbn [app].
  unfold no_sign_first in Hr. unfold scan_sign. rewrite Hr. reflexivity.
Qed.

Lemma digit_not_sign : forall c, isdecimal c = true -> existsb (N.eqb c) (py "-+") = false.
Proof.
  intros c H. destruct (existsb (N.eqb c) (py "-+")) eqn:E; [|reflexivity].
  rewrite (sign_not_digit _ E) in H. discriminate.
Qed.

Lemma digits_no_sign_first : forall ds r, digits ds -> ds <> [] -> no_sign_first (ds ++ r).
Proof.
  intros [|c ds] r Hd Hne; [congruence|]. cbn [app]. unfold no_sign_first.
  unfold digits in Hd. cbn [forallb] in Hd.
  apply andb_prop in Hd. apply digit_not_sign. tauto.
Qed.

Lemma digits_dot_no_sign_first : forall ds r, digits ds -> no_sign_first (ds ++ chr "." :: r).
Proof.
  intros [|c ds] r Hd; [reflexivity|]. apply digits_no_sign_first; [assumption|discriminate].
Qed.

Lemma span_digits : forall s ds r1, span isdecimal s = (ds, r1) -> digits ds.
Proof. intros s ds r1 H. exact (span_all _ _ _ _ H). Qed.

Lemma dot_not_digit : isdecimal (chr ".") = false.
Proof. reflexivity. Qed.

(** What the scanner returns is a numeral at the start of the string. *)
Lemma longest_numeral_sound : forall s w rest,
  longest_numeral s = Some (w, rest) -> s = w ++ rest /\ numeral w.
Proof.
  intros s w rest H. unfold longest_numeral in H.
  destruct (scan_sign s) as [sg r] eqn:Esg.
  destruct (scan_sign_app _ _ _ Esg) as [-> Hsg].
  destruct (span isdecimal r) as [ds r1] eqn:Eds.
  pose proof (span_app _ _ _ _ Eds) as ->. pose proof (span_digits _ _ _ Eds) as Hds.
  assert (Hwhole : match ds with [] => None | _ :: _ => Some (sg ++ ds, r1) end = Some (w, rest) ->
                   sg ++ ds ++ r1 = w ++ rest /\ numeral w).
  { intros Hw. destruct ds as [|d ds]; [discriminate|]. inversion Hw; subst.
    split; [rewrite app_assoc; reflexivity|]. do 3 eexists. apply value_int; [assumption..|discriminate]. }
  destruct r1 as [|c r2]; [exact (Hwhole H)|].
  destruct (N.eqb_spec c (chr ".")) as [->|]; [|exact (Hwhole H)].
  destruct (span isdecimal r2) as [fs r3] eqn:Efs.
  destruct fs as [|f fs]; [exact (Hwhole H)|].
  inversion H; subst. pose proof (span_app _ _ _ _ Efs) as ->.
  split.
  - rewrite <- !app_assoc. cbn [app]. reflexivity.
  - do 3 eexists. apply value_frac; [assumption|assumption|exact (span_digits _ _ _ Efs)|discriminate].
Qed.

Lemma span_other : forall s, other_first s -> span isdecimal s = ([], s).
Proof.
  intros [|c s] H; [reflexivity|]. unfold other_first in H. apply span_stop. tauto.
Qed.

(** A numeral at the start of a string is found by the scanner, possibly
    extended to a longer one; it is found as it is when something other than
    a digit or a dot follows it. *)
Lemma longest_numeral_complete : forall m post,
  numeral m ->
  exists ext rest,
    longest_numeral (m ++ post) = Some (m ++ ext, rest) /\
    post = ext ++ rest /\
    (other_first post -> ext = []).
Proof.
  intros m post (neg & val & k & Hm). unfold longest_numeral.
  destruct Hm as [sg ds Hsg Hds Hne | sg ds fs Hsg Hds Hfs Hne].
  - rewrite <- app_assoc.
    rewrite (scan_sign_here _ _ Hsg (digits_no_sign_first _ post Hds Hne)).
    rewrite (span_prefix _ _ post Hds).
    destruct (span isdecimal post) as [d' r1] eqn:Ep. cbn [fst snd].
    pose proof (span_app _ _ _ _ Ep) as Hpost.
    assert (Hnn : ds ++ d' <> []) by (destruct ds; [congruence | discriminate]).
    assert (Hwhole : exists ext rest,
               match ds ++ d' with [] => None | _ :: _ => Some (sg ++ ds ++ d', r1) end
               = Some ((sg ++ ds) ++ ext, rest) /\ post = ext ++ rest /\ (other_first post -> ext = [])).
    { exists d', r1. split; [|split].
      - destruct (ds ++ d') eqn:E; [congruence|]. rewrite <- E, app_assoc. reflexivity.
      - exact Hpost.
      - intros Ho. rewrite (span_other _ Ho) in Ep. inversion Ep. reflexivity. }
    destruct r1 as [|c r2]; [exact Hwhole|].
    destruct (N.eqb_spec c (chr ".")) as [->|]; [|exact Hwhole].
    destruct (span isdecimal r2) as [fs r3] eqn:Efs.
    destruct fs as [|f fs]; [exact Hwhole|].
    exists (d' ++ chr "." :: f :: fs), r3. split; [|split].
    + rewrite <- !app_assoc. reflexivity.
    + rewrite Hpost, (span_app _ _ _ _ Efs), <- app_assoc. reflexivity.
    + intros Ho. rewrite (span_other _ Ho) in Ep. inversion Ep; subst.
      unfold other_first in Ho. destruct Ho as [_ Ho]. congruence.
  - rewrite <- !app_assoc. cbn [app].
    rewrite (scan_sign_here _ _ Hsg (digits_dot_no_sign_first _ (fs ++ post) Hds)).
    rewrite (span_prefix _ _ (chr "." :: fs ++ post) Hds).
    rewrite (@span_stop isdecimal (chr ".") (fs ++ post) dot_not_digit). cbn [fst snd].
    rewrite N.eqb_refl.
    rewrite (span_prefix _ _ post Hfs).
    destruct (span isdecimal post) as [f' r3] eqn:Ep. cbn [fst snd].
    pose proof (span_app _ _ _ _ Ep) as Hpost.
    destruct (fs ++ f') as [|f0 fs0] eqn:E; [destruct fs; [congruence|discriminate]|].
    exists f', r3. split; [|split].
    + rewrite app_nil_r, <- E. rewrite <- !app_assoc. cbn [app]. reflexivity.
    + exact Hpost.
    + intros Ho. rewrite (span_other _ Ho) in Ep. inversion Ep. reflexivity.
Qed.



Lemma to_decimal_bound : forall c d, to_decimal c = Some d -> (d < 10)%N.
Proof.
  intros c d H. unfold to_decimal in H.
  destruct (N.ltb_spec c 128).
  - destruct (N.leb_spec 48 c); destruct (N.leb_spec c 57); cbn in H; inversion H; lia.
  - destruct (uni_decimal c) as [d'|]; [|discriminate].
    destruct (N.ltb_spec d' 10); inversion H; subst; assumption.
Qed.

Lemma isdecimal_value : forall c, isdecimal c = true -> exists d, to_decimal c = Some d.
Proof.
  intros c H. unfold isdecimal in H. destruct (to_decimal c) as [d|]; [eauto|discriminate].
Qed.

Lemma to_ascii_digit : forall c s,
  isdecimal c = true -> to_ascii (c :: s) = ascii_digit c :: to_ascii s.
Proof.
  intros c s H. destruct (isdecimal_value _ H) as [d Hd].
  cbn [to_ascii]. unfold ascii_digit. rewrite Hd.
  destruct (N.ltb_spec c 127) as [Hlt|Hge].
  - f_equal. unfold to_decimal in Hd.
    destruct (N.ltb_spec c 128); [|lia].
    destruct (N.leb_spec 48 c); destruct (N.leb_spec c 57); cbn in Hd; inversion Hd; lia.
  - destruct (isspace c) eqn:Esp; [|reflexivity]. exfalso.
    unfold isspace in Esp. unfold to_decimal in Hd.
    destruct (N.ltb_spec c 128).
    + destruct (N.leb_spec 48 c); destruct (N.leb_spec c 57); cbn in Hd; inversion Hd; lia.
    + rewrite (uni_space_not_decimal c Esp) in Hd. discriminate.
Qed.

Lemma to_ascii_digits : forall ds s,
  digits ds -> to_ascii (ds ++ s) = map ascii_digit ds ++ to_ascii s.
Proof.
  induction ds as [|c ds IH]; intros s H; [reflexivity|].
  unfold digits in H. cbn [forallb] in H. apply andb_prop in H. destruct H as [Hc Hd].
  cbn [app map]. rewrite (to_ascii_digit _ _ Hc). f_equal. apply IH. exact Hd.
Qed.

Lemma ascii_digit_is_digit : forall c, isdecimal c = true -> is_ascii_digit (ascii_digit c) = true.
Proof.
  intros c H. destruct (isdecimal_value _ H) as [d Hd]. unfold ascii_digit. rewrite Hd.
  pose proof (to_decimal_bound _ _ Hd). unfold is_ascii_digit.
  apply andb_true_intro. split; [apply N.leb_le | apply N.leb_le]; lia.
Qed.

Lemma ascii_digits_are_digits : forall ds,
  digits ds -> forallb is_ascii_digit (map ascii_digit ds) = true.
Proof.
  induction ds as [|c ds IH]; intros H; [reflexivity|].
  unfold digits in H. cbn [forallb] in H. apply andb_prop in H. destruct H as [Hc Hd].
  cbn [map forallb]. rewrite (ascii_digit_is_digit _ Hc). apply IH. exact Hd.
Qed.

Lemma digits_value_from : forall ds acc,
  digits ds ->
  fold_left (fun a c => (a * 10 + (c - 48))%N) (map ascii_digit ds) acc =
  fold_left (fun a c => (a * 10 + match to_decimal c with
                                  | Some d => d
                                  | None => 0
                                  end)%N) ds acc.
Proof.
  induction ds as [|c ds IH]; intros acc H; [reflexivity|].
  unfold digits in H. cbn [forallb] in H. apply andb_prop in H. destruct H as [Hc Hd].
  cbn [map fold_left]. rewrite (IH _ Hd). f_equal.
  destruct (isdecimal_value _ Hc) as [d Hv]. unfold ascii_digit. rewrite Hv. lia.
Qed.

Lemma digits_value_ascii : forall ds,
  digits ds -> digits_value (map ascii_digit ds) = decimal_value ds.
Proof. intros ds H. apply digits_value_from. exact H. Qed.

Lemma ascii_digit_plain : forall c, is_ascii_digit c = true -> plain c = true.
Proof.
  intros c H. unfold is_ascii_digit in H. apply andb_prop in H. destruct H as [H1 H2].
  apply N.leb_le in H1, H2. unfold plain, c_isspace.
  destruct (N.eqb_spec c (chr "_")) as [->|]; [cbn in H2; lia|].
  destruct (N.leb_spec 9 c); destruct (N.leb_spec c 13); destruct (N.eqb_spec c 32);
    try reflexivity; lia.
Qed.

Lemma forallb_weaken : forall (f g : codepoint -> bool) l,
  (forall c, f c = true -> g c = true) -> forallb f l = true -> forallb g l = true.
Proof.
  intros f g l Hfg. induction l as [|c l IH]; cbn [forallb]; intros H; [reflexivity|].
  apply andb_prop in H. destruct H as [Hc Hl]. rewrite (Hfg _ Hc). apply IH. exact Hl.
Qed.

Lemma underscores_ok_plain : forall a prev,
  (prev =? chr "_")%N = false -> forallb plain a = true -> underscores_ok prev a = true.
Proof.
  induction a as [|c a IH]; intros prev Hp H; cbn [underscores_ok].
  - rewrite Hp. reflexivity.
  - cbn [forallb] in H. apply andb_prop in H. destruct H as [Hc Ha].
    unfold plain in Hc. apply andb_prop in Hc. destruct Hc as [Hc _].
    apply negb_true_iff in Hc. rewrite Hc, Hp. cbn [negb orb andb]. apply IH; assumption.
Qed.

Lemma remove_underscores_plain : forall a, forallb plain a = true -> remove_underscores a = a.
Proof.
  induction a as [|c a IH]; intros H; [reflexivity|].
  cbn [forallb] in H. apply andb_prop in H. destruct H as [Hc Ha].
  unfold remove_underscores in *. cbn [filter].
  unfold plain in Hc. apply andb_prop in Hc. destruct Hc as [Hc _]. rewrite Hc.
  f_equal. apply IH. exact Ha.
Qed.

Lemma lstrip_plain : forall a, forallb plain a = true -> lstrip c_isspace a = a.
Proof.
  intros [|c a] H; [reflexivity|]. cbn [forallb] in H. apply andb_prop in H.
  destruct H as [Hc _]. unfold plain in Hc. apply andb_prop in Hc. destruct Hc as [_ Hc].
  apply negb_true_iff in Hc. cbn [lstrip]. rewrite Hc. reflexivity.
Qed.

Lemma forallb_rev : forall (f : codepoint -> bool) l, forallb f l = true -> forallb f (rev l) = true.
Proof.
  intros f l H. apply forallb_forall. intros x Hx. apply in_rev in Hx.
  revert x Hx. apply forallb_forall. exact H.
Qed.

Lemma rstrip_plain : forall a, forallb plain a = true -> rstrip c_isspace a = a.
Proof.
  intros a H. unfold rstrip. rewrite (lstrip_plain _ (forallb_rev _ _ H)). apply rev_involutive.
Qed.

Lemma take_sign_here : forall sg x,
  is_sign sg -> match x with c :: _ => is_ascii_digit c = true \/ c = chr "." | [] => True end ->
  take_sign (sg ++ x) = (is_minus sg, x).
Proof.
  intros sg x [->|[->| ->]] Hx; [|reflexivity|reflexivity].
  destruct x as [|c x]; [reflexivity|]. cbn [app take_sign].
  assert (Hc : c <> chr "-" /\ c <> chr "+").
  { destruct Hx as [Hx| ->]; [|split; discriminate].
    unfold is_ascii_digit in Hx. apply andb_prop in Hx. destruct Hx as [H1 _].
    apply N.leb_le in H1. split; intros ->; cbn in H1; lia. }
  destruct (N.eqb_spec c (chr "-")); [tauto|].
  destruct (N.eqb_spec c (chr "+")); [tauto|]. reflexivity.
Qed.

Lemma span_exact : forall (f : codepoint -> bool) a b,
  forallb f a = true -> match b with c :: _ => f c = false | [] => True end ->
  span f (a ++ b) = (a, b).
Proof.
  intros f a b Ha Hb. rewrite (span_prefix _ _ b Ha).
  destruct b as [|c b]; cbn [span fst snd].
  - rewrite app_nil_r. reflexivity.
  - rewrite Hb. cbn [fst snd]. rewrite app_nil_r. reflexivity.
Qed.

Lemma parse_float_int : forall sg D,
  is_sign sg -> forallb is_ascii_digit D = true -> D <> [] ->
  parse_float (sg ++ D) = Some (decimal_to_float (is_minus sg) (digits_value D) 0).
Proof.
  intros sg D Hsg HD Hne. unfold parse_float.
  rewrite (take_sign_here _ D Hsg).
  2:{ destruct D as [|c D]; [exact I|]. cbn [forallb] in HD. apply andb_prop in HD. tauto. }
  rewrite <- (app_nil_r D) at 1. rewrite (span_exact _ _ [] HD I).
  rewrite app_nil_r. destruct D as [|c D]; [congruence|]. reflexivity.
Qed.

Lemma parse_float_frac : forall sg D F,
  is_sign sg -> forallb is_ascii_digit D = true -> forallb is_ascii_digit F = true -> F <> [] ->
  parse_float (sg ++ D ++ chr "." :: F) =
  Some (decimal_to_float (is_minus sg) (digits_value (D ++ F)) (- Z.of_nat (length F))).
Proof.
  intros sg D F Hsg HD HF Hne. unfold parse_float.
  rewrite (take_sign_here _ (D ++ chr "." :: F) Hsg).
  2:{ destruct D as [|c D]; [right; reflexivity|]. cbn [forallb] in HD. apply andb_prop in HD.
      cbn [app]. tauto. }
  rewrite (span_exact _ D (chr "." :: F) HD eq_refl).
  rewrite N.eqb_refl.
  rewrite <- (app_nil_r F) at 1. rewrite (span_exact _ _ [] HF I).
  destruct (D ++ F) as [|c l] eqn:E; [destruct D; [destruct F; [congruence|discriminate]|discriminate]|].
  cbn [exponent]. rewrite Z.sub_0_l. reflexivity.
Qed.

Lemma sign_plain : forall sg, is_sign sg -> forallb plain sg = true.
Proof. intros sg [->|[->| ->]]; reflexivity. Qed.

Lemma to_ascii_sign : forall sg s, is_sign sg -> to_ascii (sg ++ s) = sg ++ to_ascii s.
Proof. intros sg s [->|[->| ->]]; reflexivity. Qed.

Lemma forallb_app_intro : forall (f : codepoint -> bool) a b,
  forallb f a = true -> forallb f b = true -> forallb f (a ++ b) = true.
Proof. intros f a b Ha Hb. rewrite forallb_app, Ha, Hb. reflexivity. Qed.

Lemma py_float_plain : forall a b,
  to_ascii a = b -> forallb plain b = true -> py_float a = parse_float b.
Proof.
  intros a b Hb Hp. unfold py_float. rewrite Hb.
  rewrite (underscores_ok_plain _ 0%N eq_refl Hp), (remove_underscores_plain _ Hp).
  rewrite (lstrip_plain _ Hp), (rstrip_plain _ Hp). reflexivity.
Qed.

(** [float] accepts every numeral and converts its digits with
    [decimal_to_float]. *)
Lemma py_float_value_of : forall w neg m k,
  value_of w neg m k -> py_float w = Some (decimal_to_float neg m (- Z.of_nat k)).
Proof.
  intros w neg m k H. destruct H as [sg ds Hsg Hds Hne | sg ds fs Hsg Hds Hfs Hne].
  - assert (Ha : to_ascii (sg ++ ds) = sg ++ map ascii_digit ds).
    { rewrite (to_ascii_sign _ _ Hsg). rewrite <- (app_nil_r ds) at 1.
      rewrite (to_ascii_digits _ [] Hds). cbn [to_ascii]. rewrite app_nil_r. reflexivity. }
    pose proof (ascii_digits_are_digits _ Hds) as HD.
    rewrite (py_float_plain _ _ Ha).
    + rewrite (parse_float_int _ _ Hsg HD), (digits_value_ascii _ Hds); [reflexivity|].
      destruct ds; [congruence|discriminate].
    + apply forallb_app_intro; [apply sign_plain; assumption|].
      exact (forallb_weaken _ _ _ ascii_digit_plain HD).
  - assert (Ha : to_ascii (sg ++ ds ++ chr "." :: fs) =
                 sg ++ map ascii_digit ds ++ chr "." :: map ascii_digit fs).
    { rewrite (to_ascii_sign _ _ Hsg), (to_ascii_digits _ _ Hds).
      change (to_ascii (chr "." :: fs)) with (chr "." :: to_ascii fs).
      rewrite <- (app_nil_r fs) at 1.
      rewrite (to_ascii_digits _ [] Hfs). cbn [to_ascii]. rewrite app_nil_r. reflexivity. }
    pose proof (ascii_digits_are_digits _ Hds) as HD.
    pose proof (ascii_digits_are_digits _ Hfs) as HF.
    rewrite (py_float_plain _ _ Ha).
    + rewrite (parse_float_frac _ _ _ Hsg HD HF).
      * rewrite <- map_app, (digits_value_ascii (ds ++ fs)), length_map; [reflexivity|].
        unfold digits. rewrite forallb_app. unfold digits in Hds, Hfs. rewrite Hds, Hfs. reflexivity.
      * destruct fs; [congruence|discriminate].
    + apply forallb_app_intro; [apply sign_plain; assumption|].
      apply forallb_app_intro; [exact (forallb_weaken _ _ _ ascii_digit_plain HD)|].
      cbn [forallb]. rewrite (forallb_weaken _ _ _ ascii_digit_plain HF). reflexivity.
Qed.

(** What [float] gives for a numeral is the number it denotes, rounded. *)
Lemma value_of_denotes : forall w neg m k,
  value_of w neg m k -> denotes w (decimal_to_float neg m (- Z.of_nat k)).
Proof.
  intros w neg m k H. exists neg, m, k. split; [exact H|].
  apply decimal_to_float_rounds.
Qed.

(** A numeral denotes one number only. *)
Lemma value_of_unique : forall w neg m k neg' m' k',
  value_of w neg m k -> value_of w neg' m' k' ->
  decimal_to_float neg m (- Z.of_nat k) = decimal_to_float neg' m' (- Z.of_nat k').
Proof.
  intros w neg m k neg' m' k' H H'.
  pose proof (py_float_value_of _ _ _ _ H) as E.
  rewrite (py_float_value_of _ _ _ _ H') in E. congruence.
Qed.

(** [float] accepts every numeral and gives the number it denotes,
    rounded; no other float is that. *)
Lemma py_float_denotes : forall w v, denotes w v -> py_float w = Some v.
Proof.
  intros w v (neg & m & k & Hv & Hr).
  rewrite (py_float_value_of _ _ _ _ Hv). f_equal.
  apply (rounds_to_unique neg (Z.of_N m * 2 ^ 1074) (10 ^ Z.of_nat k))%Z;
    [apply Z.pow_pos_nonneg; lia | apply decimal_to_float_rounds | exact Hr].
Qed.

Lemma numeral_denotes : forall w, numeral w -> exists v, denotes w v.
Proof.
  intros w (neg & m & k & H). eexists. exact (value_of_denotes _ _ _ _ H).
Qed.


End Numerals.

(* ================================================================== *)
(** * What [re.search] finds in a line *)

Section Parsing.
Context {U : UnicodeData}.

Lemma comma_other_first : forall s, other_first (py ",True:" ++ s).
Proof. intros s. split; [reflexivity | discriminate]. Qed.

(** Where the line has the format, the pattern matches. *)
Lemma match_here_complete : forall n1 n2 post pos,
  numeral n1 -> numeral n2 ->
  match_here (py "Pred:" ++ n1 ++ py ",True:" ++ n2 ++ post) pos <> None.
Proof.
  intros n1 n2 post pos H1 H2. unfold match_here.
  rewrite strip_prefix_here.
  destruct (longest_numeral_complete n1 (py ",True:" ++ n2 ++ post) H1)
    as (ext & rest & Hl & Hp & Hext).
  rewrite (Hext (comma_other_first _)) in Hl, Hp. rewrite app_nil_r in Hl.
  cbn [app] in Hp. rewrite Hl, <- Hp.
  change (py ",True:" ++ n2 ++ post) with (py ",True:" ++ (n2 ++ post)).
  rewrite strip_prefix_here.
  destruct (longest_numeral_complete n2 post H2) as (ext2 & rest2 & Hl2 & _).
  rewrite Hl2. discriminate.
Qed.

(** What a successful match at the start of [s] says about [s]. *)
Lemma match_here_sound : forall s pos e caps,
  match_here s pos = Some (e, caps) ->
  exists n1 n2 post,
    s = py "Pred:" ++ n1 ++ py ",True:" ++ n2 ++ post /\
    numeral n1 /\ numeral n2 /\
    longest_numeral (n2 ++ post) = Some (n2, post) /\
    caps = [(2, (pos + 5 + length n1 + 6, pos + 5 + length n1 + 6 + length n2));
            (1, (pos + 5, pos + 5 + length n1))].
Proof.
  intros s pos e caps H. unfold match_here in H.
  destruct (strip_prefix (py "Pred:") s) as [r|] eqn:E0; [|discriminate].
  destruct (longest_numeral r) as [[n1 r1]|] eqn:E1; [|discriminate].
  destruct (strip_prefix (py ",True:") r1) as [r2|] eqn:E2; [|discriminate].
  destruct (longest_numeral r2) as [[n2 r3]|] eqn:E3; [|discriminate].
  inversion H; subst; clear H.
  apply strip_prefix_app in E0, E2.
  destruct (longest_numeral_sound _ _ _ E1) as [Hr Hn1].
  destruct (longest_numeral_sound _ _ _ E3) as [Hr2 Hn2].
  exists n1, n2, r3. subst s r r1. rewrite <- Hr2.
  repeat split; auto.
Qed.

Lemma lookup_group_1 : forall a b, lookup_group 1 [(2, a); (1, b)] = Some b.
Proof. reflexivity. Qed.

Lemma lookup_group_2 : forall a b, lookup_group 2 [(2, a); (1, b)] = Some a.
Proof. reflexivity. Qed.

(** A match object of the pattern: the line has the format where the match
    starts, nowhere before, and the groups are the two numerals, the second
    one as long as it can be. *)
Lemma re_search_pattern_found : forall line m,
  re_search pattern line = Some m ->
  exists pre n1 n2 post,
    occurs line pre n1 n2 post /\
    m_start m = length pre /\
    group m 1 = n1 /\ group m 2 = n2 /\
    (forall pre' m1 m2 post', occurs line pre' m1 m2 post' -> length pre <= length pre') /\
    (forall m2 post', n2 ++ post = m2 ++ post' -> numeral m2 -> length m2 <= length n2).
Proof.
  intros line m H. unfold re_search in H.
  destruct (search_from_found _ _ _ _ _ H) as (pre & s1 & Hline & Hstr & Hst & Hm & Hmin).
  cbn [Nat.add] in *. rewrite rmatch_pattern in Hm.
  destruct (match_here_sound _ _ _ _ Hm) as (n1 & n2 & post & Hs1 & Hn1 & Hn2 & Hlong & Hcaps).
  exists pre, n1, n2, post. subst s1.
  split; [|split; [|split; [|split; [|split]]]].
  - split; [exact Hline | split; assumption].
  - exact Hst.
  - unfold group. rewrite Hcaps, lookup_group_1, Hstr, Hline.
    change (pre ++ py "Pred:" ++ n1 ++ py ",True:" ++ n2 ++ post)
      with (pre ++ py "Pred:" ++ n1 ++ (py ",True:" ++ n2 ++ post)).
    rewrite (app_assoc pre (py "Pred:")).
    replace (length pre + 5) with (length (pre ++ py "Pred:"))
      by (rewrite length_app; reflexivity).
    apply substr_middle.
  - unfold group. rewrite Hcaps, lookup_group_2, Hstr, Hline.
    replace (pre ++ py "Pred:" ++ n1 ++ py ",True:" ++ n2 ++ post)
      with ((pre ++ py "Pred:" ++ n1 ++ py ",True:") ++ n2 ++ post)
      by (rewrite <- !app_assoc; reflexivity).
    replace (length pre + 5 + length n1 + 6)
      with (length (pre ++ py "Pred:" ++ n1 ++ py ",True:"))
      by (rewrite !length_app; cbn [length py list_ascii_of_string map]; lia).
    apply substr_middle.
  - intros pre' m1 m2 post' (Hocc & Hm1 & Hm2).
    destruct (Nat.le_gt_cases (length pre) (length pre')) as [|Hlt]; [assumption|].
    exfalso.
    pose proof (Hmin pre' _ Hocc Hlt) as Hnone. rewrite rmatch_pattern in Hnone.
    exact (match_here_complete m1 m2 post' _ Hm1 Hm2 Hnone).
  - intros m2 post' Heq Hm2.
    destruct (longest_numeral_complete m2 post' Hm2) as (ext & rest & Hl & _).
    rewrite <- Heq, Hlong in Hl. inversion Hl. rewrite length_app. lia.
Qed.


(** [float] succeeds on both groups of a match. *)
Lemma float_of_groups : forall line m,
  re_search pattern line = Some m ->
  exists p t, py_float (group m 1) = Some p /\ py_float (group m 2) = Some t /\
              denotes (group m 1) p /\ denotes (group m 2) t.
Proof.
  intros line m H.
  destruct (re_search_pattern_found _ _ H)
    as (pre & n1 & n2 & post & (_ & Hn1 & Hn2) & _ & H1 & H2 & _).
  destruct (numeral_denotes _ Hn1) as [p Hp]. destruct (numeral_denotes _ Hn2) as [t Ht].
  exists p, t. rewrite H1, H2.
  repeat split; auto using py_float_denotes.
Qed.


Lemma parse_line_of_match : forall text m,
  re_search pattern (strip text) = Some m ->
  exists p t, parse_line text = Ret (Some (p, t)).
Proof.
  intros text m H. destruct (float_of_groups _ _ H) as (p & t & Hp & Ht & _).
  exists p, t. unfold parse_line. rewrite H, Hp, Ht. reflexivity.
Qed.

Lemma parse_line_of_no_match : forall text,
  re_search pattern (strip text) = None -> parse_line text = Ret None.
Proof. intros text H. unfold parse_line. rewrite H. reflexivity. Qed.

Lemma parse_line_total : forall text, exists r, parse_line text = Ret r.
Proof.
  intros text. destruct (re_search pattern (strip text)) as [m|] eqn:E.
  - destruct (parse_line_of_match _ _ E) as (p & t & H). eauto.
  - rewrite (parse_line_of_no_match _ E). eauto.
Qed.

End Parsing.








(* ================================================================== *)
(** * The reader loop *)

Section Loop.
Context {U : UnicodeData}.

Lemma while_running_stopped : forall script g c,
  running g = false -> while_running script g c = (Exited, g, c).
Proof. intros [|ev script] g c H; cbn [while_running]; rewrite H; reflexivity. Qed.


Lemma loop_body_cases : forall text g c,
  (parse_line text = Ret None /\ loop_body text g c = Ret (g, c)) \/
  (exists p t, parse_line text = Ret (Some (p, t)) /\
     loop_body text g c =
     Ret (append_x c (append_true t (append_pred p g)), S c)).
Proof.
  intros text g c. unfold loop_body.
  destruct (parse_line_total text) as [[[p t]|] H]; rewrite H; cbn [bind].
  - right. exists p, t. split; reflexivity.
  - left. split; reflexivity.
Qed.



Lemma has_numbers_parse : forall text,
  has_numbers text = false <-> parse_line text = Ret None.
Proof.
  intros text. unfold has_numbers. split; intros H.
  - destruct (re_search pattern (strip text)) eqn:E; [discriminate|].
    exact (parse_line_of_no_match _ E).
  - destruct (re_search pattern (strip text)) as [m|] eqn:E; [|reflexivity].
    destruct (parse_line_of_match _ _ E) as (p & t & Hpt). congruence.
Qed.

(** The loop is still going at the end of the script exactly when the
    script has texts only. *)
Lemma while_running_pending : forall script g c,
  running g = true ->
  (fst (fst (while_running script g c)) = Pending <-> forallb is_text script = true).
Proof.
  induction script as [|ev script IH]; intros g c Hr.
  - cbn [while_running]. rewrite Hr. cbn. tauto.
  - cbn [while_running]. rewrite Hr. destruct ev as [|[text|e]].
    + rewrite while_running_stopped by reflexivity. cbn. split; discriminate.
    + cbn [forallb is_text andb].
      destruct (loop_body_cases text g c) as [[_ Hb]|(p & t & _ & Hb)]; rewrite Hb;
        apply IH; exact Hr.
    + cbn. split; discriminate.
Qed.

Lemma while_running_flag : forall script g c,
  fst (fst (while_running script g c)) = Exited ->
  running (snd (fst (while_running script g c))) = false.
Proof.
  induction script as [|ev script IH]; intros g c; cbn [while_running];
    destruct (running g) eqn:Hr; try (cbn; congruence).
  destruct ev as [|[text|e]].
  - intros _. rewrite while_running_stopped by reflexivity. reflexivity.
  - destruct (loop_body text g c) as [[g' c']|e]; [apply IH | cbn; discriminate].
  - cbn. discriminate.
Qed.

End Loop.



(* ================================================================== *)
(** * The serial port at the end of [read_serial] *)

Section Port.
Context {U : UnicodeData}.

Lemma while_running_cases : forall script g c,
  running g = true ->
  exists g' c',
    (forallb is_text script = true /\ while_running script g c = (Pending, g', c')) \/
    (forallb is_text script = false /\
     ((while_running script g c = (Exited, g', c') /\ running g' = false) \/
      exists e, while_running script g c = (Raised e, g', c'))).
Proof.
  intros script g c Hr.
  pose proof (while_running_pending script g c Hr) as Hp.
  pose proof (while_running_flag script g c) as Hf.
  destruct (while_running script g c) as [[e g'] c']. cbn [fst snd] in *.
  exists g', c'. destruct e as [|e|].
  - right. split.
    + destruct (forallb is_text script); [|reflexivity].
      destruct Hp as [_ Hp]. discriminate (Hp eq_refl).
    + left. split; [reflexivity | exact (Hf eq_refl)].
  - right. split.
    + destruct (forallb is_text script); [|reflexivity].
      destruct Hp as [_ Hp]. discriminate (Hp eq_refl).
    + right. exists e. reflexivity.
  - left. split; [apply Hp; reflexivity | reflexivity].
Qed.

Lemma except_clause_status : forall e g,
  fst (except_clause e g) = if handled e then Returned else Uncaught e.
Proof. intros e g. unfold except_clause. destruct (handled e); reflexivity. Qed.

End Port.

Ltac settle_port :=
  cbn; repeat split; intros;
  repeat match goal with
         | H : _ /\ _ |- _ => destruct H
         | H : Raise _ = Raise _ |- _ => inversion H; subst; clear H
         end;
  try congruence; try discriminate; auto.

(** C6. [read_serial] is still in its loop when the script of events ends
    only if the port opened, the flag was set and every event was a text
    read; in every other case it has ended, by the flag, by an exception of
    [readline] or by one of [serial.Serial].  Whenever it has ended, [running]
    is false and the port, if it was opened, is closed; if opening it raised,
    [ser] is unbound, the [finally] clause skips the [close] and raises
    nothing of its own: the call returns when the exception was a
    [SerialException] and passes the same exception on otherwise. *)
Theorem port_is_closed_when_read_serial_ends :
  forall (U : UnicodeData) (opened : result unit) (script : list event) (g : globals),
    let o := read_serial opened script g in
    (o_status o = Looping <->
       opened = Ret tt /\ running g = true /\ forallb is_text script = true) /\
    (o_status o = Looping -> o_ser o = Some {| is_open := true |}) /\
    (o_status o <> Looping ->
       running (o_globals o) = false /\
       match opened with
       | Ret _ => o_ser o = Some {| is_open := false |}
       | Raise _ => o_ser o = None
       end) /\
    (forall e, opened = Raise e ->
       o_ser o = None /\
       o_status o = if handled e then Returned else Uncaught e).
Proof.
  intros U opened script g o. subst o. destruct opened as [[]|e0].
  - unfold read_serial.
    set (g0 := print _ g).
    destruct (running g) eqn:Hr.
    + destruct (while_running_cases script g0 0 Hr)
        as (g' & c' & [[Ht Hw]|[Ht [[Hw Hf]|[e Hw]]]]); rewrite Hw.
      * settle_port.
      * rewrite Ht. settle_port.
      * rewrite Ht. unfold except_clause. destruct (handled e); settle_port.
    + rewrite (while_running_stopped script g0 0 Hr). settle_port.
  - unfold read_serial, except_clause. destruct (handled e0) eqn:He; settle_port;
      rewrite He; reflexivity.
Qed.

Lemma port_is_closed_when_read_serial_ends_witness :
  let script := [Readline (Ret (py "Pred:1,True:2"));
                 Readline (Raise (SerialException (py "device disconnected")))] in
  o_status
     (@read_serial ascii_only (Ret tt) [Readline (Ret (py "garbage"))] (initial 3))
    = Looping /\
  o_ser
     (@read_serial ascii_only (Ret tt) [Readline (Ret (py "garbage"))] (initial 3))
    = Some {| is_open := true |} /\
  (running (o_globals (@read_serial ascii_only (Ret tt) script (initial 3)))
     = false /\
   o_ser (@read_serial ascii_only (Ret tt) script (initial 3))
     = Some {| is_open := false |}) /\
  (o_ser
     (@read_serial ascii_only (Raise (SerialException (py "no such port"))) script (initial 3))
     = None /\
   o_status
     (@read_serial ascii_only (Raise (SerialException (py "no such port"))) script (initial 3))
     = Returned).
Proof.
  intros script.
  pose proof (port_is_closed_when_read_serial_ends ascii_only (Ret tt)
                [Readline (Ret (py "garbage"))] (initial 3)) as H1.
  pose proof (port_is_closed_when_read_serial_ends ascii_only (Ret tt) script (initial 3)) as H2.
  pose proof (port_is_closed_when_read_serial_ends ascii_only
                (Raise (SerialException (py "no such port"))) script (initial 3)) as H3.
  cbv zeta in H1, H2, H3.
  destruct H1 as (H1 & H1' & _). destruct H2 as (_ & _ & H2 & _).
  destruct H3 as (_ & _ & _ & H3).
  assert (HL : o_status
                 (@read_serial ascii_only (Ret tt) [Readline (Ret (py "garbage"))] (initial 3))
               = Looping).
  { apply H1. repeat split; reflexivity. }
  split; [exact HL | split; [exact (H1' HL) | split]].
  - apply H2. vm_compute. discriminate.
  - apply (H3 _ eq_refl).
Defined.

(* ================================================================== *)
(** * Three lines, end to end *)

(** C9. After the three texts [Pred:0.50,True:0.52], [garbage] and
    [Pred:-0.10,True:-0.08] the deques hold exactly two samples: the floats
    of 0.50 and 0.52 with number 0, and the floats of -0.10 and -0.08 with
    number 1.  [update] then shows the error [Current Error: 0.0200], that is
    0.02 to the four decimals it displays; the float it computes for the
    error is 0.02 to within [10^-17], one unit in the last place (it is the
    float next above the float of 0.02). *)
Theorem three_lines_give_two_samples : forall U : UnicodeData,
  let script := [Readline (Ret (py "Pred:0.50,True:0.52"));
                 Readline (Ret (py "garbage"));
                 Readline (Ret (py "Pred:-0.10,True:-0.08"))] in
  let g := o_globals (read_serial (Ret tt) script (initial MAX_POINTS)) in
  let error := float_abs (float_sub (decimal_to_float true 10 (-2))
                                    (decimal_to_float true 8 (-2))) in
  snapshot g =
    ([decimal_to_float false 50 (-2); decimal_to_float true 10 (-2)],
     [decimal_to_float false 52 (-2); decimal_to_float true 8 (-2)],
     [0; 1]) /\
  numbers_of (texts_read script) =
    [(decimal_to_float false 50 (-2), decimal_to_float false 52 (-2));
     (decimal_to_float true 10 (-2), decimal_to_float true 8 (-2))] /\
  update g initial_figure =
    Ret {| line_pred := {| xdata := RangeTo 2; ydata := TheDeque DataPred |};
           line_true := {| xdata := RangeTo 2; ydata := TheDeque DataTrue |};
           xlim := (0, 2);
           error_text := py "Current Error: " ++ format_f 4 error |} /\
  format_f 4 error = py "0.0200" /\
  near error 2 100 17 /\
  decimal_to_float false 2 (-2) = S754_finite false 5764607523034235 (-58) /\
  error = S754_finite false (5764607523034235 + 1) (-58).
Proof.
  intros U. vm_compute. repeat split.
Qed.

(* ================================================================== *)
(** * The two threads: what holds in every state reached *)

Section Interleaving.
Context {U : UnicodeData}.


Lemma deques_hold_same : forall n g g' ps ts xs,
  data_pred g' = data_pred g -> data_true g' = data_true g -> data_x g' = data_x g ->
  deques_hold n g ps ts xs -> deques_hold n g' ps ts xs.
Proof.
  intros n g g' ps ts xs H1 H2 H3 (Hp & Ht & Hx). unfold deques_hold.
  rewrite H1, H2, H3. auto.
Qed.

Lemma numbers_of_app : forall a b, numbers_of (a ++ b) = numbers_of a ++ numbers_of b.
Proof. intros a b. unfold numbers_of. apply flat_map_app. Qed.

Lemma numbers_of_one : forall text,
  numbers_of [text] = match parse_line text with Ret (Some pt) => [pt] | _ => [] end.
Proof.
  intros text. unfold numbers_of. cbn [flat_map]. apply app_nil_r.
Qed.

Lemma consistent_start : forall n opened lines, consistent n lines (start n opened lines).
Proof.
  intros n opened lines. exists [], []. cbn.
  split; [reflexivity | split; [left; reflexivity | split; [discriminate|]]].
  repeat split.
Qed.

Lemma tail_stays : forall (tail : list (result str)) p p',
  (tail = [] \/ (ending p = true /\ exists e, tail = [Raise e])) ->
  (ending p = true -> ending p' = true) ->
  tail = [] \/ (ending p' = true /\ exists e, tail = [Raise e]).
Proof. intros tail p p' [H|[H1 H2]] Hp; [left | right]; auto. Qed.

Lemma tail_empty : forall (tail : list (result str)) p,
  (tail = [] \/ (ending p = true /\ exists e, tail = [Raise e])) ->
  ending p = false -> tail = [].
Proof. intros tail p [H|[H1 H2]] Hp; [assumption | congruence]. Qed.

Lemma consistent_reader : forall n lines s g t inp,
  consistent n lines s ->
  reader_step (sys_opened s) (sys_globals s) (reader s) (input s) = Some (g, t, inp) ->
  consistent n lines (with_reader s g t inp).
Proof.
  intros n lines s g t inp (texts & tail & Hlines & Htail & Hmain & Hpc) H.
  unfold reader_step in H. unfold consistent. cbn [with_reader input reader main sys_globals].
  assert (Hm : forall t', finished (reader s) = false ->
                          main s = Exit -> finished t' = true).
  { intros t' Hf He. rewrite (Hmain He) in Hf. discriminate. }
  destruct (pc (reader s)) eqn:Epc.
  - (* AtOpen *)
    destruct Hpc as (-> & Hc & Hd).
    pose proof (tail_empty _ _ Htail eq_refl) as ->.
    destruct (sys_opened s) as [[]|e]; injection H as <- <- <-;
      exists [], []; cbn [pc counter at_pc map app numbers_of flat_map length seq];
      (split; [exact Hlines|]); (split; [left; reflexivity|]);
      (split; [apply Hm; unfold finished; rewrite Epc; reflexivity|]).
    + split; [reflexivity|]. eapply deques_hold_same; [..|exact Hd]; reflexivity.
    + split; [exact Hc | exact Hd].
  - (* AtTest *)
    injection H as <- <- <-.
    pose proof (tail_empty _ _ Htail eq_refl) as ->.
    exists texts, []. cbn [pc counter at_pc].
    split; [exact Hlines|]. split; [left; reflexivity|].
    split; [apply Hm; unfold finished; rewrite Epc; reflexivity|].
    destruct (running (sys_globals s)); exact Hpc.
  - (* AtRead *)
    pose proof (tail_empty _ _ Htail eq_refl) as ->.
    destruct Hpc as (Hc & Hd).
    destruct (input s) as [|[text|e] rest] eqn:Ein; [discriminate| |].
    + destruct (parse_line_total text) as [r Hr]. rewrite Hr in H.
      assert (Hl : lines = map Ret (texts ++ [text]) ++ [] ++ rest).
      { rewrite Hlines, map_app, <- app_assoc. reflexivity. }
      destruct r as [[p v]|]; injection H as <- <- <-;
        exists (texts ++ [text]), []; cbn [pc counter at_pc];
        (split; [exact Hl|]); (split; [left; reflexivity|]);
        (split; [apply Hm; unfold finished; rewrite Epc; reflexivity|]);
        rewrite numbers_of_app, numbers_of_one, Hr.
      * exists (numbers_of texts). split; [reflexivity | split; [exact Hc | exact Hd]].
      * rewrite app_nil_r. split; assumption.
    + injection H as <- <- <-.
      exists texts, [Raise e]. cbn [pc counter at_pc].
      split; [exact Hlines|]. split; [right; split; [reflexivity | eauto]|].
      split; [apply Hm; unfold finished; rewrite Epc; reflexivity|].
      split; assumption.
  - (* AtAppendPred *)
    injection H as <- <- <-.
    pose proof (tail_empty _ _ Htail eq_refl) as ->.
    destruct Hpc as (done & Hns & Hc & Hp & Ht & Hx).
    exists texts, []. cbn [pc counter at_pc].
    split; [exact Hlines|]. split; [left; reflexivity|].
    split; [apply Hm; unfold finished; rewrite Epc; reflexivity|].
    exists done, pred_val. split; [exact Hns|]. split; [exact Hc|].
    unfold deques_hold. cbn [append_pred data_pred data_true data_x].
    rewrite Hns, map_app. cbn [map fst]. rewrite appends_snoc, Hp. auto.
  - (* AtAppendTrue *)
    injection H as <- <- <-.
    pose proof (tail_empty _ _ Htail eq_refl) as ->.
    destruct Hpc as (done & p & Hns & Hc & Hp & Ht & Hx).
    exists texts, []. cbn [pc counter at_pc].
    split; [exact Hlines|]. split; [left; reflexivity|].
    split; [apply Hm; unfold finished; rewrite Epc; reflexivity|].
    exists done, (p, true_val). split; [exact Hns|]. split; [exact Hc|].
    unfold deques_hold. cbn [append_true data_pred data_true data_x].
    rewrite Hns at 2. rewrite map_app. cbn [map snd]. rewrite appends_snoc, Ht. auto.
  - (* AtAppendX *)
    injection H as <- <- <-.
    pose proof (tail_empty _ _ Htail eq_refl) as ->.
    destruct Hpc as (done & pt & Hns & Hc & Hp & Ht & Hx).
    exists texts, []. cbn [pc counter at_pc].
    split; [exact Hlines|]. split; [left; reflexivity|].
    split; [apply Hm; unfold finished; rewrite Epc; reflexivity|].
    exists done, pt. split; [exact Hns|]. split; [exact Hc|].
    unfold deques_hold. cbn [append_x data_pred data_true data_x].
    split; [exact Hp | split; [exact Ht|]].
    rewrite Hns at 1. rewrite length_app. cbn [length]. rewrite Nat.add_1_r, seq_S.
    rewrite appends_snoc, Hx, Hc. reflexivity.
  - (* AtIncrement *)
    injection H as <- <- <-.
    pose proof (tail_empty _ _ Htail eq_refl) as ->.
    destruct Hpc as (done & pt & Hns & Hc & Hd).
    exists texts, []. cbn [pc counter].
    split; [exact Hlines|]. split; [left; reflexivity|].
    split; [apply Hm; unfold finished; rewrite Epc; reflexivity|].
    split; [|exact Hd]. rewrite Hc, Hns, length_app. cbn [length]. lia.
  - (* AtExcept *)
    unfold except_clause in H. destruct Hpc as (Hc & Hd).
    destruct (handled e); injection H as <- <- <-;
      exists texts, tail; cbn [pc counter at_pc];
      (split; [exact Hlines|]);
      (split; [apply (tail_stays _ _ _ Htail); intros _; reflexivity|]);
      (split; [apply Hm; unfold finished; rewrite Epc; reflexivity|]);
      (split; [exact Hc|]).
    + eapply deques_hold_same; [..|exact Hd]; reflexivity.
    + exact Hd.
  - (* AtFinally *)
    unfold finally_clause in H. destruct Hpc as (Hc & Hd).
    injection H as <- <- <-.
    exists texts, tail. cbn [pc counter].
    split; [exact Hlines|].
    split; [apply (tail_stays _ _ _ Htail); intros _; reflexivity|].
    split; [reflexivity|]. split; [exact Hc|].
    eapply deques_hold_same; [..|exact Hd]; reflexivity.
  - discriminate.
Qed.

Lemma consistent_main : forall n lines s g fig m,
  consistent n lines s ->
  data_pred g = data_pred (sys_globals s) ->
  data_true g = data_true (sys_globals s) ->
  data_x g = data_x (sys_globals s) ->
  (m = Exit -> finished (reader s) = true) ->
  consistent n lines (with_main s g fig m).
Proof.
  intros n lines s g fig m (texts & tail & Hlines & Htail & Hmain & Hpc) H1 H2 H3 Hm.
  exists texts, tail. cbn [with_main input reader main sys_globals].
  split; [exact Hlines|]. split; [exact Htail|]. split; [exact Hm|].
  cbv zeta in Hpc |- *.
  assert (Hsame : forall ps ts xs,
             deques_hold n (sys_globals s) ps ts xs -> deques_hold n g ps ts xs).
  { intros ps ts xs. apply deques_hold_same; assumption. }
  destruct (pc (reader s)).
  - destruct Hpc as (Ht & Hc & Hd). auto.
  - destruct Hpc as (Hc & Hd). auto.
  - destruct Hpc as (Hc & Hd). auto.
  - destruct Hpc as (done & Hns & Hc & Hd). exists done. auto.
  - destruct Hpc as (done & p & Hns & Hc & Hd). exists done, p. auto.
  - destruct Hpc as (done & pt & Hns & Hc & Hd). exists done, pt. auto.
  - destruct Hpc as (done & pt & Hns & Hc & Hd). exists done, pt. auto.
  - destruct Hpc as (Hc & Hd). auto.
  - destruct Hpc as (Hc & Hd). auto.
  - destruct Hpc as (Hc & Hd). auto.
Qed.

Lemma consistent_step : forall n lines s s',
  consistent n lines s -> step s s' -> consistent n lines s'.
Proof.
  intros n lines s s' Hc Hs. destruct Hs.
  - apply consistent_reader; assumption.
  - apply consistent_main; auto. congruence.
  - apply consistent_main; auto. discriminate.
  - apply consistent_main; auto. discriminate.
  - apply consistent_main; auto.
Qed.

Lemma reachable_consistent : forall n opened lines s,
  reachable (start n opened lines) s -> consistent n lines s.
Proof.
  intros n opened lines s H. induction H.
  - apply consistent_start.
  - eapply consistent_step; eassumption.
Qed.


Lemma do_move_step : forall mv s s', do_move mv s = Some s' -> step s s'.
Proof.
  intros mv s s' H. unfold do_move in H. destruct mv.
  - destruct (reader_step _ _ _ _) as [[[g t] inp]|] eqn:E; [|discriminate].
    injection H as <-. apply step_reader. exact E.
  - destruct (main s) eqn:Em; try discriminate.
    destruct (update _ _) as [fig|] eqn:E; [|discriminate].
    injection H as <-. apply step_tick; assumption.
  - destruct (main s) eqn:Em; try discriminate.
    injection H as <-. apply step_window_closed; assumption.
  - destruct (main s) eqn:Em; try discriminate.
    injection H as <-. apply step_stop; assumption.
  - destruct (main s) eqn:Em; try discriminate.
    destruct (finished (reader s)) eqn:Ef; [|discriminate].
    injection H as <-. apply step_join; assumption.
Qed.

Lemma reachable_trans : forall s1 s2 s3,
  reachable s1 s2 -> reachable s2 s3 -> reachable s1 s3.
Proof.
  intros s1 s2 s3 H12 H23. induction H23; [assumption|].
  eapply reach_step; eassumption.
Qed.

Lemma run_reachable : forall schedule s s', run schedule s = Some s' -> reachable s s'.
Proof.
  induction schedule as [|mv rest IH]; intros s s' H; cbn [run] in H.
  - injection H as <-. apply reach_refl.
  - destruct (do_move mv s) as [s1|] eqn:E; [|discriminate].
    apply (reachable_trans s s1 s').
    + eapply reach_step; [apply reach_refl | exact (do_move_step _ _ _ E)].
    + apply IH. exact H.
Qed.

Lemma window_map : forall (A B : Type) (f : A -> B) n l,
  window n (map f l) = map f (window n l).
Proof.
  intros A B f n l. unfold window. rewrite length_map. apply skipn_map.
Qed.

Lemma number_samples_fields : forall ns k,
  map predicted (combine ns (seq k (length ns))) = map fst ns /\
  map actual (combine ns (seq k (length ns))) = map snd ns /\
  map sequence (combine ns (seq k (length ns))) = seq k (length ns).
Proof.
  induction ns as [|[p t] ns IH]; intros k; [repeat split|].
  cbn [length seq combine map]. destruct (IH (S k)) as (H1 & H2 & H3).
  rewrite H1, H2, H3. repeat split.
Qed.

(** Deques that hold the appends of whole samples show the last [n]. *)
Lemma snapshot_whole : forall n g ns,
  deques_hold n g (map fst ns) (map snd ns) (seq 0 (length ns)) ->
  snapshot g = whole n ns.
Proof.
  intros n g ns (Hp & Ht & Hx). unfold snapshot, whole, number_samples.
  rewrite Hp, Ht, Hx, !items_appends_new.
  destruct (number_samples_fields ns 0) as (H1 & H2 & H3).
  rewrite <- !window_map, H1, H2, H3. reflexivity.
Qed.

Lemma snapshot_hold : forall n g ps ts xs,
  deques_hold n g ps ts xs -> snapshot g = (window n ps, window n ts, window n xs).
Proof.
  intros n g ps ts xs (Hp & Ht & Hx). unfold snapshot.
  rewrite Hp, Ht, Hx, !items_appends_new. reflexivity.
Qed.

End Interleaving.

(** C10. Whenever the reader is at the test of its loop, it has read some
    texts of the input, its counter is the number of pairs they gave, and
    the three deques are parallel: they have the same length and, at every
    index, hold the predicted value, the true value and the number of the
    same sample, the samples retained being the last [n]. *)
Theorem deques_are_parallel_at_the_loop_test :
  forall (U : UnicodeData) (n : nat) (opened : result unit)
         (lines : list (result str)) (s : sys),
    reachable (start n opened lines) s ->
    pc (reader s) = AtTest ->
    exists texts,
      lines = map Ret texts ++ input s /\
      counter (reader s) = length (numbers_of texts) /\
      let g := sys_globals s in
      let retained := window n (number_samples (numbers_of texts)) in
      len (data_pred g) = len (data_x g) /\
      len (data_true g) = len (data_x g) /\
      forall i,
        nth_error (items (data_pred g)) i = option_map predicted (nth_error retained i) /\
        nth_error (items (data_true g)) i = option_map actual (nth_error retained i) /\
        nth_error (items (data_x g)) i = option_map sequence (nth_error retained i).
Proof.
  intros U n opened lines s Hreach Hpc.
  destruct (reachable_consistent _ _ _ _ Hreach)
    as (texts & tail & Hlines & Htail & _ & Hat).
  rewrite Hpc in Hat, Htail. cbv zeta in Hat. destruct Hat as (Hc & Hd).
  rewrite (tail_empty _ _ Htail eq_refl) in Hlines.
  exists texts. split; [exact Hlines | split; [exact Hc|]].
  pose proof (snapshot_whole _ _ _ Hd) as Hs. unfold snapshot, whole in Hs.
  injection Hs as Hp Ht Hx. cbv zeta. unfold len. rewrite Hp, Ht, Hx.
  rewrite !length_map. repeat split; apply nth_error_map.
Qed.

Lemma deques_are_parallel_at_the_loop_test_witness :
  exists s,
    @run ascii_only (repeat Reader 9)
         (start 3 (Ret tt) [Ret (py "Pred:0.50,True:0.52"); Ret (py "garbage")]) = Some s /\
    exists texts,
      [Ret (py "Pred:0.50,True:0.52"); Ret (py "garbage")] = map Ret texts ++ input s /\
      counter (reader s) = length (@numbers_of ascii_only texts) /\
      len (data_pred (sys_globals s)) = len (data_x (sys_globals s)) /\
      len (data_true (sys_globals s)) = len (data_x (sys_globals s)) /\
      forall i,
        nth_error (items (data_pred (sys_globals s))) i =
          option_map predicted
            (nth_error (window 3 (number_samples (@numbers_of ascii_only texts))) i) /\
        nth_error (items (data_true (sys_globals s))) i =
          option_map actual
            (nth_error (window 3 (number_samples (@numbers_of ascii_only texts))) i) /\
        nth_error (items (data_x (sys_globals s))) i =
          option_map sequence
            (nth_error (window 3 (number_samples (@numbers_of ascii_only texts))) i).
Proof.
  destruct (@run ascii_only (repeat Reader 9)
              (start 3 (Ret tt) [Ret (py "Pred:0.50,True:0.52"); Ret (py "garbage")]))
    as [s|] eqn:E; [|vm_compute in E; discriminate].
  exists s. split; [reflexivity|].
  apply (deques_are_parallel_at_the_loop_test ascii_only 3 (Ret tt) _ s
           (run_reachable _ _ _ E)).
  vm_compute in E. injection E as <-. reflexivity.
Defined.

(* ================================================================== *)
(** * Reading the deques while the reader appends *)





(* ================================================================== *)
(** * After the join *)

Section Shutdown.
Context {U : UnicodeData}.

Lemma finished_cannot_move : forall opened g t inp,
  finished t = true -> reader_step opened g t inp = None.
Proof.
  intros opened g t inp H. unfold finished in H. unfold reader_step.
  destruct (pc t); try discriminate. reflexivity.
Qed.

(** Once the main thread is past the join, no thread has a statement
    left. *)
Lemma no_step_after_exit : forall s s',
  main s = Exit -> finished (reader s) = true -> step s s' -> False.
Proof.
  intros s s' Hm Hf Hs. destruct Hs as [s g t inp H| | | |]; try congruence.
  rewrite (finished_cannot_move _ _ _ _ Hf) in H. discriminate.
Qed.

Lemma reachable_after_exit : forall s s',
  main s = Exit -> finished (reader s) = true -> reachable s s' -> s' = s.
Proof.
  intros s s' Hm Hf H. induction H as [|s1 s2 H12 IH Hstep]; [reflexivity|].
  subst s1. exfalso. exact (no_step_after_exit _ _ Hm Hf Hstep).
Qed.

End Shutdown.

(** C5. Once line 135 has returned (the flag was cleared and the thread
    joined), the reader thread has finished, no statement of the program can
    still run, and so nothing is appended any more: whatever state is
    observed later is the same state, with the same deques. *)
Theorem nothing_is_appended_after_the_join :
  forall (U : UnicodeData) (n : nat) (opened : result unit)
         (lines : list (result str)) (s s' : sys),
    reachable (start n opened lines) s ->
    main s = Exit ->
    reachable s s' ->
    finished (reader s) = true /\
    s' = s /\
    snapshot (sys_globals s') = snapshot (sys_globals s).
Proof.
  intros U n opened lines s s' Hreach Hm Hlater.
  destruct (reachable_consistent _ _ _ _ Hreach) as (_ & _ & _ & _ & Hf & _).
  specialize (Hf Hm).
  pose proof (reachable_after_exit _ _ Hm Hf Hlater) as ->. auto.
Qed.

Lemma nothing_is_appended_after_the_join_witness :
  exists s,
    @run ascii_only [Reader; Reader; Reader; CloseWindow; Stop;
                     Reader; Reader; Reader; Reader; Reader; Reader; Join]
         (start MAX_POINTS (Ret tt) [Ret (py "Pred:0.50,True:0.52")]) = Some s /\
    main s = Exit /\
    finished (reader s) = true /\
    snapshot (sys_globals s) =
      ([decimal_to_float false 50 (-2)], [decimal_to_float false 52 (-2)], [0]).
Proof.
  destruct (@run ascii_only [Reader; Reader; Reader; CloseWindow; Stop;
                             Reader; Reader; Reader; Reader; Reader; Reader; Join]
              (start MAX_POINTS (Ret tt) [Ret (py "Pred:0.50,True:0.52")]))
    as [s|] eqn:E; [|vm_compute in E; discriminate].
  exists s. split; [reflexivity|].
  assert (Hm : main s = Exit) by (vm_compute in E; injection E as <-; reflexivity).
  destruct (nothing_is_appended_after_the_join ascii_only MAX_POINTS (Ret tt) _ s s
              (run_reachable _ _ _ E) Hm (reach_refl s)) as (Hf & _ & _).
  split; [exact Hm | split; [exact Hf|]].
  vm_compute in E. injection E as <-. reflexivity.
Defined.

(* ================================================================== *)
(** * The function [read_serial] and the reader thread agree *)

Section Agreement.
Context {U : UnicodeData}.


Lemma run_app : forall a b s,
  run (a ++ b) s = match run a s with Some s' => run b s' | None => None end.
Proof.
  induction a as [|mv a IH]; intros b s; [reflexivity|].
  cbn [app run]. destruct (do_move mv s); [apply IH | reflexivity].
Qed.

Lemma turn_without_numbers : forall g fig c opened text rest,
  running g = true -> parse_line text = Ret None ->
  run (repeat Reader 2) (at_test g fig c opened (Ret text :: rest)) =
  Some (at_test g fig c opened rest).
Proof.
  intros g fig c opened text rest Hr Hp.
  cbn [repeat run do_move at_test reader_step pc reader sys_globals input sys_opened
       with_reader at_pc ser counter main sys_figure].
  rewrite Hr. cbn [reader_step pc do_move reader sys_globals input sys_opened
                   with_reader at_pc ser counter main sys_figure].
  rewrite Hp. reflexivity.
Qed.

Lemma turn_with_numbers : forall g fig c opened text rest p t,
  running g = true -> parse_line text = Ret (Some (p, t)) ->
  run (repeat Reader 6) (at_test g fig c opened (Ret text :: rest)) =
  Some (at_test (append_x c (append_true t (append_pred p g))) fig (S c) opened rest).
Proof.
  intros g fig c opened text rest p t Hr Hp.
  cbn [repeat run do_move at_test reader_step pc reader sys_globals input sys_opened
       with_reader at_pc ser counter main sys_figure].
  rewrite Hr. cbn [reader_step pc do_move reader sys_globals input sys_opened
                   with_reader at_pc ser counter main sys_figure].
  rewrite Hp. reflexivity.
Qed.

Lemma loop_agrees : forall script g fig c opened,
  running g = true ->
  exists s,
    run (schedule_of script) (at_test g fig c opened (lines_of script)) = Some s /\
    agrees s (while_running script g c).
Proof.
  induction script as [|ev script IH]; intros g fig c opened Hr.
  - eexists. split.
    + cbn [schedule_of lines_of run do_move at_test reader_step pc reader sys_globals
           input sys_opened with_reader at_pc ser counter main sys_figure].
      rewrite Hr. reflexivity.
    + cbn [while_running]. rewrite Hr. repeat split.
  - destruct ev as [|[text|e]].
    + eexists. split.
      * cbn [schedule_of run do_move at_test main with_main sys_globals sys_figure
             reader sys_opened input reader_step pc set_running running
             with_reader at_pc ser counter finally_clause is_open close].
        reflexivity.
      * cbn [while_running]. rewrite Hr.
        rewrite while_running_stopped by reflexivity.
        repeat split.
    + cbn [schedule_of lines_of while_running]. rewrite Hr.
      destruct (loop_body_cases text g c) as [[Hp Hb]|(p & t & Hp & Hb)]; rewrite Hb.
      * assert (Hn : has_numbers text = false) by (apply has_numbers_parse; exact Hp).
        rewrite Hn, run_app, (turn_without_numbers _ _ _ _ _ _ Hr Hp).
        apply IH. exact Hr.
      * assert (Hn : has_numbers text = true).
        { destruct (has_numbers text) eqn:E; [reflexivity|].
          apply has_numbers_parse in E. congruence. }
        rewrite Hn, run_app, (turn_with_numbers _ _ _ _ _ _ _ _ Hr Hp).
        apply IH. exact Hr.
    + cbn [while_running]. rewrite Hr. unfold agrees.
      destruct (except_clause e g) as [st g'] eqn:Ex.
      eexists. split.
      * cbn [schedule_of lines_of repeat run do_move at_test reader_step pc reader
             sys_globals input sys_opened with_reader at_pc ser counter main sys_figure].
        rewrite Hr.
        cbn [reader_step pc do_move reader sys_globals input sys_opened
             with_reader at_pc ser counter main sys_figure].
        rewrite Ex.
        cbn [reader_step pc do_move reader sys_globals input sys_opened
             with_reader at_pc ser counter main sys_figure finally_clause is_open close].
        reflexivity.
      * repeat split.
Qed.

(** [read_serial] as a function of a script of events and the reader thread
    of the interleaving model agree: following the schedule of the script,
    the two threads reach a state with the globals, the port and the status
    [read_serial] gives. *)
Lemma read_serial_agrees : forall n script,
  let o := read_serial (Ret tt) script (initial n) in
  exists s,
    run (Reader :: schedule_of script) (start n (Ret tt) (lines_of script)) = Some s /\
    sys_globals s = o_globals o /\
    ser (reader s) = o_ser o /\
    pc (reader s) = match o_status o with
                    | Looping => AtRead
                    | st => Finished st
                    end.
Proof.
  intros n script o. subst o. unfold read_serial.
  set (g0 := print _ (initial n)).
  destruct (loop_agrees script g0 initial_figure 0 (Ret tt) eq_refl) as (s & Hrun & Hs).
  exists s. split; [exact Hrun|].
  unfold agrees in Hs. destruct (while_running script g0 0) as [[[|e|] g1] c1].
  - destruct Hs as (Hpc & Hg & Hser). cbn [o_globals o_ser o_status].
    rewrite Hpc, Hg, Hser. repeat split.
  - destruct Hs as (Hpc & Hg & Hser). unfold except_clause in *.
    destruct (handled e); cbn [fst snd] in *; cbn [o_globals o_ser o_status];
      rewrite Hpc, Hg, Hser; repeat split.
  - destruct Hs as (Hpc & Hg & Hser & _). cbn [o_globals o_ser o_status].
    rewrite Hpc, Hg, Hser. repeat split.
Qed.

Lemma read_serial_agrees_unopened : forall n e lines script,
  let o := read_serial (Raise e) script (initial n) in
  exists s,
    run (repeat Reader 3) (start n (Raise e) lines) = Some s /\
    sys_globals s = o_globals o /\
    ser (reader s) = o_ser o /\
    pc (reader s) = Finished (o_status o).
Proof.
  intros n e lines script o. subst o. unfold read_serial.
  destruct (except_clause e (initial n)) as [st g1] eqn:Ex.
  eexists. split.
  - cbn [repeat run do_move start reader_step pc reader sys_globals input sys_opened
         with_reader at_pc ser counter main sys_figure].
    rewrite Ex.
    cbn [reader_step pc do_move reader sys_globals input sys_opened
         with_reader at_pc ser counter main sys_figure finally_clause].
    reflexivity.
  - repeat split.
Qed.

End Agreement.

(* ================================================================== *)
(** * More on [strip]: white space around a line *)

Section Stripping.
Context {U : UnicodeData}.

Lemma lstrip_spaces : forall f ws s,
  forallb f ws = true -> lstrip f (ws ++ s) = lstrip f s.
Proof.
  intros f ws s. induction ws as [|c ws IH]; intros H; [reflexivity|].
  cbn [forallb] in H. apply andb_prop in H. destruct H as [Hc Hw].
  cbn [app lstrip]. rewrite Hc. apply IH. exact Hw.
Qed.

Lemma lstrip_all_spaces : forall f s, forallb f s = true -> lstrip f s = [].
Proof.
  intros f s H. rewrite <- (app_nil_r s). rewrite (lstrip_spaces f s [] H). reflexivity.
Qed.

Lemma lstrip_nil_spaces : forall f s, lstrip f s = [] -> forallb f s = true.
Proof.
  intros f s. induction s as [|c s IH]; intros H; [reflexivity|].
  cbn [lstrip] in H. cbn [forallb]. destruct (f c); [apply IH; exact H | discriminate].
Qed.

Lemma lstrip_app_kept : forall f x y,
  lstrip f x <> [] -> lstrip f (x ++ y) = lstrip f x ++ y.
Proof.
  intros f x y. induction x as [|c x IH]; intros H; [exfalso; apply H; reflexivity|].
  cbn [app lstrip] in *. destruct (f c); [apply IH; exact H | reflexivity].
Qed.

Lemma rstrip_spaces : forall f s ws,
  forallb f ws = true -> rstrip f (s ++ ws) = rstrip f s.
Proof.
  intros f s ws H. unfold rstrip. rewrite rev_app_distr.
  rewrite (lstrip_spaces f (rev ws) (rev s) (forallb_rev f ws H)). reflexivity.
Qed.



Lemma strip_spaces_around : forall ws1 text ws2,
  forallb isspace ws1 = true -> forallb isspace ws2 = true ->
  strip (ws1 ++ text ++ ws2) = strip text.
Proof.
  intros ws1 text ws2 H1 H2. unfold strip.
  rewrite (lstrip_spaces isspace ws1 _ H1).
  destruct (lstrip isspace text) as [|c l] eqn:E.
  - rewrite lstrip_all_spaces; [reflexivity|].
    rewrite forallb_app, (lstrip_nil_spaces _ _ E), H2. reflexivity.
  - rewrite lstrip_app_kept by (rewrite E; discriminate).
    rewrite E. apply rstrip_spaces. exact H2.
Qed.

End Stripping.

(** X1. White space at the two ends of a line, a line terminator for
    instance, changes nothing: the stripped text is the same, and so are the
    numbers found and what one turn of the loop does. *)
Theorem spaces_around_a_line_do_not_matter :
  forall (U : UnicodeData) (ws1 text ws2 : str),
    forallb isspace ws1 = true -> forallb isspace ws2 = true ->
    strip (ws1 ++ text ++ ws2) = strip text /\
    parse_line (ws1 ++ text ++ ws2) = parse_line text /\
    forall g counter,
      loop_body (ws1 ++ text ++ ws2) g counter = loop_body text g counter.
Proof.
  intros U ws1 text ws2 H1 H2.
  pose proof (strip_spaces_around ws1 text ws2 H1 H2) as Hs.
  assert (Hp : parse_line (ws1 ++ text ++ ws2) = parse_line text).
  { unfold parse_line. rewrite Hs. reflexivity. }
  split; [exact Hs | split; [exact Hp|]].
  intros g counter. unfold loop_body. rewrite Hp. reflexivity.
Qed.

Lemma spaces_around_a_line_do_not_matter_witness :
  @parse_line ascii_only (py "  " ++ py "Pred:0.50,True:0.52" ++ [13; 10]%N)
  = @parse_line ascii_only (py "Pred:0.50,True:0.52").
Proof.
  apply (proj1 (proj2 (spaces_around_a_line_do_not_matter ascii_only
                         (py "  ") (py "Pred:0.50,True:0.52") [13; 10]%N
                         eq_refl eq_refl))).
Defined.

(* ================================================================== *)
(** * A line in the documented format *)

Section RoundTrip.
Context {U : UnicodeData}.

Lemma digit_not_space : forall c, isdecimal c = true -> isspace c = false.
Proof.
  intros c H. unfold isdecimal, to_decimal in H. unfold isspace.
  destruct (N.ltb_spec c 128).
  - destruct (N.leb_spec 48 c); destruct (N.leb_spec c 57); cbn in H; try discriminate.
    destruct (N.leb_spec 9 c); destruct (N.leb_spec c 13);
      destruct (N.leb_spec 28 c); destruct (N.leb_spec c 31);
      destruct (N.eqb_spec c 32); try reflexivity; lia.
  - destruct (uni_space c) eqn:E; [|reflexivity].
    rewrite (uni_space_not_decimal c E) in H. discriminate.
Qed.

Lemma space_is_other : forall c, isspace c = true -> isdecimal c = false /\ c <> chr ".".
Proof.
  intros c H. split.
  - destruct (isdecimal c) eqn:E; [|reflexivity].
    rewrite (digit_not_space c E) in H. discriminate.
  - intros ->. discriminate H.
Qed.








End RoundTrip.



(* ================================================================== *)
(** * More on the bounded deque *)

Lemma newest_append : forall (A : Type) (x : A) (d : deque A),
  0 < maxlen d -> newest (append x d) = Ret x.
Proof.
  intros A x d Hpos. unfold newest, append. cbn [items].
  destruct (Nat.ltb_spec (maxlen d) (length (items d ++ [x]))) as [Hlt|Hge].
  - destruct (items d) as [|y r].
    + cbn [app length] in Hlt. lia.
    + cbn [app tl]. rewrite rev_app_distr. reflexivity.
  - rewrite rev_app_distr. reflexivity.
Qed.

Lemma newest_appends_snoc : forall (A : Type) (n : nat) (l : list A) (x : A),
  0 < n -> newest (appends (l ++ [x]) (deque_new A n)) = Ret x.
Proof.
  intros A n l x Hn. rewrite appends_snoc. apply newest_append.
  rewrite maxlen_appends. exact Hn.
Qed.

(** X3. After an append the newest item, [d[-1]], is the item appended,
    for every deque with a positive bound, full or not; with bound 0 the
    deque stays empty and [d[-1]] raises [IndexError]. *)
Theorem newest_is_the_item_appended : forall (A : Type) (x : A) (d : deque A),
  (0 < maxlen d -> newest (append x d) = Ret x) /\
  (maxlen d = 0 -> len d = 0 ->
     items (append x d) = [] /\ newest (append x d) = Raise IndexError).
Proof.
  intros A x d. split.
  - apply newest_append.
  - intros H0 Hl. unfold len in Hl. apply length_zero_iff_nil in Hl.
    unfold newest, append. cbn [items]. rewrite Hl, H0. split; reflexivity.
Qed.

Lemma newest_is_the_item_appended_witness :
  newest (append 9 {| items := [1; 2; 3]; maxlen := 3 |}) = Ret 9 /\
  newest (append 9 {| items := []; maxlen := 0 |}) = Raise IndexError.
Proof.
  split.
  - apply (proj1 (newest_is_the_item_appended nat 9 {| items := [1; 2; 3]; maxlen := 3 |})).
    cbn. lia.
  - apply (proj2 (newest_is_the_item_appended nat 9 {| items := []; maxlen := 0 |}));
      reflexivity.
Defined.

(** X4. Appending to any deque that respects its bound, empty or not,
    leaves the last [maxlen] items of what it held followed by what was
    appended; the deque still respects its bound, which is unchanged. *)
Theorem appends_keep_the_newest_of_old_and_new :
  forall (A : Type) (d : deque A) (xs : list A),
    len d <= maxlen d ->
    items (appends xs d) = window (maxlen d) (items d ++ xs) /\
    len (appends xs d) <= maxlen d /\
    maxlen (appends xs d) = maxlen d.
Proof.
  intros A d xs Hd.
  assert (Hi : items (appends xs d) = window (maxlen d) (items d ++ xs)).
  { induction xs as [|x xs IH] using rev_ind.
    - rewrite app_nil_r. symmetry. apply window_short. exact Hd.
    - rewrite appends_snoc, app_assoc, window_snoc. unfold append at 1.
      cbn [items]. rewrite maxlen_appends, IH. reflexivity. }
  split; [exact Hi | split; [|apply maxlen_appends]].
  unfold len. rewrite Hi, window_length. lia.
Qed.

Lemma appends_keep_the_newest_of_old_and_new_witness :
  items (appends [4; 5] {| items := [1; 2; 3]; maxlen := 3 |}) = [3; 4; 5].
Proof.
  apply (proj1 (appends_keep_the_newest_of_old_and_new nat
                  {| items := [1; 2; 3]; maxlen := 3 |} [4; 5] (Nat.le_refl 3))).
Defined.

(* ================================================================== *)
(** * How [read_serial] ends and what it prints *)

Section Ending.
Context {U : UnicodeData}.



End Ending.





(* ================================================================== *)
(** * More on the two threads *)

Section Threads.
Context {U : UnicodeData}.

Lemma deques_hold_lengths : forall n g ps ts xs,
  deques_hold n g ps ts xs ->
  len (data_pred g) = Nat.min n (length ps) /\
  len (data_true g) = Nat.min n (length ts) /\
  len (data_x g) = Nat.min n (length xs).
Proof.
  intros n g ps ts xs (Hp & Ht & Hx). unfold len.
  rewrite Hp, Ht, Hx, !items_appends_new, !window_length. auto.
Qed.

Lemma consistent_lengths : forall n lines s,
  consistent n lines s ->
  len (data_x (sys_globals s)) <= len (data_true (sys_globals s)) /\
  len (data_true (sys_globals s)) <= len (data_pred (sys_globals s)) /\
  len (data_pred (sys_globals s)) <= S (len (data_x (sys_globals s))) /\
  len (data_pred (sys_globals s)) <= n.
Proof.
  intros n lines s (texts & tail & _ & _ & _ & Hat). cbv zeta in Hat.
  destruct (pc (reader s)).
  - destruct Hat as (_ & _ & Hd).
    destruct (deques_hold_lengths _ _ _ _ _ Hd) as (-> & -> & ->). cbn [length]. lia.
  - destruct Hat as (_ & Hd).
    destruct (deques_hold_lengths _ _ _ _ _ Hd) as (-> & -> & ->).
    rewrite !length_map, length_seq. lia.
  - destruct Hat as (_ & Hd).
    destruct (deques_hold_lengths _ _ _ _ _ Hd) as (-> & -> & ->).
    rewrite !length_map, length_seq. lia.
  - destruct Hat as (done & _ & _ & Hd).
    destruct (deques_hold_lengths _ _ _ _ _ Hd) as (-> & -> & ->).
    rewrite !length_map, length_seq. lia.
  - destruct Hat as (done & p & Hns & _ & Hd).
    destruct (deques_hold_lengths _ _ _ _ _ Hd) as (-> & -> & ->).
    rewrite !length_map, length_seq, Hns, length_app. cbn [length]. lia.
  - destruct Hat as (done & pt & Hns & _ & Hd).
    destruct (deques_hold_lengths _ _ _ _ _ Hd) as (-> & -> & ->).
    rewrite !length_map, length_seq, Hns, length_app. cbn [length]. lia.
  - destruct Hat as (done & pt & Hns & _ & Hd).
    destruct (deques_hold_lengths _ _ _ _ _ Hd) as (-> & -> & ->).
    rewrite !length_map, length_seq. lia.
  - destruct Hat as (_ & Hd).
    destruct (deques_hold_lengths _ _ _ _ _ Hd) as (-> & -> & ->).
    rewrite !length_map, length_seq. lia.
  - destruct Hat as (_ & Hd).
    destruct (deques_hold_lengths _ _ _ _ _ Hd) as (-> & -> & ->).
    rewrite !length_map, length_seq. lia.
  - destruct Hat as (_ & Hd).
    destruct (deques_hold_lengths _ _ _ _ _ Hd) as (-> & -> & ->).
    rewrite !length_map, length_seq. lia.
Qed.

Lemma newest_of_nonempty : forall (A : Type) (d : deque A),
  0 < len d -> exists x, newest d = Ret x.
Proof.
  intros A d H. unfold newest, len in *.
  destruct (rev (items d)) as [|x l] eqn:E; [|eauto].
  apply (f_equal (@length A)) in E. rewrite length_rev in E. cbn in E. lia.
Qed.

Lemma update_succeeds : forall g fig,
  len (data_x g) <= len (data_true g) ->
  len (data_true g) <= len (data_pred g) ->
  exists fig', update g fig = Ret fig'.
Proof.
  intros g fig H1 H2. unfold update.
  destruct (Nat.ltb_spec 0 (len (data_x g))) as [Hpos|]; [|eauto].
  destruct (newest_of_nonempty _ (data_pred g)) as [p ->]; [lia|].
  destruct (newest_of_nonempty _ (data_true g)) as [t ->]; [lia|].
  cbn [bind]. eauto.
Qed.

Lemma reader_step_keeps_flag_down : forall opened g t inp g' t' inp',
  reader_step opened g t inp = Some (g', t', inp') ->
  running g = false -> running g' = false.
Proof.
  intros opened g t inp g' t' inp' H Hr. unfold reader_step in H.
  destruct (pc t).
  - destruct opened; injection H as <- <- <-; exact Hr.
  - injection H as <- <- <-; exact Hr.
  - destruct inp as [|[text|e] rest]; [discriminate| |].
    + destruct (parse_line text) as [[[p v]|]|e]; injection H as <- <- <-; exact Hr.
    + injection H as <- <- <-; exact Hr.
  - injection H as <- <- <-; exact Hr.
  - injection H as <- <- <-; exact Hr.
  - injection H as <- <- <-; exact Hr.
  - injection H as <- <- <-; exact Hr.
  - unfold except_clause in H. destruct (handled e); injection H as <- <- <-; exact Hr.
  - unfold finally_clause in H. injection H as <- <- <-. reflexivity.
  - discriminate.
Qed.

Lemma step_keeps_flag_down : forall s s',
  step s s' -> running (sys_globals s) = false -> running (sys_globals s') = false.
Proof.
  intros s s' H Hr. destruct H; cbn [with_reader with_main sys_globals];
    try exact Hr; try reflexivity.
  eapply reader_step_keeps_flag_down; eassumption.
Qed.

Lemma port_as_expected_step : forall s s',
  step s s' -> port_as_expected s -> port_as_expected s'.
Proof.
  intros s s' H (Ho & Hl & Hf). destruct H as [s g t inp H| | | |].
  - unfold port_as_expected. cbn [with_reader reader sys_globals].
    unfold reader_step in H. unfold finished in *.
    destruct (pc (reader s)) eqn:Epc; cbn [in_loop] in *.
    + destruct (sys_opened s); injection H as <- <- <-; cbn [pc ser at_pc in_loop];
        repeat split; try discriminate; auto.
    + injection H as <- <- <-. cbn [pc ser at_pc].
      destruct (running (sys_globals s)); cbn [in_loop];
        repeat split; try discriminate; auto.
    + destruct (input s) as [|[text|e] rest]; [discriminate| |].
      * destruct (parse_line text) as [[[p v]|]|e]; injection H as <- <- <-;
          cbn [pc ser at_pc in_loop]; repeat split; try discriminate; auto.
      * injection H as <- <- <-. cbn [pc ser at_pc in_loop].
        repeat split; try discriminate; auto.
    + injection H as <- <- <-. cbn [pc ser at_pc in_loop].
      repeat split; try discriminate; auto.
    + injection H as <- <- <-. cbn [pc ser at_pc in_loop].
      repeat split; try discriminate; auto.
    + injection H as <- <- <-. cbn [pc ser at_pc in_loop].
      repeat split; try discriminate; auto.
    + injection H as <- <- <-. cbn [pc ser in_loop].
      repeat split; try discriminate; auto.
    + unfold except_clause in H. destruct (handled e); injection H as <- <- <-;
        cbn [pc ser at_pc in_loop]; repeat split; try discriminate; auto.
    + unfold finally_clause in H. injection H as <- <- <-. cbn [pc ser in_loop].
      repeat split; try discriminate.
      destruct (ser (reader s)) as [[[|]]|]; reflexivity.
    + discriminate.
  - unfold port_as_expected. cbn [with_main reader sys_globals]. auto.
  - unfold port_as_expected. cbn [with_main reader sys_globals]. auto.
  - unfold port_as_expected. cbn [with_main reader sys_globals set_running running].
    repeat split; auto. apply Hf. assumption.
  - unfold port_as_expected. cbn [with_main reader sys_globals]. auto.
Qed.

Lemma reachable_port : forall n opened lines s,
  reachable (start n opened lines) s -> port_as_expected s.
Proof.
  intros n opened lines s H. induction H.
  - unfold port_as_expected. cbn. repeat split; try discriminate; auto.
  - eapply port_as_expected_step; eassumption.
Qed.

End Threads.

(** X7. In every state the program reaches, between any two statements of
    the reader, [data_x] is never longer than [data_true], which is never
    longer than [data_pred]; [data_pred] has at most one item more than
    [data_x]; and none of the three is longer than its bound. *)
Theorem deque_lengths_in_every_state :
  forall (U : UnicodeData) (n : nat) (opened : result unit)
         (lines : list (result str)) (s : sys),
    reachable (start n opened lines) s ->
    let g := sys_globals s in
    len (data_x g) <= len (data_true g) /\
    len (data_true g) <= len (data_pred g) /\
    len (data_pred g) <= S (len (data_x g)) /\
    len (data_pred g) <= n.
Proof.
  intros U n opened lines s H.
  exact (consistent_lengths n lines s (reachable_consistent _ _ _ _ H)).
Qed.

Lemma deque_lengths_in_every_state_witness :
  exists s,
    @run ascii_only (repeat Reader 4)
         (start 3 (Ret tt) [Ret (py "Pred:0.50,True:0.52")]) = Some s /\
    len (data_pred (sys_globals s)) = 1 /\
    len (data_x (sys_globals s)) = 0 /\
    len (data_pred (sys_globals s)) <= S (len (data_x (sys_globals s))).
Proof.
  destruct (@run ascii_only (repeat Reader 4)
              (start 3 (Ret tt) [Ret (py "Pred:0.50,True:0.52")]))
    as [s|] eqn:E; [|vm_compute in E; discriminate].
  exists s. split; [reflexivity|].
  destruct (deque_lengths_in_every_state ascii_only 3 (Ret tt) _ s (run_reachable _ _ _ E))
    as (_ & _ & H & _).
  vm_compute in E. injection E as <-. repeat split. exact H.
Defined.

(** X8. [update] never raises: it tests [data_x] only before it reads
    [data_pred[-1]] and [data_true[-1]], and in every state the program
    reaches the other two deques are not empty when [data_x] is not.  So
    while the window is shown a tick can always take place, whatever the
    reader is doing. *)
Theorem update_never_raises :
  forall (U : UnicodeData) (n : nat) (opened : result unit)
         (lines : list (result str)) (s : sys),
    reachable (start n opened lines) s ->
    (exists fig, update (sys_globals s) (sys_figure s) = Ret fig) /\
    (main s = Showing -> exists s', do_move Tick s = Some s').
Proof.
  intros U n opened lines s H.
  destruct (consistent_lengths n lines s (reachable_consistent _ _ _ _ H))
    as (H1 & H2 & _).
  destruct (update_succeeds (sys_globals s) (sys_figure s) H1 H2) as [fig Hfig].
  split; [eauto|].
  intros Hm. unfold do_move. rewrite Hm, Hfig. eauto.
Qed.

Lemma update_never_raises_witness :
  exists s,
    @run ascii_only (repeat Reader 4)
         (start 3 (Ret tt) [Ret (py "Pred:0.50,True:0.52")]) = Some s /\
    exists s', @do_move ascii_only Tick s = Some s'.
Proof.
  destruct (@run ascii_only (repeat Reader 4)
              (start 3 (Ret tt) [Ret (py "Pred:0.50,True:0.52")]))
    as [s|] eqn:E; [|vm_compute in E; discriminate].
  exists s. split; [reflexivity|].
  apply (proj2 (update_never_raises ascii_only 3 (Ret tt) _ s (run_reachable _ _ _ E))).
  vm_compute in E. injection E as <-. reflexivity.
Defined.

(** X9. Nothing sets [running] back to true: once it is false, it is
    false in every later state, whichever thread moves. *)
Theorem running_is_never_set_again :
  forall (U : UnicodeData) (s s' : sys),
    reachable s s' ->
    running (sys_globals s) = false ->
    running (sys_globals s') = false.
Proof.
  intros U s s' H Hr. induction H as [|s1 s2 _ IH Hs]; [exact Hr|].
  exact (step_keeps_flag_down s1 s2 Hs IH).
Qed.

Lemma running_is_never_set_again_witness :
  exists s s',
    @run ascii_only [Reader; CloseWindow; Stop]
         (start 3 (Ret tt) [Ret (py "Pred:0.50,True:0.52")]) = Some s /\
    @run ascii_only [Reader; Reader] s = Some s' /\
    running (sys_globals s') = false.
Proof.
  destruct (@run ascii_only [Reader; CloseWindow; Stop]
              (start 3 (Ret tt) [Ret (py "Pred:0.50,True:0.52")]))
    as [s|] eqn:E; [|vm_compute in E; discriminate].
  destruct (@run ascii_only [Reader; Reader] s)
    as [s'|] eqn:E';
    [|vm_compute in E; injection E as <-; vm_compute in E'; discriminate].
  exists s, s'. split; [reflexivity | split; [exact E'|]].
  apply (running_is_never_set_again ascii_only s s' (run_reachable _ _ _ E')).
  vm_compute in E. injection E as <-. reflexivity.
Defined.

(** X10. The port in every state the program reaches: [ser] is unbound
    before line 46, bound to an open port as long as the reader is inside
    its loop, and, once [read_serial] has finished, not open, with [running]
    false.  So when line 135 has returned the port is closed and the flag
    cleared, however the two threads were interleaved. *)
Theorem port_is_open_exactly_in_the_loop :
  forall (U : UnicodeData) (n : nat) (opened : result unit)
         (lines : list (result str)) (s : sys),
    reachable (start n opened lines) s ->
    (pc (reader s) = AtOpen -> ser (reader s) = None) /\
    (in_loop (pc (reader s)) = true -> ser (reader s) = Some {| is_open := true |}) /\
    (finished (reader s) = true ->
       port_open (ser (reader s)) = false /\ running (sys_globals s) = false) /\
    (main s = Exit ->
       port_open (ser (reader s)) = false /\ running (sys_globals s) = false).
Proof.
  intros U n opened lines s H.
  destruct (reachable_port n opened lines s H) as (Ho & Hl & Hf).
  split; [exact Ho | split; [exact Hl | split; [exact Hf |]]].
  intros Hm.
  destruct (reachable_consistent _ _ _ _ H) as (texts & tail & _ & _ & He & _).
  apply Hf. exact (He Hm).
Qed.

Lemma port_is_open_exactly_in_the_loop_witness :
  exists s1 s2,
    @run ascii_only [Reader]
         (start 3 (Ret tt) [Ret (py "Pred:0.50,True:0.52")]) = Some s1 /\
    ser (reader s1) = Some {| is_open := true |} /\
    @run ascii_only [CloseWindow; Stop; Reader; Reader; Join] s1 = Some s2 /\
    port_open (ser (reader s2)) = false /\ running (sys_globals s2) = false.
Proof.
  destruct (@run ascii_only [Reader]
              (start 3 (Ret tt) [Ret (py "Pred:0.50,True:0.52")]))
    as [s1|] eqn:E1; [|vm_compute in E1; discriminate].
  destruct (@run ascii_only [CloseWindow; Stop; Reader; Reader; Join] s1)
    as [s2|] eqn:E2;
    [|vm_compute in E1; injection E1 as <-; vm_compute in E2; discriminate].
  exists s1, s2.
  pose proof (run_reachable _ _ _ E1) as R1.
  pose proof (reachable_trans _ _ _ R1 (run_reachable _ _ _ E2)) as R2.
  destruct (port_is_open_exactly_in_the_loop ascii_only 3 (Ret tt) _ s1 R1)
    as (_ & Hl & _).
  destruct (port_is_open_exactly_in_the_loop ascii_only 3 (Ret tt) _ s2 R2)
    as (_ & _ & _ & He).
  split; [reflexivity|]. split.
  - apply Hl. vm_compute in E1. injection E1 as <-. reflexivity.
  - split; [exact E2|]. apply He.
    vm_compute in E1. injection E1 as <-. vm_compute in E2. injection E2 as <-.
    reflexivity.
Defined.

(* ================================================================== *)
(** * The reader after the flag is cleared *)

Ltac reader_moves Hr :=
  repeat (cbn [repeat run do_move reader_step pc reader sys_globals input sys_opened
               with_reader at_pc ser counter main sys_figure running
               append_pred append_true append_x print set_running finally_clause];
          rewrite ?Hr).

Lemma reader_ends_with_flag_down :
  forall (U : UnicodeData) (s : sys),
    running (sys_globals s) = false ->
    (pc (reader s) = AtRead -> input s <> []) ->
    exists k s',
      k <= 7 /\
      run (repeat Reader k) s = Some s' /\
      finished (reader s') = true /\
      main s' = main s.
Proof.
  intros U [g fig [p se c] m op inp] Hr Hin.
  cbn [sys_globals reader pc input] in Hr, Hin.
  destruct p as [| | |pv tv|tv| | |e|st|st].
  - destruct op as [[]|e].
    + exists 3. eexists. split; [lia|]. split; [reader_moves Hr; reflexivity|].
      split; reflexivity.
    + exists 3. unfold except_clause. destruct (handled e) eqn:He;
        (eexists; split; [lia|]; split;
         [reader_moves Hr; unfold except_clause; rewrite He; reader_moves Hr; reflexivity|];
         split; reflexivity).
  - exists 2. eexists. split; [lia|]. split; [reader_moves Hr; reflexivity|].
    split; reflexivity.
  - destruct inp as [|[text|e] rest]; [exfalso; apply Hin; reflexivity| |].
    + destruct (parse_line_total text) as [[[pv tv]|] Hp].
      * exists 7. eexists. split; [lia|]. split;
          [reader_moves Hr; rewrite Hp; reader_moves Hr; reflexivity|].
        split; reflexivity.
      * exists 3. eexists. split; [lia|]. split;
          [reader_moves Hr; rewrite Hp; reader_moves Hr; reflexivity|].
        split; reflexivity.
    + exists 3. destruct (handled e) eqn:He;
        (eexists; split; [lia|]; split;
         [reader_moves Hr; unfold except_clause; rewrite He; reader_moves Hr; reflexivity|];
         split; reflexivity).
  - exists 6. eexists. split; [lia|]. split; [reader_moves Hr; reflexivity|].
    split; reflexivity.
  - exists 5. eexists. split; [lia|]. split; [reader_moves Hr; reflexivity|].
    split; reflexivity.
  - exists 4. eexists. split; [lia|]. split; [reader_moves Hr; reflexivity|].
    split; reflexivity.
  - exists 3. eexists. split; [lia|]. split; [reader_moves Hr; reflexivity|].
    split; reflexivity.
  - exists 2. destruct (handled e) eqn:He;
      (eexists; split; [lia|]; split;
       [reader_moves Hr; unfold except_clause; rewrite He; reader_moves Hr; reflexivity|];
       split; reflexivity).
  - exists 1. eexists. split; [lia|]. split; [reader_moves Hr; reflexivity|].
    split; reflexivity.
  - exists 0. eexists. split; [lia|]. split; [reflexivity|]. split; reflexivity.
Qed.

(** X11. Once [running] is false the reader ends within the turn in
    progress: from any state with the flag down, and a line to read if the
    reader is waiting for one, at most seven statements of the reader take it
    to its end.  So a [join] after line 134 waits for one [readline] at
    most. *)
Theorem the_reader_ends_once_the_flag_is_down :
  forall (U : UnicodeData) (s : sys),
    running (sys_globals s) = false ->
    (pc (reader s) = AtRead -> input s <> []) ->
    exists k s',
      k <= 7 /\
      run (repeat Reader k) s = Some s' /\
      finished (reader s') = true /\
      main s' = main s.
Proof.
  intros U s Hr Hin. exact (reader_ends_with_flag_down U s Hr Hin).
Qed.

Lemma the_reader_ends_once_the_flag_is_down_witness :
  exists s,
    @run ascii_only [Reader; Reader; CloseWindow; Stop]
         (start 3 (Ret tt) [Ret (py "Pred:0.50,True:0.52")]) = Some s /\
    exists k s',
      k <= 7 /\ @run ascii_only (repeat Reader k) s = Some s' /\
      finished (reader s') = true /\ main s' = main s.
Proof.
  destruct (@run ascii_only [Reader; Reader; CloseWindow; Stop]
              (start 3 (Ret tt) [Ret (py "Pred:0.50,True:0.52")]))
    as [s|] eqn:E; [|vm_compute in E; discriminate].
  exists s. split; [reflexivity|].
  vm_compute in E. injection E as <-.
  apply (the_reader_ends_once_the_flag_is_down ascii_only); [reflexivity|].
  intros _. discriminate.
Defined.

(** X12. Closing the window ends the program: from every state the
    program reaches with the window shown, whatever the reader is doing,
    lines 134 and 135 and at most seven statements of the reader bring the
    main thread to its end, provided the [readline] in progress, if any,
    returns.  At the end the reader has finished, [running] is false and
    the port is not open. *)
Theorem closing_the_window_ends_the_program :
  forall (U : UnicodeData) (n : nat) (opened : result unit)
         (lines : list (result str)) (s : sys),
    reachable (start n opened lines) s ->
    main s = Showing ->
    (pc (reader s) = AtRead -> input s <> []) ->
    exists k s',
      k <= 7 /\
      run ([CloseWindow; Stop] ++ repeat Reader k ++ [Join]) s = Some s' /\
      main s' = Exit /\
      finished (reader s') = true /\
      running (sys_globals s') = false /\
      port_open (ser (reader s')) = false.
Proof.
  intros U n opened lines s Hreach Hm Hin.
  set (s1 := with_main s (set_running false (sys_globals s)) (sys_figure s) AtJoin).
  assert (H1 : run [CloseWindow; Stop] s = Some s1).
  { cbn [run do_move]. rewrite Hm. cbn [with_main main sys_globals sys_figure].
    reflexivity. }
  destruct (reader_ends_with_flag_down U s1 eq_refl Hin) as (k & s2 & Hk & H2 & Hf & Hm2).
  set (s3 := with_main s2 (sys_globals s2) (sys_figure s2) Exit).
  assert (H3 : run [Join] s2 = Some s3).
  { cbn [run do_move]. rewrite Hm2. cbn [s1 with_main main]. rewrite Hf. reflexivity. }
  assert (Hrun : run ([CloseWindow; Stop] ++ repeat Reader k ++ [Join]) s = Some s3).
  { rewrite run_app, H1, run_app, H2. exact H3. }
  exists k, s3. split; [exact Hk|]. split; [exact Hrun|].
  split; [reflexivity|]. split; [exact Hf|].
  pose proof (reachable_trans _ _ _ Hreach (run_reachable _ _ _ Hrun)) as R.
  destruct (reachable_port n opened lines s3 R) as (_ & _ & Hp).
  destruct (Hp Hf) as [Hc Hr]. split; [exact Hr | exact Hc].
Qed.

Lemma closing_the_window_ends_the_program_witness :
  exists s,
    @run ascii_only (repeat Reader 4)
         (start 3 (Ret tt) [Ret (py "Pred:0.50,True:0.52"); Ret (py "")]) = Some s /\
    exists k s',
      k <= 7 /\
      @run ascii_only ([CloseWindow; Stop] ++ repeat Reader k ++ [Join]) s = Some s' /\
      main s' = Exit /\
      port_open (ser (reader s')) = false.
Proof.
  destruct (@run ascii_only (repeat Reader 4)
              (start 3 (Ret tt) [Ret (py "Pred:0.50,True:0.52"); Ret (py "")]))
    as [s|] eqn:E; [|vm_compute in E; discriminate].
  exists s. split; [reflexivity|].
  destruct (closing_the_window_ends_the_program ascii_only 3 (Ret tt) _ s
              (run_reachable _ _ _ E))
    as (k & s' & Hk & Hrun & Hm & _ & _ & Hp).
  - vm_compute in E. injection E as <-. reflexivity.
  - vm_compute in E. injection E as <-. discriminate.
  - exists k, s'. auto.
Defined.

(* ================================================================== *)
(** * What [update] shows *)

Section Calls.
Context {U : UnicodeData}.

Lemma len_append : forall (A : Type) (x : A) (d : deque A), len d <= len (append x d).
Proof.
  intros A x d. unfold len, append. cbn [items].
  destruct (Nat.ltb_spec (maxlen d) (length (items d ++ [x]))) as [H|H].
  - destruct (items d) as [|y l]; cbn [app tl length]; [lia|].
    rewrite length_app. cbn [length]. lia.
  - rewrite length_app. cbn [length]. lia.
Qed.

(** Holds when the deques are the same objects, whatever else differs. *)
Lemma grown_refl : forall g g',
  data_pred g' = data_pred g -> data_true g' = data_true g -> data_x g' = data_x g ->
  grown g g'.
Proof. intros g g' Hp Ht Hx. unfold grown. rewrite Hp, Ht, Hx. lia. Qed.

Lemma reader_step_grown : forall opened g t inp g' t' inp',
  reader_step opened g t inp = Some (g', t', inp') -> grown g g'.
Proof.
  intros opened g t inp g' t' inp' H. unfold reader_step in H.
  destruct (pc t).
  - destruct opened; injection H as <- <- <-; apply grown_refl; reflexivity.
  - injection H as <- <- <-; apply grown_refl; reflexivity.
  - destruct inp as [|[text|e] rest]; [discriminate| |].
    + destruct (parse_line text) as [[[p v]|]|e]; injection H as <- <- <-; apply grown_refl; reflexivity.
    + injection H as <- <- <-; apply grown_refl; reflexivity.
  - injection H as <- <- <-. unfold grown, append_pred.
    cbn [data_pred data_true data_x]. pose proof (len_append _ pred_val (data_pred g)). lia.
  - injection H as <- <- <-. unfold grown, append_true.
    cbn [data_pred data_true data_x]. pose proof (len_append _ true_val (data_true g)). lia.
  - injection H as <- <- <-. unfold grown, append_x.
    cbn [data_pred data_true data_x]. pose proof (len_append _ (counter t) (data_x g)). lia.
  - injection H as <- <- <-; apply grown_refl; reflexivity.
  - unfold except_clause in H. destruct (handled e); injection H as <- <- <-;
      apply grown_refl; reflexivity.
  - unfold finally_clause in H. injection H as <- <- <-. apply grown_refl; reflexivity.
  - discriminate.
Qed.

Lemma reachable_grown : forall s s',
  reachable s s' -> grown (sys_globals s) (sys_globals s').
Proof.
  intros s s' H. induction H as [|s1 s2 _ IH Hs]; [apply grown_refl; reflexivity|].
  assert (grown (sys_globals s1) (sys_globals s2)).
  { destruct Hs as [s1 g t inp Hr| | | |]; cbn [with_reader with_main sys_globals];
      try (apply grown_refl; reflexivity).
    exact (reader_step_grown _ _ _ _ _ _ _ Hr). }
  unfold grown in *. lia.
Qed.

(** The states at the reads of a call follow one another. *)
Lemma update_call_reads : forall k1 k2 k3 k4 k5 s v s',
  update_call k1 k2 k3 k4 k5 s = Some (v, s') ->
  exists s1 s2 s3 s4,
    reachable s s1 /\ reachable s1 s2 /\ reachable s2 s3 /\
    reachable s3 s4 /\ reachable s4 s' /\
    v = {| at_108 := sys_globals s; at_110 := sys_globals s1;
           at_111 := sys_globals s2; at_114 := sys_globals s3;
           at_117_pred := sys_globals s4; at_117_true := sys_globals s' |}.
Proof.
  intros k1 k2 k3 k4 k5 s v s' H. unfold update_call in H.
  destruct (run (repeat Reader k1) s) as [s1|] eqn:E1; [|discriminate].
  destruct (run (repeat Reader k2) s1) as [s2|] eqn:E2; [|discriminate].
  destruct (run (repeat Reader k3) s2) as [s3|] eqn:E3; [|discriminate].
  destruct (run (repeat Reader k4) s3) as [s4|] eqn:E4; [|discriminate].
  destruct (run (repeat Reader k5) s4) as [s5|] eqn:E5; [|discriminate].
  injection H as <- <-. exists s1, s2, s3, s4.
  repeat split; eauto using run_reachable.
Qed.

End Calls.

(** X13. What a call of [update] shows, whatever the reader does between
    its reads: the call never raises, and the lengths of [data_x] it reads
    at lines 108, 110, 111 and 114 never decrease from one read to the next
    and never exceed the bound.  When no statement of the reader falls
    inside the call, the reader is at the test of its loop and the bound is
    not 0, the figure is left as it was as long as no line had numbers;
    otherwise it shows the error of the pair read last, the absolute value
    of predicted minus true, and x data as long as the number of samples
    retained. *)
Theorem update_shows_the_newest_sample :
  forall (U : UnicodeData) (n : nat) (opened : result unit)
         (lines : list (result str)) (s : sys)
         (k1 k2 k3 k4 k5 : nat) (v : reads) (s' : sys),
    reachable (start n opened lines) s ->
    update_call k1 k2 k3 k4 k5 s = Some (v, s') ->
    (exists fig, update_reading v (sys_figure s) = Ret fig) /\
    (len (data_x (at_108 v)) <= len (data_x (at_110 v)) /\
     len (data_x (at_110 v)) <= len (data_x (at_111 v)) /\
     len (data_x (at_111 v)) <= len (data_x (at_114 v)) /\
     len (data_x (at_114 v)) <= n) /\
    (k1 + k2 + k3 + k4 + k5 = 0 -> pc (reader s) = AtTest -> 0 < n ->
     exists texts,
       lines = map Ret texts ++ input s /\
       (numbers_of texts = [] ->
          update_reading v (sys_figure s) = Ret (sys_figure s)) /\
       (forall earlier p t,
          numbers_of texts = earlier ++ [(p, t)] ->
          let k := Nat.min n (length (numbers_of texts)) in
          update_reading v (sys_figure s) =
            Ret {| line_pred := {| xdata := RangeTo k; ydata := TheDeque DataPred |};
                   line_true := {| xdata := RangeTo k; ydata := TheDeque DataTrue |};
                   xlim := (0, k);
                   error_text :=
                     py "Current Error: " ++ format_f 4 (float_abs (float_sub p t)) |})).
Proof.
  intros U n opened lines s k1 k2 k3 k4 k5 v s' Hreach Hcall.
  split; [|split].
  - destruct (update_call_reads _ _ _ _ _ _ _ _ Hcall)
      as (s1 & s2 & s3 & s4 & R1 & R2 & R3 & R4 & R5 & ->).
    unfold update_reading. cbn [at_108 at_110 at_111 at_114 at_117_pred at_117_true].
    destruct (Nat.ltb_spec 0 (len (data_x (sys_globals s)))) as [Hpos|]; [|eauto].
    destruct (consistent_lengths n lines s (reachable_consistent _ _ _ _ Hreach))
      as (Hxt & Htp & _).
    pose proof (reachable_trans _ _ _ R1 (reachable_trans _ _ _ R2
                  (reachable_trans _ _ _ R3 R4))) as R14.
    destruct (reachable_grown _ _ R14) as (Gp & Gt & _).
    destruct (reachable_grown _ _ R5) as (_ & Gt' & _).
    destruct (newest_of_nonempty _ (data_pred (sys_globals s4))) as [p ->]; [lia|].
    destruct (newest_of_nonempty _ (data_true (sys_globals s'))) as [t ->]; [lia|].
    cbn [bind]. eauto.
  - destruct (update_call_reads _ _ _ _ _ _ _ _ Hcall)
      as (s1 & s2 & s3 & s4 & R1 & R2 & R3 & R4 & R5 & ->).
    cbn [at_108 at_110 at_111 at_114].
    destruct (reachable_grown _ _ R1) as (_ & _ & G1).
    destruct (reachable_grown _ _ R2) as (_ & _ & G2).
    destruct (reachable_grown _ _ R3) as (_ & _ & G3).
    pose proof (reachable_trans _ _ _ Hreach (reachable_trans _ _ _ R1
                  (reachable_trans _ _ _ R2 R3))) as R03.
    destruct (consistent_lengths n lines s3 (reachable_consistent _ _ _ _ R03))
      as (Hxt & Htp & _ & Hn).
    lia.
  - intros Hk Hpc Hn.
    assert (k1 = 0 /\ k2 = 0 /\ k3 = 0 /\ k4 = 0 /\ k5 = 0) as (-> & -> & -> & -> & ->) by lia.
    cbn [update_call repeat run] in Hcall. injection Hcall as <- <-.
    change (update_reading _ (sys_figure s)) with (update (sys_globals s) (sys_figure s)).
    destruct (reachable_consistent _ _ _ _ Hreach)
      as (texts & tail & Hlines & Htail & _ & Hat).
    rewrite Hpc in Hat, Htail. cbv zeta in Hat. destruct Hat as (_ & Hd).
    rewrite (tail_empty _ _ Htail eq_refl) in Hlines.
    exists texts. split; [exact Hlines|].
    destruct (deques_hold_lengths _ _ _ _ _ Hd) as (Hlp & Hlt & Hlx).
    rewrite !length_map in Hlp, Hlt. rewrite length_seq in Hlx.
    destruct Hd as (Hp & Ht & Hx). split.
    + intros Hno. unfold update. rewrite Hlx, Hno. cbn [length].
      rewrite Nat.min_0_r. reflexivity.
    + intros earlier p t Hns k. subst k.
      unfold update. rewrite Hlx.
      assert (Hpos : 0 < Nat.min n (length (numbers_of texts))).
      { rewrite Hns, length_app. cbn [length]. lia. }
      destruct (Nat.ltb_spec 0 (Nat.min n (length (numbers_of texts)))); [|lia].
      rewrite Hns in Hp, Ht. rewrite map_app in Hp, Ht. cbn [map fst snd] in Hp, Ht.
      rewrite Hp, Ht, !newest_appends_snoc by exact Hn. reflexivity.
Qed.

Lemma update_shows_the_newest_sample_witness :
  exists s v,
    @run ascii_only (repeat Reader 7)
         (start 3 (Ret tt) [Ret (py "Pred:0.50,True:0.52")]) = Some s /\
    @update_call ascii_only 0 0 0 0 0 s = Some (v, s) /\
    exists fig,
      update_reading v (sys_figure s) = Ret fig /\
      error_text fig = py "Current Error: 0.0200" /\
      xdata (line_pred fig) = RangeTo 1.
Proof.
  destruct (@run ascii_only (repeat Reader 7)
              (start 3 (Ret tt) [Ret (py "Pred:0.50,True:0.52")]))
    as [s|] eqn:E; [|vm_compute in E; discriminate].
  exists s, (undisturbed (sys_globals s)).
  split; [reflexivity|]. split; [reflexivity|].
  destruct (update_shows_the_newest_sample ascii_only 3 (Ret tt) _ s 0 0 0 0 0
              (undisturbed (sys_globals s)) s (run_reachable _ _ _ E) eq_refl)
    as (_ & _ & H).
  destruct (H eq_refl) as (texts & Hl & _ & Hfig);
    [vm_compute in E; injection E as <-; reflexivity | lia |].
  vm_compute in E. injection E as <-. cbn [input] in Hl.
  destruct texts as [|text [|text' texts]]; try discriminate Hl.
  injection Hl as <-.
  pose proof (Hfig [] (decimal_to_float false 50 (-2)) (decimal_to_float false 52 (-2))
                eq_refl) as Hu.
  eexists. split; [exact Hu|]. split; reflexivity.
Defined.

(* ================================================================== *)
(** * The error [update] computes *)

Lemma abs_binary_round : forall (s s' : bool) (m : positive) (e : Z),
  SFabs (binary_round prec emax s m e) = SFabs (binary_round prec emax s' m e).
Proof.
  intros s s' m e. unfold binary_round.
  destruct (shl_align m e _) as [mz ez]. unfold binary_round_aux.
  destruct (shr_fexp prec emax (Z.pos mz) ez loc_Exact) as [mrs e1].
  destruct (shr_fexp prec emax _ e1 loc_Exact) as [mrs' e2].
  destruct (shr_m mrs'); [reflexivity| |reflexivity].
  destruct (e2 <=? emax - prec)%Z; reflexivity.
Qed.

Lemma abs_binary_normalize_opp : forall (a b e : Z),
  SFabs (binary_normalize prec emax (a - b) e false) =
  SFabs (binary_normalize prec emax (b - a) e false).
Proof.
  intros a b e. replace (b - a)%Z with (- (a - b))%Z by lia.
  destruct (a - b)%Z; cbn [Z.opp binary_normalize];
    [reflexivity | apply abs_binary_round | apply abs_binary_round].
Qed.

Lemma float_abs_sub_sym : forall p t : float,
  float_abs (float_sub p t) = float_abs (float_sub t p).
Proof.
  intros p t. unfold float_abs, float_sub.
  destruct p as [sp|sp| |sp mp ep], t as [st|st| |st mt et];
    try reflexivity; try (destruct sp, st; reflexivity);
    try (destruct sp; reflexivity); try (destruct st; reflexivity).
  cbn [SFsub]. cbv zeta. rewrite (Z.min_comm et ep).
  apply abs_binary_normalize_opp.
Qed.

Lemma float_sub_self : forall (s : bool) (m : positive) (e : Z),
  float_sub (S754_finite s m e) (S754_finite s m e) = S754_zero false.
Proof.
  intros s m e. unfold float_sub. cbn [SFsub]. cbv zeta.
  rewrite Z.sub_diag. reflexivity.
Qed.

(** X14. The error [update] computes, [abs(data_pred[-1] - data_true[-1])],
    is the same whichever of the two values is the prediction.  For two
    equal numbers it is shown as [0.0000]; for two equal infinities, which
    [float] returns for numerals too large for a float, it is shown as
    [nan]. *)
Theorem error_does_not_depend_on_the_order : forall p t : float,
  float_abs (float_sub p t) = float_abs (float_sub t p) /\
  (p = t ->
   format_f 4 (float_abs (float_sub p t)) =
   match p with
   | S754_zero _ | S754_finite _ _ _ => py "0.0000"
   | _ => py "nan"
   end).
Proof.
  intros p t. split; [apply float_abs_sub_sym|].
  intros <-. destruct p as [s|s| |s m e].
  - destruct s; reflexivity.
  - destruct s; reflexivity.
  - reflexivity.
  - rewrite float_sub_self. reflexivity.
Qed.

Lemma error_does_not_depend_on_the_order_witness :
  let huge := py "1" ++ repeat (chr "0") 400 in
  let p := decimal_to_float false 50 (-2) in
  let t := decimal_to_float false 52 (-2) in
  format_f 4 (float_abs (float_sub p t)) = py "0.0200" /\
  format_f 4 (float_abs (float_sub t p)) = py "0.0200" /\
  format_f 4 (float_abs (float_sub p p)) = py "0.0000" /\
  (forall g, @loop_body ascii_only (py "Pred:" ++ huge ++ py ",True:" ++ huge) g 0 =
             Ret (append_x 0 (append_true (S754_infinity false)
                                (append_pred (S754_infinity false) g)), 1)) /\
  format_f 4 (float_abs (float_sub (S754_infinity false) (S754_infinity false))) = py "nan".
Proof.
  intros huge p t.
  destruct (error_does_not_depend_on_the_order p t) as [Hsym _].
  destruct (error_does_not_depend_on_the_order p p) as [_ Hp].
  destruct (error_does_not_depend_on_the_order (S754_infinity false) (S754_infinity false))
    as [_ Hi].
  split; [vm_compute; reflexivity|]. split; [rewrite <- Hsym; vm_compute; reflexivity|].
  split; [exact (Hp eq_refl)|]. split; [|exact (Hi eq_refl)].
  intros g. unfold loop_body.
  replace (@parse_line ascii_only (py "Pred:" ++ huge ++ py ",True:" ++ huge))
    with (@Ret (option (float * float))
               (Some (S754_infinity false, S754_infinity false)))
    by (vm_compute; reflexivity).
  reflexivity.
Defined.

(* ================================================================== *)
(** * What [float] returns for a numeral *)


